(** * Function service cache of the executor (pkg/executor/fscache)

    A shallow embedding of [functionServiceCache.go]: the three indices
    [byFunction], [byAddress] and [byFunctionUID], the request loop
    [service] that serialises TOUCH / LISTOLD / LOG / LISTOLDPOOL, the
    direct operations ([Add], [GetByFunction], [DeleteEntry], ...), the
    snapshot writer [DumpFnSvcCache] and [GetAttributesForFuncSvc].

    Go pointers to [FuncSvc] records are locations of an explicit heap, so
    that the sharing between the cache and the records it hands out is
    visible.  [time.Now()] reads a clock carried by the state. *)

From stdpp Require Import gmap strings list fin_maps pretty.
From Stdlib Require Import ZArith Lia.

Local Open Scope string_scope.
Local Open Scope Z_scope.

(** ** Time *)

Module Time.

(** [time.Time] as nanoseconds on the monotonic clock, [time.Duration] as
    a signed 64-bit count of nanoseconds. *)
Definition minDuration : Z := - 2 ^ 63.
Definition maxDuration : Z := 2 ^ 63 - 1.
Definition Second : Z := 1000000000.

(** [t.Sub(u)]: the difference, saturated to the range of a Duration. *)
Definition Sub (t u : Z) : Z :=
  Z.max minDuration (Z.min maxDuration (t - u)).

(** [time.Since(t)] is [time.Now().Sub(t)]. *)
Definition Since (now t : Z) : Z := Sub now t.

(** [d.Seconds()] adds the whole seconds [d / Second] and the fraction
    [(d % Second) / 1e9] as floats; the two integer operands are kept. *)
Definition Seconds (d : Z) : Z * Z := (Z.quot d Second, Z.rem d Second).

End Time.

(** ** Errors (pkg/error) *)

Inductive ErrorCode := ErrorNotFound | ErrorNameExists | ErrorInternal.

#[global] Instance ErrorCode_eq_dec : EqDecision ErrorCode.
Proof. solve_decision. Defined.

(** An [error] value: a [ferror.Error] made by [ferror.MakeError], or an
    error wrapped by [errors.Wrap], which is no longer a [ferror.Error]. *)
Inductive error :=
| MakeError (code : ErrorCode) (msg : string)
| Wrap (e : error) (msg : string).

Definition IsNotFoundError (err : error) : bool :=
  match err with
  | MakeError c _ => bool_decide (c = ErrorNotFound)
  | Wrap _ _ => false
  end.

Definition IsNameExistError (err : error) : bool :=
  match err with
  | MakeError c _ => bool_decide (c = ErrorNameExists)
  | Wrap _ _ => false
  end.

(** ** Records *)

Record ObjectMeta := {
  Name : string;
  Namespace : string;
  UID : string;
  ResourceVersion : string
}.

Record Environment := { Metadata : ObjectMeta }.

Record ObjectReference := { Kind : string; RefName : string }.

(** [resource.Quantity] is opaque to the cache; it is kept by the text that
    the [%v] verb prints for it. *)
Record Quantity := { QuantityString : string }.

Record FuncSvc := {
  SvcName : string;
  Function : option ObjectMeta;        (* *metav1.ObjectMeta, nil as None *)
  Env : option Environment;            (* *fv1.Environment, nil as None *)
  Address : string;
  KubernetesObjects : list ObjectReference;
  Executor : string;
  CPULimit : Quantity;
  Ctime : Z;
  Atime : Z
}.

Definition with_Atime (t : Z) (f : FuncSvc) : FuncSvc :=
  {| SvcName := SvcName f; Function := Function f; Env := Env f;
     Address := Address f; KubernetesObjects := KubernetesObjects f;
     Executor := Executor f; CPULimit := CPULimit f;
     Ctime := Ctime f; Atime := t |}.

Definition with_Ctime (t : Z) (f : FuncSvc) : FuncSvc :=
  {| SvcName := SvcName f; Function := Function f; Env := Env f;
     Address := Address f; KubernetesObjects := KubernetesObjects f;
     Executor := Executor f; CPULimit := CPULimit f;
     Ctime := t; Atime := Atime f |}.

(** Modelled from the spec: [crd.CacheKey] is not among the sources.  The
    function key is a string derived from the namespace, the name and the
    resource version of the function. *)
Definition CacheKey (m : ObjectMeta) : string :=
  Namespace m ++ "_" ++ Name m ++ "_" ++ ResourceVersion m.

(** ** The keyed index (pkg/cache) *)

Module cache.

Section Ops.
Context {V : Type}.

(** Modelled from the spec: [cache.Cache] is not among the sources.  It
    is a keyed map behind a lock with [Get], [Set], [Delete] and
    [Copy]; a lookup of an absent key fails with NotFound. *)
Definition Get (c : gmap string V) (k : string) : V + error :=
  match c !! k with
  | Some v => inl v
  | None => inr (MakeError ErrorNotFound "key not found")
  end.

(** Modelled from the spec: [Set] does not overwrite; on a bound key it
    returns the value already there together with NameExists. *)
Definition Set_ (c : gmap string V) (k : string) (v : V)
  : option V * option error * gmap string V :=
  match c !! k with
  | Some old => (Some old, Some (MakeError ErrorNameExists "key already exists"), c)
  | None => (None, None, <[k := v]> c)
  end.

(** Modelled from the spec: [Delete] removes the key.  The spec lets a
    removal report a failure and does not say when, so the error it
    reports is given by [faults], from the key and from whether the key
    was bound. *)
Definition Delete (faults : string → bool → option error)
    (c : gmap string V) (k : string) : option error * gmap string V :=
  (faults k (bool_decide (is_Some (c !! k))), delete k c).

(** [Copy] is a snapshot; ranging over it visits every binding once, in
    an order Go leaves open.  The order of [map_to_list] stands for it. *)
Definition Copy (c : gmap string V) : list (string * V) := map_to_list c.
End Ops.

End cache.

(** ** The pool cache (connFunctionCache) *)

Definition loc := nat.

(** Modelled from the spec: [PoolCache] (poolcache.go) is not among the
    sources.  A group holds, per address, an entry with the record, its
    active requests and CPU figures; a FIFO queue of waiters; and the count
    [svcWaiting] of specialisations promised to waiters.  The field names
    are those [DumpFnSvcCache] reads. *)
Record funcSvcInfo := {
  val : loc;
  activeRequests : Z;
  currentCPUUsage : Quantity;
  cpuLimit : Quantity
}.

Record funcSvcGroup := {
  svcs : gmap string funcSvcInfo;
  queue : list nat;
  svcWaiting : Z
}.

Definition NewFuncSvcGroup : funcSvcGroup :=
  {| svcs := ∅; queue := []; svcWaiting := 0 |}.

(** ** The state *)

Record LogEntry := {
  level : string;
  message : string;
  fields : list string;
  logged_error : option error
}.

(** One observation of the summary [FuncRunningSummary]: the two label
    values and the seconds observed, as [Time.Seconds] gives them. *)
Record Observation := {
  function_name : string;
  function_namespace : string;
  observed : Z * Z
}.

(** The cache with what it reaches: the heap of [FuncSvc] records the
    pointers refer to, the clock read by [time.Now()], whether the
    goroutine running [service] is still receiving, the logger's output and
    the metric's observations. *)
Record State := {
  heap : gmap loc FuncSvc;
  byFunction : gmap string loc;
  byAddress : gmap string ObjectMeta;
  byFunctionUID : gmap string ObjectMeta;
  connFunctionCache : gmap string funcSvcGroup;
  serving : bool;
  clock : Z;
  logs : list LogEntry;
  FuncRunningSummary : list Observation
}.

#[global] Instance FuncSvc_inhabited : Inhabited FuncSvc :=
  populate {| SvcName := ""; Function := None; Env := None; Address := "";
              KubernetesObjects := []; Executor := "";
              CPULimit := {| QuantityString := "0" |}; Ctime := 0; Atime := 0 |}.

Definition set_heap (h : gmap loc FuncSvc) (st : State) : State :=
  {| heap := h; byFunction := byFunction st; byAddress := byAddress st;
     byFunctionUID := byFunctionUID st; connFunctionCache := connFunctionCache st;
     serving := serving st; clock := clock st; logs := logs st;
     FuncRunningSummary := FuncRunningSummary st |}.

Definition set_byFunction (m : gmap string loc) (st : State) : State :=
  {| heap := heap st; byFunction := m; byAddress := byAddress st;
     byFunctionUID := byFunctionUID st; connFunctionCache := connFunctionCache st;
     serving := serving st; clock := clock st; logs := logs st;
     FuncRunningSummary := FuncRunningSummary st |}.

Definition set_byAddress (m : gmap string ObjectMeta) (st : State) : State :=
  {| heap := heap st; byFunction := byFunction st; byAddress := m;
     byFunctionUID := byFunctionUID st; connFunctionCache := connFunctionCache st;
     serving := serving st; clock := clock st; logs := logs st;
     FuncRunningSummary := FuncRunningSummary st |}.

Definition set_byFunctionUID (m : gmap string ObjectMeta) (st : State) : State :=
  {| heap := heap st; byFunction := byFunction st; byAddress := byAddress st;
     byFunctionUID := m; connFunctionCache := connFunctionCache st;
     serving := serving st; clock := clock st; logs := logs st;
     FuncRunningSummary := FuncRunningSummary st |}.

Definition set_pool (m : gmap string funcSvcGroup) (st : State) : State :=
  {| heap := heap st; byFunction := byFunction st; byAddress := byAddress st;
     byFunctionUID := byFunctionUID st; connFunctionCache := m;
     serving := serving st; clock := clock st; logs := logs st;
     FuncRunningSummary := FuncRunningSummary st |}.

Definition set_serving (b : bool) (st : State) : State :=
  {| heap := heap st; byFunction := byFunction st; byAddress := byAddress st;
     byFunctionUID := byFunctionUID st; connFunctionCache := connFunctionCache st;
     serving := b; clock := clock st; logs := logs st;
     FuncRunningSummary := FuncRunningSummary st |}.

Definition set_clock (t : Z) (st : State) : State :=
  {| heap := heap st; byFunction := byFunction st; byAddress := byAddress st;
     byFunctionUID := byFunctionUID st; connFunctionCache := connFunctionCache st;
     serving := serving st; clock := t; logs := logs st;
     FuncRunningSummary := FuncRunningSummary st |}.

Definition log (lvl msg : string) (fs : list string) (e : option error)
    (st : State) : State :=
  {| heap := heap st; byFunction := byFunction st; byAddress := byAddress st;
     byFunctionUID := byFunctionUID st; connFunctionCache := connFunctionCache st;
     serving := serving st; clock := clock st;
     logs := logs st ++ [ {| level := lvl; message := msg; fields := fs;
                             logged_error := e |} ];
     FuncRunningSummary := FuncRunningSummary st |}.

Definition Observe (name namespace : string) (d : Z * Z) (st : State) : State :=
  {| heap := heap st; byFunction := byFunction st; byAddress := byAddress st;
     byFunctionUID := byFunctionUID st; connFunctionCache := connFunctionCache st;
     serving := serving st; clock := clock st; logs := logs st;
     FuncRunningSummary := FuncRunningSummary st ++
       [ {| function_name := name; function_namespace := namespace;
            observed := d |} ] |}.

(** [MakeFunctionServiceCache]: empty indices, an empty pool and the
    [service] goroutine started. *)
Definition MakeFunctionServiceCache (now : Z) : State :=
  {| heap := ∅; byFunction := ∅; byAddress := ∅; byFunctionUID := ∅;
     connFunctionCache := ∅; serving := true; clock := now; logs := [];
     FuncRunningSummary := [] |}.

(** Reading through a pointer, writing through it, and taking the address
    of a new record.  Go has no dangling pointers: every location the cache
    holds is allocated. *)
Definition deref (st : State) (p : loc) : FuncSvc := heap st !!! p.

Definition store (p : loc) (f : FuncSvc) (st : State) : State :=
  set_heap (<[p := f]> (heap st)) st.

Definition new_loc (st : State) : loc := fresh (dom (heap st)).

Definition alloc (f : FuncSvc) (st : State) : loc * State :=
  (new_loc st, store (new_loc st) f st).

(** ** Outcomes of a call

    A call returns, or never returns because it waits on a channel nobody
    serves (the state it leaves behind stays visible to other callers), or
    dereferences nil and panics. *)
Inductive outcome (A : Type) :=
| Returns (a : A) (st : State)
| Blocks (st : State)
| Panics.
Arguments Returns {A} a st.
Arguments Blocks {A} st.
Arguments Panics {A}.

Definition M (A : Type) : Type := State → outcome A.

Definition ret {A} (a : A) : M A := fun st => Returns a st.

Definition bind {A B} (m : M A) (k : A → M B) : M B := fun st =>
  match m st with
  | Returns a st' => k a st'
  | Blocks st' => Blocks st'
  | Panics => Panics
  end.

Notation "'do' x <- m ;; k" := (bind m (fun x => k))
  (at level 10, x pattern, m at level 99, k at level 200,
   format "'[v' 'do'  x  <-  m  ;; '/' k ']'").

Definition panic {A} : M A := fun _ => Panics.
Definition modify (f : State → State) : M unit := fun st => Returns tt (f st).
Definition Now : M Z := fun st => Returns (clock st) st.

(** [crd.CacheKey(m)] on a pointer: nil panics. *)
Definition CacheKeyPtr (m : option ObjectMeta) : M string :=
  match m with
  | Some m => ret (CacheKey m)
  | None => panic
  end.

(** [m.F] through a pointer to the function's metadata. *)
Definition field {A} (F : ObjectMeta → A) (m : option ObjectMeta) : M A :=
  match m with
  | Some m => ret (F m)
  | None => panic
  end.

Definition get {A} (F : State → A) : M A := fun st => Returns (F st) st.

(** [&v] of a local that escapes, and [c := *p; &c]. *)
Definition addr_of (f : FuncSvc) : M loc := fun st =>
  let '(p, st') := alloc f st in Returns p st'.

Definition copy (p : loc) : M loc := fun st =>
  let '(q, st') := alloc (deref st p) st in Returns q st'.

Definition set_Atime (p : loc) (t : Z) : M unit :=
  modify (fun st => store p (with_Atime t (deref st p)) st).

Definition set_Ctime (p : loc) (t : Z) : M unit :=
  modify (fun st => store p (with_Ctime t (deref st p)) st).

(** ** The serializer *)

Inductive fscRequestType := TOUCH | LISTOLD | LOG | LISTOLDPOOL.

(** A request; its response channel is the caller waiting for the answer. *)
Record fscRequest := {
  requestType : fscRequestType;
  address : string;
  age : Z
}.

Record fscResponse := {
  objects : list loc;
  resp_error : option error
}.

Definition _touchByAddress (address : string) : M (option error) :=
  do mI <- get (fun st => cache.Get (byAddress st) address);;
  match mI with
  | inr err => ret (Some err)
  | inl m =>
    do fsvcI <- get (fun st => cache.Get (byFunction st) (CacheKey m));;
    match fsvcI with
    | inr err => ret (Some err)
    | inl fsvc =>
      do now <- Now;;
      do _ <- set_Atime fsvc now;;
      ret None
    end
  end.

(** The loop of the LISTOLD case over the copy of [byFunctionUID]: [inr]
    is the lookup error at which the loop is left. *)
Fixpoint listOldScan (st : State) (age : Z) (fscs : list (string * ObjectMeta))
    (funcObjects : list loc) : list loc + error :=
  match fscs with
  | [] => inl funcObjects
  | (_, mI) :: rest =>
    match cache.Get (byFunction st) (CacheKey mI) with
    | inr err => inr err
    | inl fsvc =>
      if Time.Since (clock st) (Atime (deref st fsvc)) >? age
      then listOldScan st age rest (funcObjects ++ [fsvc])
      else listOldScan st age rest funcObjects
    end
  end.

(** The characters [\t], [\n] and [-] of the format strings. *)
Definition dash : Ascii.ascii := Ascii.ascii_of_nat 45.
Definition tab : string := String (Ascii.ascii_of_nat 9) "".
Definition newline : string := String (Ascii.ascii_of_nat 10) "".

(** The lines of the LOG case: one per Kubernetes object of each record. *)
Definition logInfo (st : State) (funcCopy : list (string * loc)) : list string :=
  flat_map (fun '(key, fsvc) =>
    map (fun kubeObj => key ++ tab ++ Kind kubeObj ++ tab ++ RefName kubeObj)
        (KubernetesObjects (deref st fsvc))) funcCopy.

(** Modelled from the spec: [ListAvailableValue] of the pool cache returns
    every entry, across all groups, whose [activeRequests] is zero. *)
Definition ListAvailableValue (pool : gmap string funcSvcGroup) : list loc :=
  flat_map (fun '(_, g) =>
    map (fun '(_, e) => val e)
        (List.filter (fun '(_, e) => activeRequests e =? 0) (map_to_list (svcs g))))
    (map_to_list pool).

Definition older_than (st : State) (age : Z) (fsvc : loc) : bool :=
  Time.Since (clock st) (Atime (deref st fsvc)) >? age.

(** One turn of the loop of [service] on the request received.  [None] is
    the [return] out of the loop: no response is sent and the goroutine
    ends. *)
Definition service_turn (req : fscRequest) (st : State)
    : option fscResponse * State :=
  match requestType req with
  | TOUCH =>
    match _touchByAddress (address req) st with
    | Returns e st' => (Some {| objects := []; resp_error := e |}, st')
    | Blocks st' => (None, st')
    | Panics => (None, st)
    end
  | LISTOLD =>
    match listOldScan st (age req) (cache.Copy (byFunctionUID st)) [] with
    | inr err => (None, log "error" "error while getting service" [] (Some err) st)
    | inl funcObjects => (Some {| objects := funcObjects; resp_error := None |}, st)
    end
  | LOG =>
    let st1 := log "info" "dumping function service cache" [] None st in
    let funcCopy := cache.Copy (byFunction st1) in
    let info := logInfo st1 funcCopy in
    (Some {| objects := []; resp_error := None |},
     log "info" "function service cache"
         (("item_count:" ++ pretty (Z.of_nat (length funcCopy))) :: info) None st1)
  | LISTOLDPOOL =>
    let fscs := ListAvailableValue (connFunctionCache st) in
    (Some {| objects := List.filter (older_than st (age req)) fscs;
             resp_error := None |}, st)
  end.

(** A caller's round trip: send on [requestChannel], receive on the
    response channel.  Both channels are unbuffered, so the caller waits
    for ever once the goroutine of [service] has ended, and also when it
    ends on this very request. *)
Definition request (req : fscRequest) : M fscResponse := fun st =>
  if serving st then
    match service_turn req st with
    | (Some resp, st') => Returns resp st'
    | (None, st') => Blocks (set_serving false st')
    end
  else Blocks st.

Definition TouchByAddress (address : string) : M (option error) :=
  do resp <- request {| requestType := TOUCH; address := address; age := 0 |};;
  ret (resp_error resp).

Definition ListOld (age : Z) : M (list loc * option error) :=
  do resp <- request {| requestType := LISTOLD; address := ""; age := age |};;
  ret (objects resp, resp_error resp).

Definition ListOldForPool (age : Z) : M (list loc * option error) :=
  do resp <- request {| requestType := LISTOLDPOOL; address := ""; age := age |};;
  ret (objects resp, resp_error resp).

Definition Log : M unit :=
  do _ <- modify (log "info" "--- FunctionService Cache Contents" [] None);;
  do _ <- request {| requestType := LOG; address := ""; age := 0 |};;
  modify (log "info" "--- FunctionService Cache Contents End" [] None).

(** ** Pool operations used by the cache *)

Definition with_svcs (s : gmap string funcSvcInfo) (g : funcSvcGroup) : funcSvcGroup :=
  {| svcs := s; queue := queue g; svcWaiting := svcWaiting g |}.

Definition group_of (st : State) (key : string) : funcSvcGroup :=
  default NewFuncSvcGroup (connFunctionCache st !! key).

Definition set_group (key : string) (g : funcSvcGroup) (st : State) : State :=
  set_pool (<[key := g]> (connFunctionCache st)) st.

(** Modelled from the spec: [SetSvcValue] inserts or updates the entry of
    [(key, address)] with the record and its CPU limit; a promised
    specialisation is counted off [svcWaiting], and the waiter at the head
    of the queue, if any, is taken out and handed the entry. *)
Definition SetSvcValue (key address : string) (value : loc) (limit : Quantity)
    (requestsPerPod : Z) : M unit := fun st =>
  let g := group_of st key in
  let entry :=
    match svcs g !! address with
    | Some e => {| val := value; activeRequests := activeRequests e;
                   currentCPUUsage := currentCPUUsage e; cpuLimit := limit |}
    | None => {| val := value; activeRequests := 0;
                 currentCPUUsage := {| QuantityString := "0" |}; cpuLimit := limit |}
    end in
  let g' :=
    {| svcs := <[address := entry]> (svcs g);
       queue := tail (queue g);
       svcWaiting := if 0 <? svcWaiting g then svcWaiting g - 1 else svcWaiting g |} in
  Returns tt (set_group key g' st).

(** Modelled from the spec: [GetSvcValue] looks for an entry with fewer
    than [requestsPerPod] active requests; if there is one its count goes
    up, its [Atime] is refreshed and a copy is returned.  Otherwise, with
    room under [concurrency] it answers NotFound and counts one more
    promised specialisation; without room the caller joins the queue and
    waits. *)
Definition GetSvcValue (key : string) (requestsPerPod concurrency : Z)
    : M (option loc * option error) := fun st =>
  let g := group_of st key in
  match List.find (fun '(_, e) => activeRequests e <? requestsPerPod)
                  (map_to_list (svcs g)) with
  | Some (addr, e) =>
    let e' := {| val := val e; activeRequests := activeRequests e + 1;
                 currentCPUUsage := currentCPUUsage e; cpuLimit := cpuLimit e |} in
    let st1 := set_group key (with_svcs (<[addr := e']> (svcs g)) g) st in
    (do _ <- set_Atime (val e) (clock st);;
     do c <- copy (val e);;
     ret (Some c, None)) st1
  | None =>
    if Z.of_nat (size (svcs g)) + svcWaiting g <? concurrency then
      Returns (None, Some (MakeError ErrorNotFound "function service not found"))
        (set_group key {| svcs := svcs g; queue := queue g;
                          svcWaiting := svcWaiting g + 1 |} st)
    else
      Blocks (set_group key {| svcs := svcs g;
                               queue := queue g ++ [length (queue g)];
                               svcWaiting := svcWaiting g |} st)
  end.

(** ** Direct operations *)

(** [GetByFunction] *)
Definition GetByFunction (m : option ObjectMeta) : M (option loc * option error) :=
  do key <- CacheKeyPtr m;;
  do fsvcI <- get (fun st => cache.Get (byFunction st) key);;
  match fsvcI with
  | inr err => ret (None, Some err)
  | inl fsvc =>
    do now <- Now;;
    do _ <- set_Atime fsvc now;;
    do fsvcCopy <- copy fsvc;;
    ret (Some fsvcCopy, None)
  end.

(** [GetFuncSvc] *)
Definition GetFuncSvc (m : option ObjectMeta) (requestsPerPod concurrency : Z)
    : M (option loc * option error) :=
  do key <- CacheKeyPtr m;;
  do r <- GetSvcValue key requestsPerPod concurrency;;
  match r with
  | (_, Some err) =>
    do _ <- modify (log "info" "Not found in Cache" [] None);;
    ret (None, Some err)
  | (None, None) => panic
  | (Some fsvc, None) =>
    do now <- Now;;
    do _ <- set_Atime fsvc now;;
    do fsvcCopy <- copy fsvc;;
    ret (Some fsvcCopy, None)
  end.

(** [GetByFunctionUID] *)
Definition GetByFunctionUID (uid : string) : M (option loc * option error) :=
  do mI <- get (fun st => cache.Get (byFunctionUID st) uid);;
  match mI with
  | inr err => ret (None, Some err)
  | inl m =>
    do fsvcI <- get (fun st => cache.Get (byFunction st) (CacheKey m));;
    match fsvcI with
    | inr err => ret (None, Some err)
    | inl fsvc =>
      do now <- Now;;
      do _ <- set_Atime fsvc now;;
      do fsvcCopy <- copy fsvc;;
      ret (Some fsvcCopy, None)
    end
  end.

(** [AddFunc]: the parameter is a copy of the caller's record; its address
    goes into the pool and the two times are set through it afterwards. *)
Definition AddFunc (fsvc : FuncSvc) (requestsPerPod : Z) : M unit :=
  do key <- CacheKeyPtr (Function fsvc);;
  do p <- addr_of fsvc;;
  do _ <- SetSvcValue key (Address fsvc) p (CPULimit fsvc) requestsPerPod;;
  do now <- Now;;
  do _ <- set_Ctime p now;;
  set_Atime p now.

(** The three [Set] calls of [Add], on the index they address. *)
Definition byFunction_Set (key : string) (p : loc) : M (option loc * option error) :=
  fun st =>
    let '(existing, err, c) := cache.Set_ (byFunction st) key p in
    Returns (existing, err) (set_byFunction c st).

Definition byAddress_Set (key : string) (m : ObjectMeta) : M (option error) :=
  fun st =>
    let '(_, err, c) := cache.Set_ (byAddress st) key m in
    Returns err (set_byAddress c st).

Definition byFunctionUID_Set (key : string) (m : ObjectMeta) : M (option error) :=
  fun st =>
    let '(_, err, c) := cache.Set_ (byFunctionUID st) key m in
    Returns err (set_byFunctionUID c st).

(** [Add] *)
Definition Add (fsvc : FuncSvc) : M (option loc * option error) :=
  do key <- CacheKeyPtr (Function fsvc);;
  do p <- addr_of fsvc;;
  do r <- byFunction_Set key p;;
  match r with
  | (existing, Some err) =>
    if IsNameExistError err then
      match existing with
      | None => panic
      | Some f =>
        do a <- get (fun st => Address (deref st f));;
        do err2 <- TouchByAddress a;;
        match err2 with
        | Some err2 => ret (None, Some err2)
        | None =>
          do fCopy <- copy f;;
          ret (Some fCopy, None)
        end
      end
    else ret (None, Some err)
  | (_, None) =>
    do now <- Now;;
    do _ <- set_Ctime p now;;
    do _ <- set_Atime p now;;
    do m <- field id (Function fsvc);;
    do err <- byAddress_Set (Address fsvc) m;;
    match err with
    | Some err =>
      if IsNameExistError err then ret (None, None)
      else ret (None, Some (Wrap err "error caching fsvc"))
    | None =>
      do err <- byFunctionUID_Set (UID m) m;;
      match err with
      | Some err =>
        if IsNameExistError err then ret (None, None)
        else ret (None, Some (Wrap err "error caching fsvc by function uid"))
      | None => ret (None, None)
      end
    end
  end.

(** A [Delete] on one index, with the error logged as [DeleteEntry] does. *)
Definition log_delete_error (name : string) (err : option error) : M unit :=
  match err with
  | Some e => modify (log "error" "error deleting function service"
                          ["function:" ++ name] (Some e))
  | None => ret tt
  end.

(** What the logger receives for the error, if any, of one removal. *)
Definition removal_log (name : string) (err : option error) : list LogEntry :=
  match err with
  | Some e => [ {| level := "error"; message := "error deleting function service";
                   fields := ["function:" ++ name]; logged_error := Some e |} ]
  | None => []
  end.

Section Removal.
Variable faults : string → bool → option error.

Definition byFunction_Delete (key : string) : M (option error) := fun st =>
  let '(err, c) := cache.Delete faults (byFunction st) key in
  Returns err (set_byFunction c st).

Definition byAddress_Delete (key : string) : M (option error) := fun st =>
  let '(err, c) := cache.Delete faults (byAddress st) key in
  Returns err (set_byAddress c st).

Definition byFunctionUID_Delete (key : string) : M (option error) := fun st =>
  let '(err, c) := cache.Delete faults (byFunctionUID st) key in
  Returns err (set_byFunctionUID c st).

(** [DeleteEntry]: it has no result; what it does shows in the state. *)
Definition DeleteEntry (fsvc : loc) : M unit :=
  do f <- get (fun st => deref st fsvc);;
  do key <- CacheKeyPtr (Function f);;
  do err <- byFunction_Delete key;;
  do name <- field Name (Function f);;
  do _ <- log_delete_error name err;;
  do err <- byAddress_Delete (Address f);;
  do _ <- log_delete_error name err;;
  do uid <- field UID (Function f);;
  do err <- byFunctionUID_Delete uid;;
  do _ <- log_delete_error name err;;
  do namespace <- field Namespace (Function f);;
  modify (Observe name namespace (Time.Seconds (Time.Sub (Atime f) (Ctime f)))).

(** [DeleteOld] *)
Definition DeleteOld (fsvc : loc) (minAge : Z) : M (bool * option error) :=
  do now <- Now;;
  do atime <- get (fun st => Atime (deref st fsvc));;
  if Time.Since now atime <? minAge then ret (false, None)
  else
    do _ <- DeleteEntry fsvc;;
    ret (true, None).
End Removal.

(** ** Telemetry attributes *)

Record KeyValue := { Key : string; Value : string }.

(** [GetAttributesForFuncSvc]; the argument is a pointer, nil as [None]. *)
Definition GetAttributesForFuncSvc (fsvc : option FuncSvc) : list KeyValue :=
  match fsvc with
  | None => []
  | Some fsvc =>
    let attrs := [] in
    let attrs :=
      match Function fsvc with
      | Some fn =>
        (attrs ++ [ {| Key := "function-name"; Value := Name fn |};
                    {| Key := "function-namespace"; Value := Namespace fn |} ])%list
      | None => attrs
      end in
    let attrs :=
      match Env fsvc with
      | Some env =>
        (attrs ++ [ {| Key := "environment-name"; Value := Name (Metadata env) |};
                    {| Key := "environment-namespace";
                       Value := Namespace (Metadata env) |} ])%list
      | None => attrs
      end in
    let attrs :=
      if bool_decide (Address fsvc ≠ "")
      then (attrs ++ [ {| Key := "address"; Value := Address fsvc |} ])%list
      else attrs in
    attrs
  end.

(** ** The snapshot writer *)

(** A UUID is 128 bits; [uid.String()] prints them as 32 lower-case hex
    digits in groups of 8, 4, 4, 4 and 12 separated by dashes. *)
Definition hexdigit (n : Z) : Ascii.ascii :=
  Ascii.ascii_of_nat (Z.to_nat (if n <? 10 then 48 + n else 87 + n)).

(** The [k]-th hex digit of [u], counted from the most significant one. *)
Definition nibble (u : Z) (k : Z) : Z :=
  Z.land (Z.shiftr u (4 * (31 - k))) 15.

Fixpoint hexdigits (u : Z) (from : Z) (count : nat) : string :=
  match count with
  | O => ""
  | S n => String (hexdigit (nibble u from)) (hexdigits u (from + 1) n)
  end.

Definition uuid_String (u : Z) : string :=
  hexdigits u 0 8 ++ "-" ++ hexdigits u 8 4 ++ "-" ++ hexdigits u 12 4 ++ "-"
  ++ hexdigits u 16 4 ++ "-" ++ hexdigits u 20 12.

(** [strings.Split(s, "-")[0]]: what precedes the first dash. *)
Fixpoint first_field (s : string) : string :=
  match s with
  | EmptyString => ""
  | String c rest =>
    if Ascii.eqb c dash then "" else String c (first_field rest)
  end.

Definition path : string := "/tmp".
Definition fileName : string := "dump".

(** The file system the dump is written to: the directories there are and
    the contents of the files. *)
Record FileSystem := {
  dirs : gset string;
  files : gmap string string
}.

(** What the run-time environment answers to one call of [dumpData]: the
    UUID drawn (or the error of the generator), and the errors, if any, of
    [os.Stat] other than not-exist, of [os.Mkdir] and of [os.Create]. *)
Record Environ := {
  NewV4 : Z + string;
  stat_error : option string;
  mkdir_error : option string;
  create_error : option string
}.

(** [os.Create] makes the file or truncates the one there is; the lines
    then go through the buffered writer, each followed by a newline. *)
Definition written (data : list string) : string :=
  fold_right (fun str acc => str ++ newline ++ acc) "" data.

Definition dump_file (uid : Z) : string :=
  path ++ "/" ++ fileName ++ "_" ++ first_field (uuid_String uid) ++ ".txt".

Definition writeData (env : Environ) (data : list string) (fs : FileSystem)
    : option error * FileSystem :=
  match NewV4 env with
  | inr err =>
    (Some (MakeError ErrorInternal ("error while generating UID " ++ err)), fs)
  | inl uid =>
    match create_error env with
    | Some err =>
      (Some (MakeError ErrorInternal ("error while creating file " ++ err)), fs)
    | None =>
      (None, {| dirs := dirs fs;
                files := <[dump_file uid := written data]> (files fs) |})
    end
  end.

(** [dumpData] *)
Definition dumpData (env : Environ) (data : list string) (fs : FileSystem)
    : M (option error * FileSystem) :=
  do _ <- modify (log "debug" "started dumping data" [] None);;
  match stat_error env with
  | Some err =>
    ret (Some (MakeError ErrorInternal ("error while dumping data " ++ err)), fs)
  | None =>
    if bool_decide (path ∈ dirs fs) then ret (writeData env data fs)
    else
      match mkdir_error env with
      | Some err =>
        ret (Some (MakeError ErrorInternal ("error while creating directory " ++ err)), fs)
      | None =>
        ret (writeData env data {| dirs := {[ path ]} ∪ dirs fs; files := files fs |})
      end
  end.

(** The inner loop of [DumpFnSvcCache] over the entries of one group;
    [None] is the nil dereference of [fnSvc.val.Function]. *)
Fixpoint groupData (st : State) (data : string)
    (entries : list (string * funcSvcInfo)) : option string :=
  match entries with
  | [] => Some data
  | (addr, fnSvc) :: rest =>
    match Function (deref st (val fnSvc)) with
    | None => None
    | Some fn =>
      groupData st
        (data ++ tab ++ "function_name:" ++ Name fn
              ++ tab ++ "fn_svc_address:" ++ addr
              ++ tab ++ "current_cpu_usage:" ++ QuantityString (currentCPUUsage fnSvc)
              ++ tab ++ "cpu_limit:" ++ QuantityString (cpuLimit fnSvc))
        rest
    end
  end.

(** The outer loop: one string per group. *)
Fixpoint dumpInfo (st : State) (fnSvcGroup : list (string * funcSvcGroup))
    : option (list string) :=
  match fnSvcGroup with
  | [] => Some []
  | (_, fnSvcGrp) :: rest =>
    let data := "svc_waiting:" ++ pretty (svcWaiting fnSvcGrp) ++ tab
                ++ "queue_len:" ++ pretty (Z.of_nat (length (queue fnSvcGrp))) in
    match groupData st data (map_to_list (svcs fnSvcGrp)) with
    | None => None
    | Some data =>
      match dumpInfo st rest with
      | None => None
      | Some info => Some (data :: info)
      end
    end
  end.

(** Modelled from the spec: [GetFnSvcGroup] returns a snapshot of the groups
    of the pool cache. *)
Definition GetFnSvcGroup (st : State) : list (string * funcSvcGroup) :=
  map_to_list (connFunctionCache st).

(** [DumpFnSvcCache] *)
Definition DumpFnSvcCache (env : Environ) (fs : FileSystem)
    : M (option error * FileSystem) :=
  do _ <- modify (log "info" "dumping function service group cache" [] None);;
  do fnSvcGroup <- get GetFnSvcGroup;;
  if bool_decide (length fnSvcGroup = 0%nat) then
    ret (Some (MakeError ErrorNotFound "function service not found"), fs)
  else
    do _ <- modify (log "debug" "dump func svc" [] None);;
    do info <- (fun st => match dumpInfo st fnSvcGroup with
                          | Some info => Returns info st
                          | None => Panics
                          end);;
    do _ <- modify (log "debug" "dump data" [] None);;
    do r <- dumpData env info fs;;
    match r with
    | (Some err, fs') =>
      do _ <- modify (log "error" "error while dumping function service group cache"
                          [] (Some err));;
      ret (Some err, fs')
    | (None, fs') =>
      do _ <- modify (log "info" "dumped function service group cache" [] None);;
      ret (None, fs')
    end.

(** ** Sequences of calls *)

(** The calls that create or read records.  Each comes with the time that
    went by on the clock since the previous one. *)
Inductive Call :=
| CallAdd (fsvc : FuncSvc)
| CallAddFunc (fsvc : FuncSvc) (requestsPerPod : Z)
| CallGetByFunction (m : option ObjectMeta)
| CallGetByFunctionUID (uid : string)
| CallTouchByAddress (address : string)
| CallGetFuncSvc (m : option ObjectMeta) (requestsPerPod concurrency : Z).

(** The state a call leaves to the calls after it: a caller that waits
    leaves its state behind, a panic ends the program. *)
Definition after {A} (o : outcome A) : option State :=
  match o with
  | Returns _ st => Some st
  | Blocks st => Some st
  | Panics => None
  end.

Definition perform (c : Call) (st : State) : option State :=
  match c with
  | CallAdd fsvc => after (Add fsvc st)
  | CallAddFunc fsvc rpp => after (AddFunc fsvc rpp st)
  | CallGetByFunction m => after (GetByFunction m st)
  | CallGetByFunctionUID uid => after (GetByFunctionUID uid st)
  | CallTouchByAddress a => after (TouchByAddress a st)
  | CallGetFuncSvc m rpp conc => after (GetFuncSvc m rpp conc st)
  end.

Definition tick (d : Z) (st : State) : State := set_clock (clock st + d) st.

Fixpoint run (calls : list (Z * Call)) (st : State) : option State :=
  match calls with
  | [] => Some st
  | (d, c) :: rest =>
    match perform c (tick d st) with
    | Some st' => run rest st'
    | None => None
    end
  end.

(** The records the cache holds: those [byFunction] points to and those of
    the entries of the pool. *)
Definition cached (st : State) (p : loc) : Prop :=
  (∃ key, byFunction st !! key = Some p) ∨
  (∃ key g addr e, connFunctionCache st !! key = Some g ∧
                   svcs g !! addr = Some e ∧ val e = p).

(** The clock never runs backwards. *)
Definition monotone (calls : list (Z * Call)) : Prop :=
  Forall (fun dc => 0 ≤ dc.1) calls.

(** ** What the attributes are, in the words of the specification

    The value an attribute key stands for, absent when the sub-field it
    comes from is nil or empty. *)
Definition attribute_of (fsvc : FuncSvc) (key : string) : option string :=
  if decide (key = "function-name") then Name <$> Function fsvc
  else if decide (key = "function-namespace") then Namespace <$> Function fsvc
  else if decide (key = "environment-name") then (Name ∘ Metadata) <$> Env fsvc
  else if decide (key = "environment-namespace") then (Namespace ∘ Metadata) <$> Env fsvc
  else if decide (key = "address") then
    (if decide (Address fsvc = "") then None else Some (Address fsvc))
  else None.

(** The record a lookup hands to its caller. *)
Definition returned (o : outcome (option loc * option error)) : option FuncSvc :=
  match o with
  | Returns (Some q, None) st => Some (deref st q)
  | _ => None
  end.

Definition is_hex (c : Ascii.ascii) : Prop :=
  let n := Z.of_nat (Ascii.nat_of_ascii c) in
  (48 ≤ n ≤ 57) ∨ (97 ≤ n ≤ 102).

(** What both lookups do once the record [p] is found: refresh its
    [Atime], copy it, return the copy. *)
Definition found (p : loc) : M (option loc * option error) :=
  do now <- Now;;
  do _ <- set_Atime p now;;
  do fsvcCopy <- copy p;;
  ret (Some fsvcCopy, None).

(** ** Independence of what a lookup returns, in the words of the
    specification

    The lookup refreshes the [Atime] of the cached record [p] and returns a
    record [q] that is new and equal to it; whatever the caller then writes
    into [q], and however much later, the next lookup returns what it would
    have returned without the write, and the cached record is as it was. *)
Definition independent_copy (lookup : M (option loc * option error))
    (st : State) (p : loc) : Prop :=
  ∃ q st1, lookup st = Returns (Some q, None) st1 ∧
    heap st !! q = None ∧ q ≠ p ∧
    deref st1 p = with_Atime (clock st) (deref st p) ∧
    deref st1 q = deref st1 p ∧
    ∀ (written : FuncSvc) (later : Z),
      deref (store q written st1) p = deref st1 p ∧
      returned (lookup (tick later (store q written st1)))
        = returned (lookup (tick later st1)) ∧
      returned (lookup (tick later st1))
        = Some (with_Atime (clock st + later) (deref st p)).

(** ** The invariant on times

    Every record the cache holds is allocated, was not accessed before it
    was created, and was not created in the future. *)
Definition times_ordered (st : State) : Prop :=
  ∀ p, cached st p →
    ∃ f, heap st !! p = Some f ∧ Ctime f ≤ Atime f ∧ Ctime f ≤ clock st.

(** What a call may do to the records there are, at clock [c]: keep them
    allocated, keep their [Ctime], and keep their [Atime] or set it to
    [c]. *)
Definition heap_ok (c : Z) (h h' : gmap loc FuncSvc) : Prop :=
  ∀ p f, h !! p = Some f →
    ∃ f', h' !! p = Some f' ∧ Ctime f' = Ctime f ∧ (Atime f' = Atime f ∨ Atime f' = c).

(** A step that brings no new record into the cache. *)
Definition quiet (c : Z) (st st' : State) : Prop :=
  clock st' = clock st ∧ heap_ok c (heap st) (heap st') ∧
  ∀ p, cached st' p → cached st p.

(** A computation all of whose steps at clock [c] are quiet, whether it
    returns or is left waiting. *)
Definition preserves {A} (c : Z) (m : M A) : Prop :=
  ∀ st st', clock st = c → after (m st) = Some st' → quiet c st st'.

(** ** A running example

    The cache of the boundary scenarios: a record for function f1 at
    10.0.0.1:8080 with UID u1, added at time 0. *)
Module Scenario.

Definition meta (name uid version : string) : ObjectMeta :=
  {| Name := name; Namespace := "default"; UID := uid;
     ResourceVersion := version |}.

Definition svc (name uid version addr : string) : FuncSvc :=
  {| SvcName := name; Function := Some (meta name uid version); Env := None;
     Address := addr; KubernetesObjects := []; Executor := "poolmgr";
     CPULimit := {| QuantityString := "100m" |}; Ctime := 0; Atime := 0 |}.

Definition f1 : FuncSvc := svc "f1" "u1" "1" "10.0.0.1:8080".

Definition empty : State := MakeFunctionServiceCache 0.

(** The state a call leaves, for building states by calls. *)
Definition next {A} (m : M A) (st : State) : State :=
  default st (after (m st)).

Definition with_f1 : State := next (Add f1) empty.

(** A removal that reports NotFound for a key that was not bound, and one
    that never reports anything. *)
Definition report_missing (key : string) (bound : bool) : option error :=
  if bound then None else Some (MakeError ErrorNotFound "key not found").

Definition no_faults (key : string) (bound : bool) : option error := None.

Definition second : Z := 1000000000.

Definition without_f1 : State := next (DeleteEntry report_missing 0%nat) with_f1.

(** f1 after the first of the three removals of [DeleteEntry]: the UID
    index still refers to a function key that [byFunction] has lost. *)
Definition dangling : State := next (byFunction_Delete no_faults "default_f1_1") with_f1.

Definition stopped : State := next (ListOld (60 * second)) dangling.

(** A second function specialised at the address of f1. *)
Definition f2 : FuncSvc := svc "f2" "u2" "1" "10.0.0.1:8080".

Definition with_f1_f2 : State := next (Add f2) with_f1.

(** f1 removed again: f2 stays under its function key, but the address
    they shared is gone from [byAddress]. *)
Definition orphaned : State := next (DeleteEntry no_faults 0%nat) with_f1_f2.

(** The pool with one group, that of f1, and a dump directory that
    already has a dump file under the name the next UUID leads to. *)
Definition pooled : State := next (AddFunc f1 1) empty.

Definition uuid : Z := 0x718b5b6e9f0a4c3d8e2f0123456789ab.

Definition calm : Environ :=
  {| NewV4 := inl uuid; stat_error := None; mkdir_error := None;
     create_error := None |}.

Definition tmp : FileSystem :=
  {| dirs := {[ "/tmp" ]};
     files := {[ "/tmp/dump_718b5b6e.txt" := "earlier dump" ]} |}.

(** A day in the life of the cache. *)
Definition calls : list (Z * Call) :=
  [ (0, CallAdd f1);
    (5 * second, CallGetByFunction (Some (meta "f1" "u1" "1")));
    (3 * second, CallAddFunc f1 1);
    (2 * second, CallGetFuncSvc (Some (meta "f1" "u1" "1")) 1 1);
    (0, CallAdd f1);
    (1 * second, CallTouchByAddress "10.0.0.1:8080");
    (4 * second, CallGetByFunctionUID "u1") ].

Definition busy : State := default empty (run calls empty).

End Scenario.

(** ** Steps that leave the indices alone *)

Definition same_indices (st st' : State) : Prop :=
  byFunction st' = byFunction st ∧ byAddress st' = byAddress st ∧
  byFunctionUID st' = byFunctionUID st ∧
  connFunctionCache st' = connFunctionCache st.

(** A computation that leaves the three indices and the pool as they are,
    whether it returns or is left waiting. *)
Definition keeps_indices {A} (m : M A) : Prop :=
  ∀ st st', after (m st) = Some st' → same_indices st st'.

(** ** Removal from the pool *)

(** Modelled from the spec: [DeleteValue] of the pool cache removes the
    entry of [(key, address)] and, when the group is left without entries
    and without waiters, the group; on an absent entry it does nothing and
    returns NotFound. *)
Definition DeleteValue (key address : string) : M (option error) := fun st =>
  match connFunctionCache st !! key with
  | None => Returns (Some (MakeError ErrorNotFound "value not found")) st
  | Some g =>
    match svcs g !! address with
    | None => Returns (Some (MakeError ErrorNotFound "value not found")) st
    | Some _ =>
      let left := delete address (svcs g) in
      if Nat.eqb (size left) 0 && Nat.eqb (length (queue g)) 0
      then Returns None (set_pool (delete key (connFunctionCache st)) st)
      else Returns None (set_group key (with_svcs left g) st)
    end
  end.

(** [DeleteFunctionSvc] *)
Definition DeleteFunctionSvc (fsvc : loc) : M unit :=
  do f <- get (fun st => deref st fsvc);;
  do key <- CacheKeyPtr (Function f);;
  do err <- DeleteValue key (Address f);;
  match err with
  | Some e =>
    do name <- field Name (Function f);;
    modify (log "error" "error deleting function service"
                ["function:" ++ name; "address:" ++ Address f] (Some e))
  | None => ret tt
  end.

(** [DeleteOldPoolCache] *)
Definition DeleteOldPoolCache (fsvc : loc) (minAge : Z) : M (bool * option error) :=
  do now <- Now;;
  do atime <- get (fun st => Atime (deref st fsvc));;
  if Time.Since now atime <? minAge then ret (false, None)
  else
    do _ <- DeleteFunctionSvc fsvc;;
    ret (true, None).

(** ** Reading a dump back *)

(** The lines of a text, each ended by a newline (what follows the last
    newline is a line of its own). *)
Fixpoint split_lines (s : string) : list string :=
  match s with
  | EmptyString => []
  | String c rest =>
    if Ascii.eqb c (Ascii.ascii_of_nat 10) then "" :: split_lines rest
    else match split_lines rest with
         | [] => [String c ""]
         | l :: ls => String c l :: ls
         end
  end.

Fixpoint has_newline (s : string) : bool :=
  match s with
  | EmptyString => false
  | String c rest => Ascii.eqb c (Ascii.ascii_of_nat 10) || has_newline rest
  end.

(** The 32 bits of a UUID that its first eight hex digits print. *)
Definition top32 (u : Z) : Z := Z.land (Z.shiftr u 96) (Z.ones 32).

(** * Package creation of the command line (pkg/fission-cli/cmd/package)

    [run] and [CreatePackage] of the create sub-command.  The flags come
    from the input; what the spec reader, the archive uploader, the
    cluster client and the random sources answer is given by a [World];
    what the command prints, uploads, saves and creates is collected in
    the order it happens. *)
Module package_create.

(** The flag keys the command reads. *)
Inductive Flag :=
| PkgName | HtName | SpecSave | SpecDry | PkgEnvironment | NamespacePackage
| PkgSrcArchive | PkgDeployArchive | PkgBuildCmd | PkgCode | PkgInsecure
| PkgDeployChecksum | PkgSrcChecksum | StreamLog.

(** [cli.Input] *)
Record Input := {
  String_ : Flag → string;
  Bool : Flag → bool;
  StringSlice : Flag → list string
}.

(** An argument of a format string: a flag key or a text. *)
Inductive Arg := AFlag (f : Flag) | AStr (s : string).

(** Error values: made by [errors.Errorf] (the format and its arguments,
    which may be the text of another error), wrapped by [errors.Wrap] or
    [fv1.AggregateValidationErrors], or handed back by a collaborator. *)
Inductive err :=
| Errorf (format : string) (args : list Arg)
| ErrorfOf (format : string) (cause : err)
| Wrapped (cause : err) (msg : string)
| AggregateValidationErrors (kind : string) (cause : err)
| External (msg : string).

Inductive BuildStatus := BuildStatusSucceeded | BuildStatusNone | BuildStatusPending.

(** [fv1.Archive] is opaque here: the zero value, or what [CreateArchive]
    made. *)
Inductive Archive := ZeroArchive | Uploaded (id : string).

Record EnvironmentReference := { EnvNamespace : string; EnvName : string }.

Record PackageSpec := {
  SpecEnvironment : EnvironmentReference;
  Source : Archive;
  Deployment : Archive;
  BuildCommand : string
}.

Record Package := {
  PkgMeta : ObjectMeta;
  Spec : PackageSpec;
  Status : BuildStatus;
  LastUpdateTimestamp : Z
}.

(** What [spec.ReadSpecs] returns, by the two methods used on it. *)
Record FissionResources := {
  ExistsInSpecs : EnvironmentReference → bool + err;
  SpecExists : Package → option Package
}.

(** The collaborators. *)
Record World := {
  GetResourceNamespace : Input → Flag → (string * string) + err;
  GetSpecDir : Input → string;
  GetSpecIgnore : Input → string;
  ReadSpecs : string → string → FissionResources + err;
  CreateArchive : list string → bool → bool → string → string → string → Archive + err;
  KubifyName : string → string;
  Base : string → string;
  NewLen : nat → string;                 (* the n-th draw of uniuri.NewLen(4) *)
  NewV4 : Z + err;
  UTCNow : Z;
  SpecDry_ : Package → option err;
  SpecSave_ : Package → string → option err;
  Packages_Create : string → Package → ObjectMeta + err;
  Pods_List : string → list string + err;   (* the names of the pods listed *)
  Stream : string → option err;
  Copy : string → option err
}.

(** The calls the command makes to the outside, in order: what it prints,
    the archives, dry runs, spec files and packages it asks for (whether
    or not the collaborator then succeeds), and the log streams it copies
    to the standard output once they are open. *)
Inductive Event :=
| Warn (format : string) (args : list Arg)
| Printf (format : string) (args : list Arg)
| Archived (files : list string) (noZip : bool)
| DryRun (pkg : Package)
| Saved (pkg : Package) (specFile : string)
| Created (namespace : string) (pkg : Package)
| Streamed (pod : string).

Record Cli := { out : list Event; draws : nat }.

Definition emit (e : Event) (s : Cli) : Cli :=
  {| out := out s ++ [e]; draws := draws s |}.

(** A step of a function body whose result type is [R]: go on with a
    value, return from the function, or panic. *)
Inductive step (R A : Type) :=
| Next (a : A) (s : Cli)
| Return (v : R) (s : Cli)
| Panicked (s : Cli).
Arguments Next {R A} a s.
Arguments Return {R A} v s.
Arguments Panicked {R A} s.

Definition F (R A : Type) : Type := Cli → step R A.

Definition pure {R A} (a : A) : F R A := fun s => Next a s.

Definition return_ {R A} (v : R) : F R A := fun s => Return v s.

Definition then_ {R A B} (m : F R A) (k : A → F R B) : F R B := fun s =>
  match m s with
  | Next a s' => k a s'
  | Return v s' => Return v s'
  | Panicked s' => Panicked s'
  end.

Notation "'go' x <- m ;; k" := (then_ m (fun x => k))
  (at level 10, x pattern, m at level 99, k at level 200).

Definition say {R} (e : Event) : F R unit := fun s => Next tt (emit e s).

Definition when {R} (b : bool) (m : F R unit) : F R unit :=
  if b then m else pure tt.

(** [uniuri.NewLen(4)]: the next draw. *)
Definition uniuri_NewLen {R} (w : World) : F R string := fun s =>
  Next (NewLen w (draws s)) {| out := out s; draws := S (draws s) |}.

(** [strings.ToLower] on the ASCII letters. *)
Definition lower (c : Ascii.ascii) : Ascii.ascii :=
  let n := Ascii.nat_of_ascii c in
  if (Nat.leb 65 n && Nat.leb n 90)%bool then Ascii.ascii_of_nat (n + 32) else c.

Fixpoint ToLower (s : string) : string :=
  match s with
  | EmptyString => EmptyString
  | String c rest => String (lower c) (ToLower rest)
  end.

Definition with_Deployment (a : Archive) (p : PackageSpec) : PackageSpec :=
  {| SpecEnvironment := SpecEnvironment p; Source := Source p; Deployment := a;
     BuildCommand := BuildCommand p |}.

Definition with_Source (a : Archive) (p : PackageSpec) : PackageSpec :=
  {| SpecEnvironment := SpecEnvironment p; Source := a; Deployment := Deployment p;
     BuildCommand := BuildCommand p |}.

Definition with_BuildCommand (c : string) (p : PackageSpec) : PackageSpec :=
  {| SpecEnvironment := SpecEnvironment p; Source := Source p;
     Deployment := Deployment p; BuildCommand := c |}.

Definition with_meta (m : ObjectMeta) (p : Package) : Package :=
  {| PkgMeta := m; Spec := Spec p; Status := Status p;
     LastUpdateTimestamp := LastUpdateTimestamp p |}.

Definition named (name namespace : string) : ObjectMeta :=
  {| Name := name; Namespace := namespace; UID := ""; ResourceVersion := "" |}.

Definition nonempty {A} (l : list A) : bool := Nat.ltb 0 (length l).

(** The name made up from the first archive file when none was given. *)
Definition made_up_name {R} (w : World) (pkgName : string) (files : list string)
    : F R string :=
  if Nat.eqb (String.length pkgName) 0 then
    go r <- uniuri_NewLen w ;;
    pure (KubifyName w (Base w (hd "" files) ++ "-" ++ r))
  else pure pkgName.

(** [CreatePackage]: the result is the pair of the metadata pointer and
    the error. *)
Definition CreatePackage (w : World) (input : Input)
    (pkgName pkgNamespace envName : string)
    (srcArchiveFiles deployArchiveFiles : list string)
    (buildcmd specDir specFile : string) (noZip : bool) (userProvidedNS : string)
    : F (option ObjectMeta * option err) (option ObjectMeta * option err) :=
  let insecure := Bool input PkgInsecure in
  let deployChecksum := String_ input PkgDeployChecksum in
  let srcChecksum := String_ input PkgSrcChecksum in
  let pkgSpec :=
    {| SpecEnvironment := {| EnvNamespace := pkgNamespace; EnvName := envName |};
       Source := ZeroArchive; Deployment := ZeroArchive; BuildCommand := "" |} in
  let pkgSpec :=
    if (Bool input SpecSave || Bool input SpecDry)%bool then
      {| SpecEnvironment := {| EnvNamespace := userProvidedNS; EnvName := envName |};
         Source := ZeroArchive; Deployment := ZeroArchive; BuildCommand := "" |}
    else pkgSpec in
  let pkgStatus := BuildStatusSucceeded in
  go (pkgSpec, pkgStatus, pkgName) <-
    (if nonempty deployArchiveFiles then
       let pkgStatus :=
         if Nat.ltb 0 (String.length specFile) then BuildStatusNone else pkgStatus in
       go _ <- say (Archived deployArchiveFiles noZip) ;;
       match CreateArchive w deployArchiveFiles noZip insecure deployChecksum
                           specDir specFile with
       | inr e => return_ (None, Some (Wrapped e "error creating source archive"))
       | inl deployment =>
         go pkgName <- made_up_name w pkgName deployArchiveFiles ;;
         pure (with_Deployment deployment pkgSpec, pkgStatus, pkgName)
       end
     else pure (pkgSpec, pkgStatus, pkgName)) ;;
  go (pkgSpec, pkgStatus, pkgName) <-
    (if nonempty srcArchiveFiles then
       go _ <- say (Archived srcArchiveFiles false) ;;
       match CreateArchive w srcArchiveFiles false insecure srcChecksum
                           specDir specFile with
       | inr e => return_ (None, Some (Wrapped e "error creating deploy archive"))
       | inl source =>
         go pkgName <- made_up_name w pkgName srcArchiveFiles ;;
         pure (with_Source source pkgSpec, BuildStatusPending, pkgName)
       end
     else pure (pkgSpec, pkgStatus, pkgName)) ;;
  let pkgSpec :=
    if Nat.ltb 0 (String.length buildcmd) then with_BuildCommand buildcmd pkgSpec
    else pkgSpec in
  go pkgName <-
    (if Nat.eqb (String.length pkgName) 0 then
       match NewV4 w with
       | inr e => return_ (None, Some (Wrapped e "error generating UUID"))
       | inl id => pure (ToLower (uuid_String id))
       end
     else pure pkgName) ;;
  let pkg :=
    {| PkgMeta := named pkgName userProvidedNS; Spec := pkgSpec;
       Status := pkgStatus; LastUpdateTimestamp := UTCNow w |} in
  if Bool input SpecDry then
    go _ <- say (DryRun pkg) ;;
    return_ (Some (PkgMeta pkg), SpecDry_ w pkg)
  else
    go pkg <-
      (if Bool input SpecSave then
         match ReadSpecs w (GetSpecDir w input) (GetSpecIgnore w input) with
         | inr e => return_ (None, Some (Wrapped e "error reading specs"))
         | inl fr =>
           match SpecExists fr pkg with
           | Some obj =>
             go _ <- say (Printf "Re-using previously created package %v\n"
                                   [AStr (Name (PkgMeta obj))]) ;;
             return_ (Some (PkgMeta obj), None)
           | None =>
             go _ <- say (Saved pkg specFile) ;;
             match SpecSave_ w pkg specFile with
             | Some e => return_ (None, Some (Wrapped e "error saving package spec"))
             | None => return_ (Some (PkgMeta pkg), None)
             end
           end
         end
       else if negb (Bool input SpecSave) then
         let pkg := with_meta (named pkgName pkgNamespace) pkg in
         go _ <- say (Created pkgNamespace pkg) ;;
         match Packages_Create w pkgNamespace pkg with
         | inr e => return_ (None, Some (Wrapped e "error creating package"))
         | inl pkgMetadata =>
           go _ <- say (Printf "Package '%v' created\n" [AStr (Name pkgMetadata)]) ;;
           pure (with_meta pkgMetadata pkg)
         end
       else pure pkg) ;;
    if Bool input StreamLog then
      let ns := "fission" in
      match Pods_List w ns with
      | inr e => return_ (Some (PkgMeta pkg), Some e)
      | inl items =>
        match items with
        | [] => fun s => Panicked s          (* pod.Items[0]: index out of range *)
        | pod :: _ =>
          match Stream w pod with
          | Some e =>
            return_ (Some (PkgMeta pkg), Some (ErrorfOf "error in opening stream %s" e))
          | None =>
            go _ <- say (Streamed pod) ;;
            match Copy w pod with
            | Some e =>
              return_ (Some (PkgMeta pkg),
                       Some (Errorf "error in copy information from podLogs to buf" []))
            | None => return_ (Some (PkgMeta pkg), None)
            end
          end
        end
      end
    else return_ (Some (PkgMeta pkg), None).

(** A call: what a function returns, or its panic. *)
Inductive result (R : Type) := Returned (v : R) (s : Cli) | Crashed (s : Cli).
Arguments Returned {R} v s.
Arguments Crashed {R} s.

Definition call {R} (body : F R R) (s : Cli) : result R :=
  match body s with
  | Next v s' => Returned v s'
  | Return v s' => Returned v s'
  | Panicked s' => Crashed s'
  end.

(** [run] *)
Definition run (w : World) (input : Input) : F (option err) (option err) :=
  let pkgName := String_ input PkgName in
  go _ <-
    (if Nat.eqb (String.length pkgName) 0 then
       if (Bool input SpecSave && Nat.eqb (String.length (String_ input PkgName)) 0)%bool
       then return_ (Some (Errorf "--%v is necessary when creating spec file"
                                  [AFlag PkgName]))
       else say (Warn "--%v will be soon marked as required flag, see 'help' for details"
                      [AFlag HtName])
     else pure tt) ;;
  let envName := String_ input PkgEnvironment in
  match GetResourceNamespace w input NamespacePackage with
  | inr e => return_ (Some (AggregateValidationErrors "Environment" e))
  | inl (userProvidedNS, pkgNamespace) =>
    let srcArchiveFiles := StringSlice input PkgSrcArchive in
    let deployArchiveFiles := StringSlice input PkgDeployArchive in
    let buildcmd := String_ input PkgBuildCmd in
    let noZip := false in
    let code := String_ input PkgCode in
    let '(deployArchiveFiles, noZip) :=
      if Nat.eqb (String.length code) 0
      then (StringSlice input PkgDeployArchive, noZip)
      else ((deployArchiveFiles ++ [String_ input PkgCode])%list, true) in
    if (Nat.eqb (length srcArchiveFiles) 0 && Nat.eqb (length deployArchiveFiles) 0)%bool
    then return_ (Some (Errorf "need --%v or --%v or --%v argument"
                               [AFlag PkgCode; AFlag PkgSrcArchive; AFlag PkgDeployArchive]))
    else
      go (specDir, specFile) <-
        (if Bool input SpecSave then
           if Nat.ltb 63 (String.length pkgName) then
             return_ (Some (Errorf
               "error creating package: package name %v, must be no more than 63 characters"
               [AStr pkgName]))
           else
             let specDir := GetSpecDir w input in
             let specIgnore := GetSpecIgnore w input in
             match ReadSpecs w specDir specIgnore with
             | inr e =>
               return_ (Some (Wrapped e ("error reading spec in '" ++ specDir ++ "'")))
             | inl fr =>
               match ExistsInSpecs fr {| EnvNamespace := userProvidedNS;
                                         EnvName := envName |} with
               | inr e => return_ (Some e)
               | inl exists_ =>
                 go _ <-
                   when (negb exists_)
                     (say (Warn ("Package '%s' references unknown Environment '%s' in "
                                 ++ "Namespace '%s', please create it before applying spec")
                                [AStr pkgName; AStr envName; AStr userProvidedNS])) ;;
                 let specDir := GetSpecDir w input in
                 pure (specDir, "package-" ++ pkgName ++ ".yaml")
               end
             end
         else pure ("", "")) ;;
      fun s =>
        match call (CreatePackage w input pkgName pkgNamespace envName srcArchiveFiles
                      deployArchiveFiles buildcmd specDir specFile noZip userProvidedNS) s with
        | Returned (_, e) s' => Return e s'
        | Crashed s' => Panicked s'
        end
  end.

(** [do] and [Create] hand the error of [run] on. *)
Definition do_ (w : World) (input : Input) : F (option err) (option err) :=
  fun s =>
    match call (run w input) s with
    | Returned (Some e) s' => Return (Some e) s'
    | Returned None s' => Return None s'
    | Crashed s' => Panicked s'
    end.

Definition Create (w : World) (input : Input) (s : Cli) : result (option err) :=
  call (do_ w input) s.

(** What the flags make of the package, as [run] computes it before
    calling [CreatePackage]. *)
Definition deploy_files (input : Input) : list string :=
  if Nat.eqb (String.length (String_ input PkgCode)) 0
  then StringSlice input PkgDeployArchive
  else (StringSlice input PkgDeployArchive ++ [String_ input PkgCode])%list.

(** The events after those of [s]. *)
Definition new_events {R} (s : Cli) (r : result R) : list Event :=
  match r with
  | Returned _ s' | Crashed s' => drop (length (out s)) (out s')
  end.

(** A body all of whose events satisfy [P]. *)
Definition emits {R A} (P : Event → Prop) (m : F R A) : Prop :=
  ∀ s, ∃ evs, Forall P evs ∧
    match m s with
    | Next _ s' | Return _ s' | Panicked s' => out s' = (out s ++ evs)%list
    end.

(** A body all of whose events satisfy [P] and whose value, when it goes
    on, satisfies [Q]. *)
Definition emits_to {R A} (P : Event → Prop) (Q : A → Prop) (m : F R A) : Prop :=
  ∀ s, ∃ evs, Forall P evs ∧
    match m s with
    | Next a s' => out s' = (out s ++ evs)%list ∧ Q a
    | Return _ s' | Panicked s' => out s' = (out s ++ evs)%list
    end.

(** The build status [CreatePackage] arrives at. *)
Definition expected_status (src deploy : list string) (specFile : string) : BuildStatus :=
  if nonempty src then BuildStatusPending
  else if (nonempty deploy && Nat.ltb 0 (String.length specFile))%bool then BuildStatusNone
  else BuildStatusSucceeded.

(** The package [CreatePackage] builds from its arguments: where it lives,
    which environment it refers to, its status and build command, and its
    name when one was given. *)
Definition shaped (pkgName envName buildcmd specFile : string)
    (src deploy : list string) (namespace envNamespace : string) (pkg : Package) : Prop :=
  Namespace (PkgMeta pkg) = namespace ∧
  SpecEnvironment (Spec pkg) = {| EnvNamespace := envNamespace; EnvName := envName |} ∧
  Status pkg = expected_status src deploy specFile ∧
  BuildCommand (Spec pkg) = buildcmd ∧
  (pkgName ≠ "" → Name (PkgMeta pkg) = pkgName) ∧
  (src = [] → Source (Spec pkg) = ZeroArchive) ∧
  (deploy = [] → Deployment (Spec pkg) = ZeroArchive).

(** What each call of [CreatePackage] to the outside looks like, given its
    arguments. *)
Definition describes (input : Input) (pkgName pkgNamespace envName : string)
    (src deploy : list string) (buildcmd specFile : string) (noZip : bool)
    (userProvidedNS : string) (e : Event) : Prop :=
  match e with
  | Warn _ _ => False
  | Printf _ _ => True
  | Archived files nz =>
    (files = deploy ∧ nz = noZip ∧ deploy ≠ []) ∨ (files = src ∧ nz = false ∧ src ≠ [])
  | DryRun pkg =>
    Bool input SpecDry = true ∧
    shaped pkgName envName buildcmd specFile src deploy userProvidedNS userProvidedNS pkg
  | Saved pkg file =>
    Bool input SpecDry = false ∧ Bool input SpecSave = true ∧ file = specFile ∧
    shaped pkgName envName buildcmd specFile src deploy userProvidedNS userProvidedNS pkg
  | Created namespace pkg =>
    Bool input SpecDry = false ∧ Bool input SpecSave = false ∧ namespace = pkgNamespace ∧
    shaped pkgName envName buildcmd specFile src deploy pkgNamespace pkgNamespace pkg
  | Streamed _ =>
    Bool input SpecDry = false ∧ Bool input SpecSave = false ∧ Bool input StreamLog = true
  end.

(** The same for [run], whose arguments to [CreatePackage] come from the
    flags: nothing but warnings happens before the flags have been
    accepted. *)
Definition run_describes (w : World) (input : Input) (e : Event) : Prop :=
  match e with
  | Warn _ _ => True
  | _ =>
    ∃ userProvidedNS pkgNamespace,
      GetResourceNamespace w input NamespacePackage = inl (userProvidedNS, pkgNamespace) ∧
      (StringSlice input PkgSrcArchive ≠ [] ∨ deploy_files input ≠ []) ∧
      (Bool input SpecSave = true →
       (1 ≤ String.length (String_ input PkgName) ≤ 63)%nat) ∧
      describes input (String_ input PkgName) pkgNamespace (String_ input PkgEnvironment)
        (StringSlice input PkgSrcArchive) (deploy_files input)
        (String_ input PkgBuildCmd)
        (if Bool input SpecSave then "package-" ++ String_ input PkgName ++ ".yaml" else "")
        (negb (Nat.eqb (String.length (String_ input PkgCode)) 0))
        userProvidedNS e
  end.

(** The flags [run] turns down before it does anything. *)
Definition rejected (input : Input) : Prop :=
  (String_ input PkgName = "" ∧ Bool input SpecSave = true) ∨
  (StringSlice input PkgSrcArchive = [] ∧ deploy_files input = []) ∨
  (Bool input SpecSave = true ∧ (63 < String.length (String_ input PkgName))%nat).

Definition is_warning (e : Event) : Prop :=
  match e with Warn _ _ => True | _ => False end.

End package_create.

(** Concrete flags and a concrete world for package creation: a cluster
    that accepts every package and lists no builder pod. *)
Module package_example.
Import package_create.

Definition start : Cli := {| out := []; draws := 0 |}.

Definition flags (name env code : string) (save dry stream : bool)
    (src deploy : list string) : Input :=
  {| String_ := fun f =>
       match f with
       | PkgName => name | PkgEnvironment => env | PkgCode => code | _ => ""
       end;
     Bool := fun f =>
       match f with
       | SpecSave => save | SpecDry => dry | StreamLog => stream | _ => false
       end;
     StringSlice := fun f =>
       match f with
       | PkgSrcArchive => src | PkgDeployArchive => deploy | _ => []
       end |}.

Definition bare : Input := flags "" "" "" false false false [] [].
Definition hello : Input := flags "hello" "node" "hello.js" false false false [] [].
Definition hello_spec : Input := flags "hello" "node" "hello.js" true false false [] [].
Definition hello_stream : Input := flags "hello" "node" "hello.js" false false true [] [].
Definition unnamed : Input :=
  flags "" "node" "hello.js" false false false ["src.zip"] [].

Definition cluster : World :=
  {| GetResourceNamespace := fun _ _ => inl ("team", "default");
     GetSpecDir := fun _ => "specs";
     GetSpecIgnore := fun _ => ".specignore";
     ReadSpecs := fun _ _ =>
       inl {| ExistsInSpecs := fun _ => inl true; SpecExists := fun _ => None |};
     CreateArchive := fun files _ _ _ _ _ => inl (Uploaded (hd "" files));
     KubifyName := fun name => name;
     Base := fun file => file;
     NewLen := fun _ => "ab12";
     NewV4 := inl 0;
     UTCNow := 0;
     SpecDry_ := fun _ => None;
     SpecSave_ := fun _ _ => None;
     Packages_Create := fun _ pkg => inl (PkgMeta pkg);
     Pods_List := fun _ => inl [];
     Stream := fun _ => None;
     Copy := fun _ => None |}.

End package_example.

(** * Properties *)

(** ** Telemetry attributes *)

Lemma GetAttributesForFuncSvc_nil : GetAttributesForFuncSvc None = [].
Proof. reflexivity. Qed.

(** C8: the attributes of a record are exactly the key-values among
    function-name, function-namespace, environment-name,
    environment-namespace and address whose sub-field is there: a nil
    Function or Environment and an empty Address leave their keys out, and
    every value emitted is the value of the field, never a default. *)
Theorem GetAttributesForFuncSvc_omits_absent (fsvc : FuncSvc) (kv : KeyValue) :
  kv ∈ GetAttributesForFuncSvc (Some fsvc)
  ↔ attribute_of fsvc (Key kv) = Some (Value kv).
Proof.
  destruct kv as [k v]. unfold GetAttributesForFuncSvc, attribute_of. simpl.
  destruct (Function fsvc) as [fn|];
    destruct (Env fsvc) as [env|];
    case_bool_decide as Ha; simpl; 
    (destruct (decide (Address fsvc = "")) as [Ha'|Ha']; [try done|]); 
    try (exfalso; apply Ha; intros ?; done).
  all: split.
  all: try (intros Hin; set_unfold in Hin;
            repeat (destruct Hin as [Hin|Hin]; [inversion Hin; subst; clear Hin|]);
            try done; repeat (case_decide; try discriminate); done).
  all: repeat (case_decide; subst); simpl; intros Heq; try discriminate;
       inversion Heq; subst; set_solver.
Qed.

(** ** The heap *)

Lemma deref_store_eq p f st : deref (store p f st) p = f.
Proof. unfold deref, store. simpl. by rewrite lookup_total_insert_eq. Qed.

Lemma deref_store_ne p q f st : p ≠ q → deref (store p f st) q = deref st q.
Proof. intros Hne. unfold deref, store. simpl. by rewrite lookup_total_insert_ne. Qed.

Lemma new_loc_fresh st : heap st !! new_loc st = None.
Proof.
  unfold new_loc. apply (not_elem_of_dom (D := gset loc)).
  apply (is_fresh (dom (heap st))).
Qed.

Lemma new_loc_ne st p : is_Some (heap st !! p) → new_loc st ≠ p.
Proof. intros [f Hf] Heq. by rewrite <- Heq, new_loc_fresh in Hf. Qed.

(** ** Removal *)

Lemma log_delete_error_spec name err st :
  ∃ st', log_delete_error name err st = Returns tt st' ∧
    heap st' = heap st ∧ byFunction st' = byFunction st ∧
    byAddress st' = byAddress st ∧ byFunctionUID st' = byFunctionUID st ∧
    connFunctionCache st' = connFunctionCache st ∧ serving st' = serving st ∧
    clock st' = clock st ∧ FuncRunningSummary st' = FuncRunningSummary st ∧
    logs st' = (logs st ++ removal_log name err)%list.
Proof.
  destruct err as [e|]; simpl; eexists; (split; [reflexivity|]); simpl;
    rewrite ?app_nil_r; done.
Qed.

(** What [DeleteEntry] leaves behind for a record with a function: the
    three keys are gone whatever the removals report, every reported error
    is in the log and nowhere else, and the lifetime has been observed. *)
Lemma DeleteEntry_effect faults st fsvc m :
  Function (deref st fsvc) = Some m →
  let f := deref st fsvc in
  let e1 := faults (CacheKey m) (bool_decide (is_Some (byFunction st !! CacheKey m))) in
  let e2 := faults (Address f) (bool_decide (is_Some (byAddress st !! Address f))) in
  let e3 := faults (UID m) (bool_decide (is_Some (byFunctionUID st !! UID m))) in
  ∃ st', DeleteEntry faults fsvc st = Returns tt st' ∧
    byFunction st' = delete (CacheKey m) (byFunction st) ∧
    byAddress st' = delete (Address f) (byAddress st) ∧
    byFunctionUID st' = delete (UID m) (byFunctionUID st) ∧
    FuncRunningSummary st' =
      (FuncRunningSummary st ++
        [ {| function_name := Name m; function_namespace := Namespace m;
             observed := Time.Seconds (Time.Sub (Atime f) (Ctime f)) |} ])%list ∧
    logs st' = (logs st ++ removal_log (Name m) e1 ++ removal_log (Name m) e2
                        ++ removal_log (Name m) e3)%list ∧
    heap st' = heap st ∧ connFunctionCache st' = connFunctionCache st ∧
    serving st' = serving st ∧ clock st' = clock st.
Proof.
  intros Hm f e1 e2 e3. subst f e1 e2 e3.
  unfold DeleteEntry, bind, get. cbn beta iota. rewrite Hm. cbn.
  destruct (faults (CacheKey m) _); cbn;
    destruct (faults (Address _) _); cbn;
    destruct (faults (UID m) _); cbn;
    (eexists; split; [reflexivity|]); cbn;
    rewrite ?app_nil_r, <- ?app_assoc; done.
Qed.

(** C5: [DeleteEntry] applies the removal to each of the three indices
    whatever the other removals report, hands no error to its caller (it
    returns, with no result, and the reported errors only reach the log),
    and observes the lifetime [Atime - Ctime] on the summary under the
    function's name and namespace. *)
Theorem DeleteEntry_swallows_errors_and_observes faults st fsvc m :
  Function (deref st fsvc) = Some m →
  ∃ st', DeleteEntry faults fsvc st = Returns tt st' ∧
    byFunction st' !! CacheKey m = None ∧
    byAddress st' !! Address (deref st fsvc) = None ∧
    byFunctionUID st' !! UID m = None ∧
    (∀ k, k ≠ CacheKey m → byFunction st' !! k = byFunction st !! k) ∧
    (∀ a, a ≠ Address (deref st fsvc) → byAddress st' !! a = byAddress st !! a) ∧
    (∀ u, u ≠ UID m → byFunctionUID st' !! u = byFunctionUID st !! u) ∧
    FuncRunningSummary st' =
      (FuncRunningSummary st ++
        [ {| function_name := Name m; function_namespace := Namespace m;
             observed := Time.Seconds (Time.Sub (Atime (deref st fsvc))
                                                  (Ctime (deref st fsvc))) |} ])%list ∧
    logs st' =
      (logs st
       ++ removal_log (Name m)
            (faults (CacheKey m) (bool_decide (is_Some (byFunction st !! CacheKey m))))
       ++ removal_log (Name m)
            (faults (Address (deref st fsvc))
               (bool_decide (is_Some (byAddress st !! Address (deref st fsvc)))))
       ++ removal_log (Name m)
            (faults (UID m) (bool_decide (is_Some (byFunctionUID st !! UID m)))))%list.
Proof.
  intros Hm.
  destruct (DeleteEntry_effect faults st fsvc m Hm)
    as (st' & Hrun & Hf & Ha & Hu & Ho & Hl & _).
  exists st'. rewrite Hf, Ha, Hu.
  repeat split; try done.
  - apply lookup_delete_eq.
  - apply lookup_delete_eq.
  - apply lookup_delete_eq.
  - intros k Hk. by rewrite lookup_delete_ne.
  - intros a Hk. by rewrite lookup_delete_ne.
  - intros u Hk. by rewrite lookup_delete_ne.
Qed.

(** The record of f1 removed a second time: all three removals report
    NotFound and the call returns all the same. *)
Lemma DeleteEntry_swallows_errors_and_observes_witness :
  Function (deref Scenario.without_f1 0%nat) = Some (Scenario.meta "f1" "u1" "1") ∧
  ∃ st', DeleteEntry Scenario.report_missing 0%nat Scenario.without_f1 = Returns tt st' ∧
         byFunction st' !! "default_f1_1" = None.
Proof.
  split; [reflexivity|].
  destruct (DeleteEntry_swallows_errors_and_observes Scenario.report_missing
              Scenario.without_f1 0%nat (Scenario.meta "f1" "u1" "1") eq_refl)
    as (st' & Hrun & Hf & _).
  exists st'. split; [exact Hrun | exact Hf].
Defined.

(** C7: [DeleteOld] on a record whose [Atime] is less than [minAge] ago
    returns (false, nil) and leaves the state as it is; otherwise it
    returns (true, nil) after [DeleteEntry]: the record's function key,
    address and UID are bound in no index any more, nothing else is
    removed, and the summary has observed the lifetime. *)
Theorem DeleteOld_by_age faults st fsvc minAge m :
  Function (deref st fsvc) = Some m →
  (Time.Since (clock st) (Atime (deref st fsvc)) < minAge →
   DeleteOld faults fsvc minAge st = Returns (false, None) st) ∧
  (minAge ≤ Time.Since (clock st) (Atime (deref st fsvc)) →
   ∃ st', DeleteOld faults fsvc minAge st = Returns (true, None) st' ∧
     byFunction st' = delete (CacheKey m) (byFunction st) ∧
     byAddress st' = delete (Address (deref st fsvc)) (byAddress st) ∧
     byFunctionUID st' = delete (UID m) (byFunctionUID st) ∧
     byFunction st' !! CacheKey m = None ∧
     byAddress st' !! Address (deref st fsvc) = None ∧
     byFunctionUID st' !! UID m = None ∧
     FuncRunningSummary st' =
       (FuncRunningSummary st ++
         [ {| function_name := Name m; function_namespace := Namespace m;
              observed := Time.Seconds (Time.Sub (Atime (deref st fsvc))
                                                 (Ctime (deref st fsvc))) |} ])%list).
Proof.
  intros Hm. split; intros Hage.
  - unfold DeleteOld, bind, Now, get. cbn beta iota.
    apply Z.ltb_lt in Hage. by rewrite Hage.
  - destruct (DeleteEntry_effect faults st fsvc m Hm)
      as (st' & Hrun & Hf & Ha & Hu & Ho & _).
    exists st'. unfold DeleteOld, bind, Now, get. cbn beta iota.
    apply Z.ltb_ge in Hage. rewrite Hage, Hrun. cbn.
    rewrite Hf, Ha, Hu, !lookup_delete_eq. done.
Qed.

Lemma DeleteOld_by_age_witness :
  Function (deref (tick (61 * Scenario.second) Scenario.with_f1) 0%nat)
    = Some (Scenario.meta "f1" "u1" "1") ∧
  60 * Scenario.second
    ≤ Time.Since (clock (tick (61 * Scenario.second) Scenario.with_f1))
                 (Atime (deref (tick (61 * Scenario.second) Scenario.with_f1) 0%nat)) ∧
  ∃ st', DeleteOld Scenario.no_faults 0%nat (60 * Scenario.second)
           (tick (61 * Scenario.second) Scenario.with_f1) = Returns (true, None) st' ∧
         byFunction st' !! "default_f1_1" = None.
Proof.
  split; [reflexivity|]. split; [vm_compute; discriminate|].
  destruct (DeleteOld_by_age Scenario.no_faults
              (tick (61 * Scenario.second) Scenario.with_f1) 0%nat
              (60 * Scenario.second) (Scenario.meta "f1" "u1" "1") eq_refl)
    as [_ Hold].
  destruct Hold as (st' & Hrun & _ & _ & _ & Hf & _).
  - vm_compute; discriminate.
  - exists st'. split; [exact Hrun | exact Hf].
Defined.

(** ** The serializer *)

Lemma listOldScan_dangling st age fscs acc uid m :
  (uid, m) ∈ fscs → byFunction st !! CacheKey m = None →
  ∃ err, listOldScan st age fscs acc = inr err.
Proof.
  intros Hin Hnone. revert acc.
  induction fscs as [|[u' m'] rest IH]; intros acc.
  - by apply not_elem_of_nil in Hin.
  - simpl. apply elem_of_cons in Hin as [Heq|Hin].
    + inversion Heq; subst. unfold cache.Get. rewrite Hnone. eauto.
    + unfold cache.Get. destruct (byFunction st !! CacheKey m') as [p|]; [|eauto].
      destruct (_ >? _); by apply IH.
Qed.

(** A dangling UID entry ends the goroutine of [service]: the caller of
    [ListOld] gets no response at all. *)
Lemma ListOld_dangling st age uid m :
  serving st = true →
  byFunctionUID st !! uid = Some m → byFunction st !! CacheKey m = None →
  ∃ st', ListOld age st = Blocks st' ∧ serving st' = false.
Proof.
  intros Hs Hu Hf.
  destruct (listOldScan_dangling st age (cache.Copy (byFunctionUID st)) [] uid m)
    as [err Herr]; [by apply elem_of_map_to_list | done |].
  unfold ListOld, bind, request. rewrite Hs. unfold service_turn. simpl.
  rewrite Herr. eauto.
Qed.

(** Once the goroutine has ended, no request is ever answered. *)
Lemma request_after_stop st req : serving st = false → request req st = Blocks st.
Proof. intros Hs. unfold request. by rewrite Hs. Qed.

Lemma stopped_serves_nothing st address age :
  serving st = false →
  TouchByAddress address st = Blocks st ∧ ListOld age st = Blocks st ∧
  ListOldForPool age st = Blocks st ∧ ∃ st', Log st = Blocks st'.
Proof.
  intros Hs. unfold TouchByAddress, ListOld, ListOldForPool, Log, bind, modify.
  rewrite !request_after_stop by done. repeat split.
  eauto.
Qed.

(** C1, at the state in which the UID index refers to a function key that
    [byFunction] no longer has: the request loop returns without
    answering, so [ListOld] never hands its caller an error, and afterwards
    no TouchByAddress, ListOld, ListOldForPool or Log request is answered
    either. *)
Theorem ListOld_dangling_reference_ends_service :
  byFunctionUID Scenario.dangling !! "u1" = Some (Scenario.meta "f1" "u1" "1") ∧
  byFunction Scenario.dangling !! CacheKey (Scenario.meta "f1" "u1" "1") = None ∧
  serving Scenario.dangling = true ∧
  ListOld (60 * Scenario.second) Scenario.dangling = Blocks Scenario.stopped ∧
  serving Scenario.stopped = false ∧
  TouchByAddress "10.0.0.1:8080" Scenario.stopped = Blocks Scenario.stopped ∧
  ListOld 0 Scenario.stopped = Blocks Scenario.stopped ∧
  ListOldForPool 0 Scenario.stopped = Blocks Scenario.stopped ∧
  after (Log Scenario.stopped) ≠ None ∧
  ¬ ∃ st', Log Scenario.stopped = Returns tt st'.
Proof.
  repeat apply conj; try (vm_compute; reflexivity); try (vm_compute; discriminate).
  intros [st' H]. vm_compute in H. discriminate.
Qed.

(** ** Add *)

(** Projections of the state after updates of its fields. *)
Ltac state_simpl :=
  unfold deref, store;
  cbn [heap byFunction byAddress byFunctionUID connFunctionCache serving clock
       logs FuncRunningSummary set_heap set_byFunction set_byAddress
       set_byFunctionUID set_pool set_serving set_clock log Observe].

(** A fresh function key: the record is stored under it with both times
    set to the clock, and the two derived indices are set in turn, the
    second only when the first [Set] met no binding. *)
Lemma Add_fresh st fsvc m :
  Function fsvc = Some m → byFunction st !! CacheKey m = None →
  ∃ st', Add fsvc st = Returns (None, None) st' ∧
    byFunction st' = <[CacheKey m := new_loc st]> (byFunction st) ∧
    heap st' = <[new_loc st := with_Atime (clock st) (with_Ctime (clock st) fsvc)]> (heap st) ∧
    byAddress st' =
      (if byAddress st !! Address fsvc is Some _ then byAddress st
       else <[Address fsvc := m]> (byAddress st)) ∧
    byFunctionUID st' =
      (if byAddress st !! Address fsvc is Some _ then byFunctionUID st
       else if byFunctionUID st !! UID m is Some _ then byFunctionUID st
       else <[UID m := m]> (byFunctionUID st)) ∧
    connFunctionCache st' = connFunctionCache st ∧ serving st' = serving st ∧
    clock st' = clock st.
Proof.
  intros Hm Hkey.
  unfold Add, bind, CacheKeyPtr, addr_of, byFunction_Set, cache.Set_.
  rewrite Hm. cbn. rewrite Hkey. cbn.
  unfold byAddress_Set, cache.Set_. cbn.
  destruct (byAddress st !! Address fsvc) as [m'|] eqn:Ha; cbn.
  - eexists; split; [reflexivity|]. state_simpl.
    rewrite !lookup_total_insert_eq, !insert_insert_eq. done.
  - unfold byFunctionUID_Set, cache.Set_. cbn.
    destruct (byFunctionUID st !! UID m) as [m''|] eqn:Hu; cbn;
      (eexists; split; [reflexivity|]); state_simpl;
      rewrite !lookup_total_insert_eq, !insert_insert_eq; done.
Qed.

(** Without a collision on the address, all three indices are populated. *)
Lemma Add_fresh_populates st fsvc m :
  Function fsvc = Some m → byFunction st !! CacheKey m = None →
  byAddress st !! Address fsvc = None →
  ∃ st' p, Add fsvc st = Returns (None, None) st' ∧
    byFunction st' !! CacheKey m = Some p ∧
    Ctime (deref st' p) = clock st ∧ Atime (deref st' p) = clock st ∧
    is_Some (byAddress st' !! Address fsvc) ∧
    is_Some (byFunctionUID st' !! UID m).
Proof.
  intros Hm Hkey Ha.
  destruct (Add_fresh st fsvc m Hm Hkey) as (st' & Hrun & Hf & Hh & Hba & Hbu & _).
  exists st', (new_loc st). rewrite Ha in Hba, Hbu.
  unfold deref. rewrite Hf, Hh, Hba, Hbu, lookup_insert_eq, lookup_total_insert_eq.
  repeat split; try done.
  - by rewrite lookup_insert_eq.
  - destruct (byFunctionUID st !! UID m) eqn:Hu; [by rewrite Hu|].
    by rewrite lookup_insert_eq.
Qed.

(** C3, at a function added on the address of a function already there:
    [Add] returns (nil, nil) and stores the record with both times at the
    clock, but it returns right after the NameExists of [byAddress], so
    [byFunctionUID] has no entry at the new function's UID and a lookup by
    that UID fails. *)
Theorem Add_address_collision_skips_UID_index :
  byFunction Scenario.with_f1 !! CacheKey (Scenario.meta "f2" "u2" "1") = None ∧
  Add Scenario.f2 Scenario.with_f1 = Returns (None, None) Scenario.with_f1_f2 ∧
  byFunction Scenario.with_f1_f2 !! CacheKey (Scenario.meta "f2" "u2" "1") = Some 1%nat ∧
  Ctime (deref Scenario.with_f1_f2 1%nat) = clock Scenario.with_f1 ∧
  Atime (deref Scenario.with_f1_f2 1%nat) = clock Scenario.with_f1 ∧
  byAddress Scenario.with_f1_f2 !! "10.0.0.1:8080" = Some (Scenario.meta "f1" "u1" "1") ∧
  byFunctionUID Scenario.with_f1_f2 !! "u2" = None ∧
  GetByFunctionUID "u2" Scenario.with_f1_f2
    = Returns (None, Some (MakeError ErrorNotFound "key not found")) Scenario.with_f1_f2.
Proof. repeat apply conj; vm_compute; reflexivity. Qed.

(** ** The implicit touch of Add *)

Lemma _touchByAddress_hit st address m p :
  byAddress st !! address = Some m → byFunction st !! CacheKey m = Some p →
  _touchByAddress address st
    = Returns None (store p (with_Atime (clock st) (deref st p)) st).
Proof.
  intros Ha Hf. unfold _touchByAddress, bind, get, cache.Get.
  cbn beta iota. rewrite Ha. cbn beta iota. by rewrite Hf.
Qed.

Lemma _touchByAddress_miss st address :
  (byAddress st !! address = None ∨
   ∃ m, byAddress st !! address = Some m ∧ byFunction st !! CacheKey m = None) →
  ∃ err, _touchByAddress address st = Returns (Some err) st ∧
         IsNotFoundError err = true.
Proof.
  intros [Ha|(m & Ha & Hf)]; unfold _touchByAddress, bind, get, cache.Get;
    cbn beta iota; rewrite Ha; cbn beta iota; [|rewrite Hf]; eauto.
Qed.

Lemma _touchByAddress_returns st address :
  ∃ e st', _touchByAddress address st = Returns e st'.
Proof.
  destruct (byAddress st !! address) as [m|] eqn:Ha.
  - destruct (byFunction st !! CacheKey m) as [p|] eqn:Hf.
    + rewrite (_touchByAddress_hit _ _ _ _ Ha Hf). eauto.
    + destruct (_touchByAddress_miss st address) as (err & -> & _); eauto.
  - destruct (_touchByAddress_miss st address) as (err & -> & _); eauto.
Qed.

(** While [service] runs, a TOUCH round trip is [_touchByAddress]. *)
Lemma TouchByAddress_serving st a :
  serving st = true → TouchByAddress a st = _touchByAddress a st.
Proof.
  intros Hs. unfold TouchByAddress, bind, request, service_turn. rewrite Hs.
  cbn [requestType address].
  destruct (_touchByAddress_returns st a) as (e & st' & ->). done.
Qed.

(** [Add] on a bound function key, up to the touch: the parameter has got
    its address, and the touch is on the address of the record found. *)
Lemma Add_existing st fsvc m p :
  Function fsvc = Some m → byFunction st !! CacheKey m = Some p →
  is_Some (heap st !! p) →
  let st0 := store (new_loc st) fsvc st in
  Add fsvc st =
    match TouchByAddress (Address (deref st p)) st0 with
    | Returns (Some err2) st1 => Returns (None, Some err2) st1
    | Returns None st1 =>
      Returns (Some (new_loc st1), None) (store (new_loc st1) (deref st1 p) st1)
    | Blocks st1 => Blocks st1
    | Panics => Panics
    end.
Proof.
  intros Hm Hkey Hp st0.
  unfold Add, bind at 1 2 3, CacheKeyPtr, addr_of, byFunction_Set, cache.Set_.
  rewrite Hm. cbn [ret alloc]. fold st0.
  assert (byFunction st0 = byFunction st) as -> by done. rewrite Hkey.
  cbn [IsNameExistError bool_decide decide_rel]. 
  rewrite bool_decide_eq_true_2 by done.
  assert (deref st0 p = deref st p) as Hd.
  { apply deref_store_ne. by apply new_loc_ne. }
  assert (set_byFunction (byFunction st) st0 = st0) as -> by (by destruct st).
  unfold bind, get. rewrite Hd.
  destruct (TouchByAddress (Address (deref st p)) st0) as [[e|] st1|st1|]; done.
Qed.

(** C10: when the function key of the record passed to [Add] is already
    bound, but the address of the record found is not in [byAddress], or
    the function [byAddress] has for it has no key in [byFunction], the
    touch, answered by the running [service], fails with NotFound and [Add]
    returns (nil, error): the record found is not handed back, and no index
    or record has changed. *)
Theorem Add_existing_touch_fails st fsvc m p :
  Function fsvc = Some m → byFunction st !! CacheKey m = Some p →
  is_Some (heap st !! p) → serving st = true →
  (byAddress st !! Address (deref st p) = None ∨
   ∃ m', byAddress st !! Address (deref st p) = Some m' ∧
         byFunction st !! CacheKey m' = None) →
  ∃ err st', Add fsvc st = Returns (None, Some err) st' ∧
    IsNotFoundError err = true ∧
    byFunction st' = byFunction st ∧ byAddress st' = byAddress st ∧
    byFunctionUID st' = byFunctionUID st ∧
    (∀ q, is_Some (heap st !! q) → deref st' q = deref st q).
Proof.
  intros Hm Hkey Hp Hs Hmiss.
  rewrite (Add_existing st fsvc m p Hm Hkey Hp). cbn zeta.
  rewrite TouchByAddress_serving by done.
  destruct (_touchByAddress_miss (store (new_loc st) fsvc st) (Address (deref st p)))
    as (err & -> & Herr); [exact Hmiss|].
  exists err, (store (new_loc st) fsvc st). repeat apply conj; try done.
  intros q Hq. apply deref_store_ne. by apply new_loc_ne.
Qed.

Lemma Add_existing_touch_fails_witness :
  byFunction Scenario.orphaned !! CacheKey (Scenario.meta "f2" "u2" "1") = Some 1%nat ∧
  byAddress Scenario.orphaned !! Address (deref Scenario.orphaned 1%nat) = None ∧
  ∃ err st', Add Scenario.f2 Scenario.orphaned = Returns (None, Some err) st' ∧
             IsNotFoundError err = true.
Proof.
  split; [vm_compute; reflexivity|]. split; [vm_compute; reflexivity|].
  destruct (Add_existing_touch_fails Scenario.orphaned Scenario.f2
              (Scenario.meta "f2" "u2" "1") 1%nat)
    as (err & st' & Hrun & Herr & _).
  - reflexivity.
  - vm_compute; reflexivity.
  - eexists. vm_compute. reflexivity.
  - reflexivity.
  - left. vm_compute. reflexivity.
  - exists err, st'. split; [exact Hrun | exact Herr].
Defined.

(** C2 as stated fails: the function key of f2 is bound, yet [Add] hands
    back no record, because the address of the record found is not in
    [byAddress]. *)
Lemma Add_existing_not_always_returned :
  byFunction Scenario.orphaned !! CacheKey (Scenario.meta "f2" "u2" "1") = Some 1%nat ∧
  Function Scenario.f2 = Some (Scenario.meta "f2" "u2" "1") ∧
  serving Scenario.orphaned = true ∧
  ¬ ∃ q st', Add Scenario.f2 Scenario.orphaned = Returns (Some q, None) st'.
Proof.
  repeat apply conj; try (vm_compute; reflexivity).
  intros (q & st' & H). vm_compute in H. discriminate.
Qed.

(** C2, amended: when the function key of the record passed to [Add] is
    already bound, [service] is running, and [byAddress] maps the address
    of the record found to a function whose key [byFunction] binds, [Add]
    returns a new copy of the record found, changes no index, and sets to
    the clock the [Atime] of the record the address leads to; that record
    is the one found, and the copy carries the new [Atime], when the
    address leads back to the same function key. *)
Theorem Add_existing_returns_copy_and_touches st fsvc m p m' p' :
  Function fsvc = Some m → byFunction st !! CacheKey m = Some p →
  is_Some (heap st !! p) → serving st = true →
  byAddress st !! Address (deref st p) = Some m' →
  byFunction st !! CacheKey m' = Some p' → is_Some (heap st !! p') →
  ∃ q st', Add fsvc st = Returns (Some q, None) st' ∧
    heap st !! q = None ∧ q ≠ p ∧
    deref st' q = deref st' p ∧
    byFunction st' = byFunction st ∧ byAddress st' = byAddress st ∧
    byFunctionUID st' = byFunctionUID st ∧
    deref st' p' = with_Atime (clock st) (deref st p') ∧
    (∀ x, is_Some (heap st !! x) → x ≠ p' → deref st' x = deref st x) ∧
    (p' = p → deref st' q = with_Atime (clock st) (deref st p)).
Proof.
  intros Hm Hkey Hp Hs Ha Hf Hp'.
  rewrite (Add_existing st fsvc m p Hm Hkey Hp). cbn zeta.
  rewrite TouchByAddress_serving by done.
  set (r := new_loc st). set (st0 := store r fsvc st).
  assert (r ≠ p) as Hrp by (by apply new_loc_ne).
  assert (r ≠ p') as Hrp' by (by apply new_loc_ne).
  rewrite (_touchByAddress_hit st0 _ m' p') by done.
  set (st1 := store p' (with_Atime (clock st0) (deref st0 p')) st0).
  set (q := new_loc st1).
  assert (heap st1 = <[p' := with_Atime (clock st) (deref st p')]>
                       (<[r := fsvc]> (heap st))) as Hh1.
  { subst st1 st0. unfold store, deref. cbn.
    by rewrite lookup_total_insert_ne. }
  assert (is_Some (heap st1 !! p)) as Hp1.
  { rewrite Hh1. destruct (decide (p' = p)) as [->|Hne].
    - rewrite lookup_insert_eq. eauto.
    - rewrite lookup_insert_ne, lookup_insert_ne; done. }
  assert (is_Some (heap st1 !! p')) as Hp'1.
  { rewrite Hh1, lookup_insert_eq. eauto. }
  assert (q ≠ p) as Hqp by (by apply new_loc_ne).
  assert (q ≠ p') as Hqp' by (by apply new_loc_ne).
  assert (q ≠ r) as Hqr.
  { apply new_loc_ne. rewrite Hh1, lookup_insert_ne, lookup_insert_eq by done. eauto. }
  assert (heap st !! q = None) as Hq.
  { pose proof (new_loc_fresh st1) as Hfresh. fold q in Hfresh.
    rewrite Hh1, lookup_insert_ne, lookup_insert_ne in Hfresh; done. }
  assert (deref st1 p' = with_Atime (clock st) (deref st p')) as Hd1.
  { unfold deref. by rewrite Hh1, lookup_total_insert_eq. }
  exists q, (store q (deref st1 p) st1). repeat apply conj; try done.
  - rewrite deref_store_eq. symmetry. by apply deref_store_ne.
  - rewrite deref_store_ne by done. done.
  - intros x Hx Hne. rewrite deref_store_ne.
    + unfold deref. rewrite Hh1, lookup_total_insert_ne by done.
      rewrite lookup_total_insert_ne; [done|]. by apply new_loc_ne.
    + intros ->. destruct Hx as [? Hx]. by rewrite Hq in Hx.
  - intros <-. by rewrite deref_store_eq.
Qed.

Lemma Add_existing_returns_copy_and_touches_witness :
  byFunction (tick 5 Scenario.with_f1) !! CacheKey (Scenario.meta "f1" "u1" "1") = Some 0%nat ∧
  ∃ q st', Add Scenario.f1 (tick 5 Scenario.with_f1) = Returns (Some q, None) st' ∧
           deref st' q = with_Atime 5 (deref (tick 5 Scenario.with_f1) 0%nat).
Proof.
  split; [vm_compute; reflexivity|].
  destruct (Add_existing_returns_copy_and_touches (tick 5 Scenario.with_f1) Scenario.f1
              (Scenario.meta "f1" "u1" "1") 0%nat (Scenario.meta "f1" "u1" "1") 0%nat)
    as (q & st' & Hrun & _ & _ & _ & _ & _ & _ & _ & _ & Hcopy).
  - reflexivity.
  - vm_compute; reflexivity.
  - eexists. vm_compute. reflexivity.
  - reflexivity.
  - vm_compute; reflexivity.
  - vm_compute; reflexivity.
  - eexists. vm_compute. reflexivity.
  - exists q, st'. split; [exact Hrun | exact (Hcopy eq_refl)].
Defined.

(** ** Lookups *)

Lemma GetByFunction_found st m p :
  byFunction st !! CacheKey m = Some p → GetByFunction (Some m) st = found p st.
Proof.
  intros Hf. unfold GetByFunction, bind at 1 2, CacheKeyPtr, ret, get, cache.Get.
  by rewrite Hf.
Qed.

Lemma GetByFunctionUID_found st uid m p :
  byFunctionUID st !! uid = Some m → byFunction st !! CacheKey m = Some p →
  GetByFunctionUID uid st = found p st.
Proof.
  intros Hu Hf. unfold GetByFunctionUID, bind at 1, get, cache.Get.
  rewrite Hu. unfold bind at 1. by rewrite Hf.
Qed.

Lemma found_effect st p :
  let st1 := store p (with_Atime (clock st) (deref st p)) st in
  found p st = Returns (Some (new_loc st1), None)
                 (store (new_loc st1) (with_Atime (clock st) (deref st p)) st1).
Proof.
  intros st1. unfold found, bind, Now, set_Atime, modify, copy, alloc, ret.
  cbn beta iota zeta. subst st1. by rewrite deref_store_eq.
Qed.

Lemma found_independent st p :
  is_Some (heap st !! p) → independent_copy (found p) st p.
Proof.
  intros Hp. unfold independent_copy.
  rewrite found_effect. cbn zeta.
  set (st1 := store p (with_Atime (clock st) (deref st p)) st).
  set (q := new_loc st1).
  assert (is_Some (heap st1 !! p)) as Hp1.
  { unfold st1, store. cbn. rewrite lookup_insert_eq. eauto. }
  assert (q ≠ p) as Hqp by (by apply new_loc_ne).
  assert (heap st !! q = None) as Hq.
  { pose proof (new_loc_fresh st1) as Hfresh. fold q in Hfresh.
    unfold st1, store in Hfresh. cbn in Hfresh.
    by rewrite lookup_insert_ne in Hfresh. }
  exists q, (store q (with_Atime (clock st) (deref st p)) st1).
  repeat apply conj; try done.
  - rewrite deref_store_ne by done. apply deref_store_eq.
  - rewrite deref_store_eq, deref_store_ne by done. symmetry. apply deref_store_eq.
  - intros written later.
    assert (∀ s, deref s p = with_Atime (clock st) (deref st p) → clock s = clock st →
                 returned (found p (tick later s))
                 = Some (with_Atime (clock st + later) (deref st p))) as Hret.
    { intros s Hs Hc. rewrite found_effect. cbn zeta. unfold returned.
      rewrite deref_store_eq. f_equal.
      assert (deref (tick later s) p = deref s p) as -> by done.
      assert (clock (tick later s) = clock s + later) as -> by done.
      by rewrite Hs, Hc. }
    assert (deref st1 p = with_Atime (clock st) (deref st p)) as Hd1
      by apply deref_store_eq.
    repeat apply conj.
    + by rewrite !deref_store_ne.
    + rewrite !Hret; try done; by rewrite !deref_store_ne.
    + rewrite Hret; try done. by rewrite deref_store_ne.
Qed.



(** ** The snapshot writer *)

Lemma nibble_range u k : 0 ≤ nibble u k < 16.
Proof.
  unfold nibble. change 15 with (Z.ones 4).
  rewrite Z.land_ones by lia. apply Z.mod_pos_bound. lia.
Qed.

Lemma hexdigit_hex n : 0 ≤ n < 16 → is_hex (hexdigit n) ∧ hexdigit n ≠ dash.
Proof.
  intros Hn.
  assert (n = 0 ∨ n = 1 ∨ n = 2 ∨ n = 3 ∨ n = 4 ∨ n = 5 ∨ n = 6 ∨ n = 7 ∨
          n = 8 ∨ n = 9 ∨ n = 10 ∨ n = 11 ∨ n = 12 ∨ n = 13 ∨ n = 14 ∨ n = 15)
    as Hcases by lia.
  repeat (destruct Hcases as [->|Hcases]); try subst n;
    (split; [unfold is_hex; vm_compute; intuition discriminate | vm_compute; discriminate]).
Qed.

Lemma hexdigits_length u k n : String.length (hexdigits u k n) = n.
Proof. revert k. induction n as [|n IH]; intros k; simpl; [done|]. by rewrite IH. Qed.

Lemma hexdigits_hex u k n :
  Forall is_hex (String.list_ascii_of_string (hexdigits u k n)).
Proof.
  revert k. induction n as [|n IH]; intros k; simpl; constructor.
  - apply hexdigit_hex, nibble_range.
  - apply IH.
Qed.

Lemma first_field_hexdigits u k n rest :
  first_field (hexdigits u k n ++ String dash rest) = hexdigits u k n.
Proof.
  revert k. induction n as [|n IH]; intros k; simpl.
  - done.
  - destruct (Ascii.eqb_spec (hexdigit (nibble u k)) dash) as [Heq|_].
    + by destruct (hexdigit_hex (nibble u k) (nibble_range u k)).
    + by rewrite IH.
Qed.

(** The name of the dump file: dump_, the first eight hex digits of the
    UUID, .txt, under /tmp. *)
Lemma dump_file_name uid :
  dump_file uid = "/tmp/dump_" ++ hexdigits uid 0 8 ++ ".txt".
Proof.
  unfold dump_file, uuid_String.
  change ("-" ++ hexdigits uid 8 4 ++ "-" ++ hexdigits uid 12 4 ++ "-"
          ++ hexdigits uid 16 4 ++ "-" ++ hexdigits uid 20 12)
    with (String dash (hexdigits uid 8 4 ++ "-" ++ hexdigits uid 12 4 ++ "-"
          ++ hexdigits uid 16 4 ++ "-" ++ hexdigits uid 20 12)).
  by rewrite first_field_hexdigits.
Qed.

Lemma dumpInfo_length st groups info :
  dumpInfo st groups = Some info → length info = length groups.
Proof.
  revert info. induction groups as [|[key g] rest IH]; intros info; simpl.
  - by intros [= <-].
  - destruct (groupData _ _ _); [|done]. destruct (dumpInfo st rest); [|done].
    intros [= <-]. simpl. by rewrite (IH l).
Qed.

(** The lines depend on the state through the records only. *)
Lemma groupData_heap s s' data entries :
  heap s = heap s' → groupData s data entries = groupData s' data entries.
Proof.
  intros Hh. revert data. induction entries as [|[a i] es IH]; intros d; [done|].
  simpl. unfold deref. rewrite Hh. destruct (Function _); [apply IH|done].
Qed.

Lemma dumpInfo_heap s s' groups :
  heap s = heap s' → dumpInfo s groups = dumpInfo s' groups.
Proof.
  intros Hh. induction groups as [|[k g] l IH]; [done|].
  simpl. by rewrite IH, (groupData_heap s s').
Qed.




(** ** Times *)

Lemma heap_ok_refl c h : heap_ok c h h.
Proof. intros p f Hf. eauto. Qed.

Lemma heap_ok_trans c h1 h2 h3 : heap_ok c h1 h2 → heap_ok c h2 h3 → heap_ok c h1 h3.
Proof.
  intros H12 H23 p f Hf.
  destruct (H12 p f Hf) as (f2 & Hf2 & Hc2 & Ha2).
  destruct (H23 p f2 Hf2) as (f3 & Hf3 & Hc3 & Ha3).
  exists f3. repeat split; [done|congruence|].
  destruct Ha3 as [Ha3|Ha3]; [|by right].
  destruct Ha2 as [Ha2|Ha2]; [left|right]; congruence.
Qed.

Lemma heap_ok_alloc c h r x : h !! r = None → heap_ok c h (<[r := x]> h).
Proof.
  intros Hr p f Hf. exists f. rewrite lookup_insert_ne; [eauto|].
  intros ->. by rewrite Hr in Hf.
Qed.

Lemma heap_ok_touch c h p : heap_ok c h (<[p := with_Atime c (h !!! p)]> h).
Proof.
  intros q f Hf. destruct (decide (p = q)) as [->|Hne].
  - rewrite lookup_insert_eq, (lookup_total_correct _ _ _ Hf). eauto.
  - rewrite lookup_insert_ne by done. eauto.
Qed.

Lemma quiet_refl c st : quiet c st st.
Proof. split; [done|]. split; [apply heap_ok_refl|done]. Qed.

Lemma quiet_trans c st1 st2 st3 : quiet c st1 st2 → quiet c st2 st3 → quiet c st1 st3.
Proof.
  intros (Hc1 & Hh1 & Hi1) (Hc2 & Hh2 & Hi2). split; [congruence|].
  split; [by eapply heap_ok_trans|]. eauto.
Qed.

Lemma quiet_alloc c st x : quiet c st (store (new_loc st) x st).
Proof.
  split; [done|]. split; [|done]. apply heap_ok_alloc, new_loc_fresh.
Qed.

Lemma quiet_touch st p : quiet (clock st) st (store p (with_Atime (clock st) (deref st p)) st).
Proof. split; [done|]. split; [|done]. apply heap_ok_touch. Qed.

Lemma times_ordered_quiet st st' :
  times_ordered st → quiet (clock st) st st' → times_ordered st'.
Proof.
  intros Hinv (Hc & Hh & Hi) p Hp.
  destruct (Hinv p (Hi p Hp)) as (f & Hf & Hle & Hnow).
  destruct (Hh p f Hf) as (f' & Hf' & Hct & Hat).
  exists f'. rewrite Hc, Hct. split; [done|]. split; [|done].
  destruct Hat as [-> | ->]; done.
Qed.

(** A step that brings one new record, with ordered times, into the cache. *)
Lemma times_ordered_born st st' r f :
  times_ordered st → clock st' = clock st →
  heap st !! r = None → heap st' = <[r := f]> (heap st) →
  Ctime f ≤ Atime f → Ctime f ≤ clock st →
  (∀ p, cached st' p → cached st p ∨ p = r) →
  times_ordered st'.
Proof.
  intros Hinv Hc Hr Hh Hle Hnow Hi p Hp. rewrite Hh, Hc.
  destruct (Hi p Hp) as [Hold| ->].
  - destruct (Hinv p Hold) as (g & Hg & Hg1 & Hg2).
    exists g. rewrite lookup_insert_ne; [done|]. intros ->. by rewrite Hr in Hg.
  - exists f. by rewrite lookup_insert_eq.
Qed.

Lemma times_ordered_tick st d : times_ordered st → 0 ≤ d → times_ordered (tick d st).
Proof.
  intros Hinv Hd p Hp. destruct (Hinv p Hp) as (f & Hf & Hle & Hnow).
  exists f. cbn. repeat split; [done..|lia].
Qed.

Lemma times_ordered_init now : times_ordered (MakeFunctionServiceCache now).
Proof.
  intros p [[key Hk]|(key & g & addr & e & Hg & _)]; cbn in *;
    by rewrite lookup_empty in *.
Qed.

(** *** Quiet computations *)

Lemma preserves_ret {A} c (a : A) : preserves c (ret a).
Proof. intros st st' _ [= <-]. apply quiet_refl. Qed.

Lemma preserves_panic {A} c : preserves c (@panic A).
Proof. intros st st' _ [=]. Qed.

Lemma preserves_get {A} c (F : State → A) : preserves c (get F).
Proof. intros st st' _ [= <-]. apply quiet_refl. Qed.

Lemma preserves_bind {A B} c (m : M A) (k : A → M B) :
  preserves c m → (∀ a, preserves c (k a)) → preserves c (bind m k).
Proof.
  intros Hm Hk st st' Hc. unfold bind.
  destruct (m st) as [a st1|st1|] eqn:Hrun; cbn.
  - intros Hafter.
    assert (quiet c st st1) as Hq by (apply Hm; [done|by rewrite Hrun]).
    eapply quiet_trans; [exact Hq|]. eapply Hk; [|exact Hafter].
    destruct Hq as [-> _]. done.
  - intros [= <-]. apply Hm; [done|by rewrite Hrun].
  - done.
Qed.

Lemma preserves_Now {A} c (k : Z → M A) :
  preserves c (k c) → preserves c (bind Now k).
Proof. intros Hk st st' Hc. unfold bind, Now. rewrite Hc. by apply Hk. Qed.

Lemma preserves_set_Atime c p : preserves c (set_Atime p c).
Proof. intros st st' <- [= <-]. apply quiet_touch. Qed.

Lemma preserves_copy c p : preserves c (copy p).
Proof. intros st st' _ [= <-]. apply quiet_alloc. Qed.

Lemma preserves_log c lvl msg fs e : preserves c (modify (log lvl msg fs e)).
Proof. intros st st' _ [= <-]. split; [done|]. split; [apply heap_ok_refl|done]. Qed.

Lemma preserves_found c p : preserves c (found p).
Proof.
  unfold found. apply preserves_Now, preserves_bind; [apply preserves_set_Atime|].
  intros _. apply preserves_bind; [apply preserves_copy|].
  intros q. apply preserves_ret.
Qed.

Lemma preserves_touch c a : preserves c (_touchByAddress a).
Proof.
  unfold _touchByAddress. apply preserves_bind; [apply preserves_get|].
  intros [m|err]; [|apply preserves_ret].
  apply preserves_bind; [apply preserves_get|].
  intros [p|err]; [|apply preserves_ret].
  apply preserves_Now, preserves_bind; [apply preserves_set_Atime|].
  intros _. apply preserves_ret.
Qed.

Lemma preserves_TouchByAddress c a : preserves c (TouchByAddress a).
Proof.
  intros st st' Hc. unfold TouchByAddress, bind, request, service_turn.
  destruct (serving st); [|intros [= <-]; apply quiet_refl].
  cbn [requestType address].
  destruct (_touchByAddress_returns st a) as (e & st1 & Hrun). rewrite Hrun.
  cbn. intros [= <-]. apply (preserves_touch c a); [done|by rewrite Hrun].
Qed.

Lemma preserves_GetByFunction c m : preserves c (GetByFunction m).
Proof.
  unfold GetByFunction. apply preserves_bind.
  { destruct m; [apply preserves_ret|apply preserves_panic]. }
  intros key. apply preserves_bind; [apply preserves_get|].
  intros [p|err]; [apply preserves_found|apply preserves_ret].
Qed.

Lemma preserves_GetByFunctionUID c uid : preserves c (GetByFunctionUID uid).
Proof.
  unfold GetByFunctionUID. apply preserves_bind; [apply preserves_get|].
  intros [m|err]; [|apply preserves_ret].
  apply preserves_bind; [apply preserves_get|].
  intros [p|err]; [apply preserves_found|apply preserves_ret].
Qed.

(** *** The pool *)

Lemma cached_group_of st key addr e :
  svcs (group_of st key) !! addr = Some e → cached st (val e).
Proof.
  unfold group_of. destruct (connFunctionCache st !! key) as [g|] eqn:Hg; cbn.
  - intros He. right. by exists key, g, addr, e.
  - by rewrite lookup_empty.
Qed.

(** The records cached once the group of [key] has been replaced by one
    whose entries are those it had, but for the entry at [addr]. *)
Lemma cached_set_group st s key addr e q w p :
  byFunction s = byFunction st →
  connFunctionCache s
    = <[key := {| svcs := <[addr := e]> (svcs (group_of st key)); queue := q;
                  svcWaiting := w |}]> (connFunctionCache st) →
  cached s p → cached st p ∨ p = val e.
Proof.
  intros Hbf Hpool [[k Hk]|(k & g & a & e' & Hg & He & Hv)].
  - left. left. exists k. by rewrite <- Hbf.
  - rewrite Hpool in Hg. destruct (decide (key = k)) as [->|Hne].
    + rewrite lookup_insert_eq in Hg. injection Hg as <-. cbn in He.
      destruct (decide (addr = a)) as [->|Hna].
      * rewrite lookup_insert_eq in He. injection He as <-. by right.
      * rewrite lookup_insert_ne in He by done. left. subst p.
        by eapply cached_group_of.
    + rewrite lookup_insert_ne in Hg by done. left. right. by exists k, g, a, e'.
Qed.

(** The same when the entries of the group have not changed. *)
Lemma cached_set_group_same st s key q w p :
  byFunction s = byFunction st →
  connFunctionCache s
    = <[key := {| svcs := svcs (group_of st key); queue := q; svcWaiting := w |}]>
        (connFunctionCache st) →
  cached s p → cached st p.
Proof.
  intros Hbf Hpool [[k Hk]|(k & g & a & e' & Hg & He & Hv)].
  - left. exists k. by rewrite <- Hbf.
  - rewrite Hpool in Hg. destruct (decide (key = k)) as [->|Hne].
    + rewrite lookup_insert_eq in Hg. injection Hg as <-. cbn in He.
      subst p. by eapply cached_group_of.
    + rewrite lookup_insert_ne in Hg by done. right. by exists k, g, a, e'.
Qed.

Lemma preserves_GetSvcValue c key rpp conc : preserves c (GetSvcValue key rpp conc).
Proof.
  intros st st' Hc. unfold GetSvcValue.
  destruct (List.find _ _) as [[addr e]|] eqn:Hfind.
  - apply List.find_some in Hfind as [Hin _].
    apply list_elem_of_In, elem_of_map_to_list in Hin.
    set (e' := {| val := val e; activeRequests := activeRequests e + 1;
                  currentCPUUsage := currentCPUUsage e; cpuLimit := cpuLimit e |}).
    set (st1 := set_group key (with_svcs (<[addr := e']> (svcs (group_of st key)))
                                 (group_of st key)) st).
    intros Hafter.
    assert (quiet c st st1) as Hq1.
    { split; [done|]. split; [apply heap_ok_refl|].
      intros p Hp.
      destruct (cached_set_group st st1 key addr e' (queue (group_of st key))
                  (svcWaiting (group_of st key)) p) as [Hold| ->]; try done.
      exact (cached_group_of st key addr e Hin). }
    eapply quiet_trans; [exact Hq1|].
    assert (preserves c (do _ <- set_Atime (val e) (clock st);;
                         do cp <- copy (val e);; ret (Some cp, @None error))) as Hrest.
    { rewrite Hc. apply preserves_bind; [apply preserves_set_Atime|].
      intros _. apply preserves_bind; [apply preserves_copy|].
      intros cp. apply preserves_ret. }
    apply (Hrest st1); [done|exact Hafter].
  - destruct (_ <? _); cbn; intros [= <-];
      (split; [done|]); (split; [apply heap_ok_refl|]); intros p Hp;
      eapply cached_set_group_same; try exact Hp; done.
Qed.

Lemma preserves_GetFuncSvc c m rpp conc : preserves c (GetFuncSvc m rpp conc).
Proof.
  unfold GetFuncSvc. apply preserves_bind.
  { destruct m; [apply preserves_ret|apply preserves_panic]. }
  intros key. apply preserves_bind; [apply preserves_GetSvcValue|].
  intros [[p|] [err|]].
  - apply preserves_bind; [apply preserves_log|]. intros _. apply preserves_ret.
  - apply preserves_found.
  - apply preserves_bind; [apply preserves_log|]. intros _. apply preserves_ret.
  - apply preserves_panic.
Qed.

(** *** The two calls that create records *)

Lemma times_ordered_Add st st' fsvc :
  times_ordered st → after (Add fsvc st) = Some st' → times_ordered st'.
Proof.
  intros Hinv Hafter.
  destruct (Function fsvc) as [m|] eqn:Hm.
  2: { unfold Add, bind, CacheKeyPtr in Hafter. rewrite Hm in Hafter. done. }
  destruct (byFunction st !! CacheKey m) as [p|] eqn:Hkey.
  - assert (cached st p) as Hp by (left; eauto).
    destruct (Hinv p Hp) as (f & Hf & _).
    rewrite (Add_existing st fsvc m p Hm Hkey) in Hafter by eauto.
    cbn zeta in Hafter.
    set (st0 := store (new_loc st) fsvc st) in *.
    assert (quiet (clock st) st st0) as Hq0 by apply quiet_alloc.
    apply (times_ordered_quiet st); [done|].
    eapply quiet_trans; [exact Hq0|].
    destruct (TouchByAddress (Address (deref st p)) st0) as [[e|] st1|st1|] eqn:Hrun;
      try done; injection Hafter as <-.
    + apply (preserves_TouchByAddress _ (Address (deref st p)) st0); [done|].
      by rewrite Hrun.
    + eapply quiet_trans; [|apply quiet_alloc].
      apply (preserves_TouchByAddress _ (Address (deref st p)) st0); [done|].
      by rewrite Hrun.
    + apply (preserves_TouchByAddress _ (Address (deref st p)) st0); [done|].
      by rewrite Hrun.
  - destruct (Add_fresh st fsvc m Hm Hkey)
      as (st'' & Hrun & Hbf & Hh & _ & _ & Hpool & _ & Hc).
    rewrite Hrun in Hafter. injection Hafter as <-.
    apply (times_ordered_born st st'' (new_loc st)
             (with_Atime (clock st) (with_Ctime (clock st) fsvc)));
      try done; [apply new_loc_fresh|].
    intros p [[k Hk]|(k & g & a & e & Hg & He & Hv)].
    + rewrite Hbf in Hk. destruct (decide (CacheKey m = k)) as [Heq|Hne].
      * rewrite Heq, lookup_insert_eq in Hk. injection Hk as <-. by right.
      * rewrite lookup_insert_ne in Hk by done. left. left. eauto.
    + left. right. exists k, g, a, e. by rewrite <- Hpool.
Qed.

Lemma times_ordered_AddFunc st st' fsvc rpp :
  times_ordered st → after (AddFunc fsvc rpp st) = Some st' → times_ordered st'.
Proof.
  intros Hinv Hafter.
  destruct (Function fsvc) as [m|] eqn:Hm.
  2: { unfold AddFunc, bind, CacheKeyPtr in Hafter. rewrite Hm in Hafter. done. }
  unfold AddFunc, bind, CacheKeyPtr, addr_of, alloc, SetSvcValue, Now, set_Ctime,
    set_Atime, modify in Hafter.
  rewrite Hm in Hafter. cbn [ret after] in Hafter. cbn zeta in Hafter.
  set (r := new_loc st) in *.
  destruct (svcs (group_of (store r fsvc st) (CacheKey m)) !! Address fsvc)
    as [e0|] eqn:He; injection Hafter as <-.
  all: apply (times_ordered_born st _ r
                (with_Atime (clock st) (with_Ctime (clock st) fsvc)));
    try done; try apply new_loc_fresh.
  all: try (unfold store, deref, set_group; cbn;
            rewrite !lookup_total_insert_eq, !insert_insert_eq; done).
  all: intros p Hp;
    eapply (cached_set_group st _ (CacheKey m) (Address fsvc)) in Hp;
    [ | done | unfold store, set_group, group_of; cbn; reflexivity ];
    exact Hp.
Qed.

Lemma times_ordered_perform st st' call :
  times_ordered st → perform call st = Some st' → times_ordered st'.
Proof.
  intros Hinv. destruct call as [f|f rpp|m|uid|address0|m requestsPerPod concurrency]; cbn.
  - by apply times_ordered_Add.
  - by apply times_ordered_AddFunc.
  - intros H. apply (times_ordered_quiet st); [done|].
    by apply (preserves_GetByFunction (clock st) m st st').
  - intros H. apply (times_ordered_quiet st); [done|].
    by apply (preserves_GetByFunctionUID (clock st) uid st st').
  - intros H. apply (times_ordered_quiet st); [done|].
    by apply (preserves_TouchByAddress (clock st) address0 st st').
  - intros H. apply (times_ordered_quiet st); [done|].
    by apply (preserves_GetFuncSvc (clock st) m requestsPerPod concurrency st st').
Qed.

Lemma times_ordered_run calls st st' :
  monotone calls → times_ordered st → run calls st = Some st' → times_ordered st'.
Proof.
  revert st. induction calls as [|[d call] rest IH]; intros st Hmono Hinv.
  - by intros [= <-].
  - apply Forall_cons in Hmono as [Hd Hrest]. cbn in *.
    destruct (perform call (tick d st)) as [st1|] eqn:Hstep; [|done].
    apply IH; [done|].
    eapply times_ordered_perform; [|exact Hstep]. by apply times_ordered_tick.
Qed.

(** C9: after any sequence of Add, AddFunc, GetByFunction,
    GetByFunctionUID, TouchByAddress and GetFuncSvc on a new cache, with a
    clock that does not run backwards, every record the cache holds (under
    [byFunction] or in the pool) has [Ctime ≤ Atime]. *)
Theorem Atime_never_before_Ctime calls now st p :
  monotone calls → run calls (MakeFunctionServiceCache now) = Some st →
  cached st p → Ctime (deref st p) ≤ Atime (deref st p).
Proof.
  intros Hmono Hrun Hp.
  destruct (times_ordered_run calls _ st Hmono (times_ordered_init now) Hrun p Hp)
    as (f & Hf & Hle & _).
  unfold deref. by rewrite (lookup_total_correct _ _ _ Hf).
Qed.

Lemma Atime_never_before_Ctime_witness :
  monotone Scenario.calls ∧
  run Scenario.calls (MakeFunctionServiceCache 0) = Some Scenario.busy ∧
  cached Scenario.busy 0%nat ∧
  Ctime (deref Scenario.busy 0%nat) ≤ Atime (deref Scenario.busy 0%nat).
Proof.
  assert (monotone Scenario.calls) as Hmono.
  { unfold monotone, Scenario.calls.
    repeat (apply List.Forall_cons; [vm_compute; discriminate|]).
    apply List.Forall_nil. }
  assert (run Scenario.calls (MakeFunctionServiceCache 0) = Some Scenario.busy) as Hrun
    by (vm_compute; reflexivity).
  assert (cached Scenario.busy 0%nat) as Hcached.
  { left. exists "default_f1_1". vm_compute. reflexivity. }
  split; [exact Hmono|]. split; [exact Hrun|]. split; [exact Hcached|].
  exact (Atime_never_before_Ctime Scenario.calls 0 Scenario.busy 0%nat Hmono Hrun Hcached).
Defined.

(** * Further properties *)

(** ** The serializer, when it answers *)

(** The scan of LISTOLD when every entry of the UID index leads to a
    record: it ends with the accumulator extended by the records older
    than [age], each reached from some entry. *)
Lemma listOldScan_resolved st age fscs acc :
  (∀ uid m, (uid, m) ∈ fscs → is_Some (byFunction st !! CacheKey m)) →
  ∃ objs, listOldScan st age fscs acc = inl (acc ++ objs)%list ∧
    ∀ p, p ∈ objs ↔
         ∃ uid m, (uid, m) ∈ fscs ∧ byFunction st !! CacheKey m = Some p ∧
                  Time.Since (clock st) (Atime (deref st p)) > age.
Proof.
  revert acc. induction fscs as [|[u m] rest IH]; intros acc Hres.
  - exists []. rewrite app_nil_r. split; [done|]. intros p. split.
    + by intros ?%not_elem_of_nil.
    + by intros (uid & m & ?%not_elem_of_nil & _).
  - destruct (Hres u m) as [q Hq]; [by left|].
    assert (∀ uid m0, (uid, m0) ∈ rest → is_Some (byFunction st !! CacheKey m0)) as Hrest
      by (intros; eapply Hres; by right).
    simpl. unfold cache.Get. rewrite Hq.
    destruct (Time.Since (clock st) (Atime (deref st q)) >? age) eqn:Hold.
    + destruct (IH (acc ++ [q])%list Hrest) as (objs & -> & Hobjs).
      exists (q :: objs). rewrite <- app_assoc. split; [done|].
      intros p. rewrite elem_of_cons, Hobjs. split.
      * intros [-> | (uid & m0 & Hin & Hp & Hage)].
        -- exists u, m. split; [by left|]. split; [done|]. by apply Z.gtb_gt.
        -- exists uid, m0. split; [by right|done].
      * intros (uid & m0 & Hin & Hp & Hage).
        apply elem_of_cons in Hin as [[= -> ->]|Hin].
        -- left. congruence.
        -- right. eauto.
    + destruct (IH acc Hrest) as (objs & -> & Hobjs).
      exists objs. split; [done|]. intros p. rewrite Hobjs. split.
      * intros (uid & m0 & Hin & Hp & Hage). exists uid, m0. split; [by right|done].
      * intros (uid & m0 & Hin & Hp & Hage).
        apply elem_of_cons in Hin as [[= -> ->]|Hin]; [|eauto].
        exfalso. assert (p = q) as -> by congruence.
        apply Z.gtb_gt in Hage. congruence.
Qed.

Lemma _touchByAddress_serving st a e st' :
  _touchByAddress a st = Returns e st' → serving st' = serving st.
Proof.
  destruct (byAddress st !! a) as [m|] eqn:Ha.
  - destruct (byFunction st !! CacheKey m) as [p|] eqn:Hf.
    + rewrite (_touchByAddress_hit _ _ _ _ Ha Hf). by intros [= _ <-].
    + destruct (_touchByAddress_miss st a) as (err & -> & _); [eauto|].
      by intros [= _ <-].
  - destruct (_touchByAddress_miss st a) as (err & -> & _); [eauto|].
    by intros [= _ <-].
Qed.

(** X1: a running [service] answers every request and keeps running,
    unless the request is LISTOLD and the UID index has an entry whose
    function key [byFunction] lacks. *)
Theorem service_answers_unless_dangling st req :
  serving st = true →
  (requestType req ≠ LISTOLD ∨
   ∀ uid m, byFunctionUID st !! uid = Some m → is_Some (byFunction st !! CacheKey m)) →
  ∃ resp st', request req st = Returns resp st' ∧ serving st' = true.
Proof.
  intros Hs Hok. unfold request, service_turn. rewrite Hs.
  destruct (requestType req) eqn:Hty.
  - destruct (_touchByAddress_returns st (address req)) as (e & st' & Hrun).
    rewrite Hrun. eexists _, _. split; [done|].
    by rewrite (_touchByAddress_serving _ _ _ _ Hrun).
  - destruct Hok as [Hne|Hres]; [done|].
    destruct (listOldScan_resolved st (age req) (cache.Copy (byFunctionUID st)) [])
      as (objs & -> & _).
    { intros uid m Hin. apply (Hres uid). by apply elem_of_map_to_list. }
    eauto.
  - eauto.
  - eauto.
Qed.

Lemma service_answers_unless_dangling_witness :
  serving Scenario.with_f1_f2 = true ∧
  ∃ resp st', request {| requestType := LISTOLD; address := ""; age := 0 |}
                Scenario.with_f1_f2 = Returns resp st' ∧ serving st' = true.
Proof.
  split; [reflexivity|].
  apply (service_answers_unless_dangling Scenario.with_f1_f2); [reflexivity|].
  right. intros uid m Hu.
  destruct (decide (uid = "u1")) as [->|Hne].
  - vm_compute in Hu. injection Hu as <-. eexists. vm_compute. reflexivity.
  - exfalso.
    assert (byFunctionUID Scenario.with_f1_f2 = {[ "u1" := Scenario.meta "f1" "u1" "1" ]})
      as Heq by (vm_compute; reflexivity).
    rewrite Heq, lookup_singleton_ne in Hu; done.
Defined.

(** X2: while [service] runs and every entry of the UID index leads to a
    record, [ListOld] returns, with a nil error and the cache as it was,
    exactly the records reached from the UID index whose [Atime] is more
    than [age] ago.  They are the cached records themselves, not copies. *)
Theorem ListOld_lists_the_aged st idle :
  serving st = true →
  (∀ uid m, byFunctionUID st !! uid = Some m → is_Some (byFunction st !! CacheKey m)) →
  ∃ objs, ListOld idle st = Returns (objs, None) st ∧
    ∀ p, p ∈ objs ↔
         ∃ uid m, byFunctionUID st !! uid = Some m ∧
                  byFunction st !! CacheKey m = Some p ∧
                  Time.Since (clock st) (Atime (deref st p)) > idle.
Proof.
  intros Hs Hres. unfold ListOld, bind, request, service_turn. rewrite Hs.
  cbn [requestType age].
  destruct (listOldScan_resolved st idle (cache.Copy (byFunctionUID st)) [])
    as (objs & -> & Hobjs).
  { intros uid m Hin. apply (Hres uid). by apply elem_of_map_to_list. }
  exists objs. split; [done|]. intros p. rewrite Hobjs.
  split; intros (uid & m & Hin & Hrest); exists uid, m; (split; [|done]);
    by apply elem_of_map_to_list.
Qed.

Lemma ListOld_lists_the_aged_witness :
  serving Scenario.with_f1 = true ∧
  ∃ objs, ListOld 0 (tick Scenario.second Scenario.with_f1)
          = Returns (objs, None) (tick Scenario.second Scenario.with_f1) ∧
          (0%nat ∈ objs ↔
           ∃ uid m, byFunctionUID (tick Scenario.second Scenario.with_f1) !! uid = Some m ∧
                    byFunction (tick Scenario.second Scenario.with_f1) !! CacheKey m
                      = Some 0%nat ∧
                    Time.Since (clock (tick Scenario.second Scenario.with_f1))
                      (Atime (deref (tick Scenario.second Scenario.with_f1) 0%nat)) > 0).
Proof.
  split; [reflexivity|].
  destruct (ListOld_lists_the_aged (tick Scenario.second Scenario.with_f1) 0)
    as (objs & Hrun & Hobjs).
  - reflexivity.
  - intros uid m Hu.
    assert (byFunctionUID (tick Scenario.second Scenario.with_f1)
            = {[ "u1" := Scenario.meta "f1" "u1" "1" ]}) as Heq
      by (vm_compute; reflexivity).
    rewrite Heq in Hu. apply lookup_singleton_Some in Hu as [_ <-].
    eexists. vm_compute. reflexivity.
  - exists objs. split; [exact Hrun | exact (Hobjs 0%nat)].
Defined.

(** Whatever the scan of LISTOLD ends with was reached from an entry of
    the UID index and is older than [age]. *)
Lemma listOldScan_sound st idle fscs acc r :
  listOldScan st idle fscs acc = inl r →
  ∃ objs, r = (acc ++ objs)%list ∧
    ∀ p, p ∈ objs →
         ∃ uid m, (uid, m) ∈ fscs ∧ byFunction st !! CacheKey m = Some p ∧
                  Time.Since (clock st) (Atime (deref st p)) > idle.
Proof.
  revert acc. induction fscs as [|[u m] rest IH]; intros acc; simpl.
  - intros [= <-]. exists []. rewrite app_nil_r. split; [done|].
    by intros p ?%not_elem_of_nil.
  - unfold cache.Get. destruct (byFunction st !! CacheKey m) as [q|] eqn:Hq; [|done].
    destruct (Time.Since (clock st) (Atime (deref st q)) >? idle) eqn:Hold; intros Hscan.
    + destruct (IH _ Hscan) as (objs & -> & Hobjs).
      exists (q :: objs). rewrite <- app_assoc. split; [done|].
      intros p [-> | Hp]%elem_of_cons.
      * exists u, m. split; [by left|]. split; [done|]. by apply Z.gtb_gt.
      * destruct (Hobjs p Hp) as (uid & m0 & Hin & Hrest).
        exists uid, m0. split; [by right|done].
    + destruct (IH _ Hscan) as (objs & -> & Hobjs).
      exists objs. split; [done|]. intros p Hp.
      destruct (Hobjs p Hp) as (uid & m0 & Hin & Hrest).
      exists uid, m0. split; [by right|done].
Qed.

(** What [ListOld] returns, when it returns. *)
Lemma ListOld_results_sound st idle objs e st' :
  ListOld idle st = Returns (objs, e) st' →
  st' = st ∧
  ∀ p, p ∈ objs →
       (∃ key, byFunction st !! key = Some p) ∧
       Time.Since (clock st) (Atime (deref st p)) > idle.
Proof.
  unfold ListOld, bind, request, service_turn.
  destruct (serving st); [|done]. cbn [requestType age].
  destruct (listOldScan st idle (cache.Copy (byFunctionUID st)) []) as [r|err] eqn:Hscan;
    [|done].
  cbn. intros [= <- <- <-]. split; [done|].
  destruct (listOldScan_sound _ _ _ _ _ Hscan) as (objs & -> & Hobjs).
  intros p Hp. destruct (Hobjs p Hp) as (uid & m & _ & Hf & Hage). eauto.
Qed.

(** X3: [ListOld] never hands its caller an error and never changes the
    cache: whenever it returns, the error is nil, the state is the one it
    was called in, and every record returned is bound in [byFunction] and
    was last accessed more than [age] ago. *)
Theorem ListOld_never_errs st idle objs e st' :
  ListOld idle st = Returns (objs, e) st' →
  e = None ∧ st' = st ∧
  ∀ p, p ∈ objs →
       (∃ key, byFunction st !! key = Some p) ∧
       Time.Since (clock st) (Atime (deref st p)) > idle.
Proof.
  unfold ListOld, bind, request, service_turn.
  destruct (serving st); [|done]. cbn [requestType age].
  destruct (listOldScan st idle (cache.Copy (byFunctionUID st)) []) as [r|err] eqn:Hscan;
    [|done].
  cbn. intros [= <- <- <-]. split; [done|]. split; [done|].
  destruct (listOldScan_sound _ _ _ _ _ Hscan) as (objs & -> & Hobjs).
  intros p Hp. destruct (Hobjs p Hp) as (uid & m & _ & Hf & Hage). eauto.
Qed.

Lemma ListOld_never_errs_witness :
  ListOld 0 (tick Scenario.second Scenario.with_f1)
    = Returns ([0%nat], None) (tick Scenario.second Scenario.with_f1) ∧
  (∃ key, byFunction (tick Scenario.second Scenario.with_f1) !! key = Some 0%nat).
Proof.
  assert (ListOld 0 (tick Scenario.second Scenario.with_f1)
          = Returns ([0%nat], None) (tick Scenario.second Scenario.with_f1)) as Hrun
    by (vm_compute; reflexivity).
  split; [exact Hrun|].
  destruct (ListOld_never_errs _ _ _ _ _ Hrun) as (_ & _ & Hobjs).
  apply (Hobjs 0%nat). by left.
Defined.

(** X4: what [ListOld] returns is shared with the cache: a caller that
    writes through a returned pointer changes the cached record, and the
    next [GetByFunction] of its function returns what was written (with
    the [Atime] of that lookup). *)
Theorem ListOld_results_are_shared st idle objs e st' p :
  ListOld idle st = Returns (objs, e) st' → p ∈ objs →
  ∃ key, byFunction st' !! key = Some p ∧
    ∀ m written, CacheKey m = key →
      returned (GetByFunction (Some m) (store p written st'))
        = Some (with_Atime (clock st') written).
Proof.
  intros Hrun Hp.
  destruct (ListOld_results_sound st idle objs e st' Hrun) as (-> & Hobjs).
  destruct (Hobjs p Hp) as [[key Hkey] _].
  exists key. split; [done|]. intros m written <-.
  rewrite (GetByFunction_found _ m p) by done.
  rewrite found_effect. cbn zeta. unfold returned.
  by rewrite !deref_store_eq.
Qed.

Lemma ListOld_results_are_shared_witness :
  ListOld 0 (tick Scenario.second Scenario.with_f1)
    = Returns ([0%nat], None) (tick Scenario.second Scenario.with_f1) ∧
  ∃ key, byFunction (tick Scenario.second Scenario.with_f1) !! key = Some 0%nat.
Proof.
  assert (ListOld 0 (tick Scenario.second Scenario.with_f1)
          = Returns ([0%nat], None) (tick Scenario.second Scenario.with_f1)) as Hrun
    by (vm_compute; reflexivity).
  split; [exact Hrun|].
  destruct (ListOld_results_are_shared _ _ _ _ _ 0%nat Hrun) as (key & Hkey & _).
  - by left.
  - by exists key.
Defined.

(** ** Touch and lookups *)

(** X5: while [service] runs, [TouchByAddress] on an address that
    [byAddress] resolves to a record of [byFunction] sets the [Atime] of
    that record to the clock and changes nothing else: no other field, no
    other record, no index. *)
Theorem TouchByAddress_refreshes_only_Atime st a m p :
  serving st = true →
  byAddress st !! a = Some m → byFunction st !! CacheKey m = Some p →
  ∃ st', TouchByAddress a st = Returns None st' ∧
    deref st' p = with_Atime (clock st) (deref st p) ∧
    (∀ q, q ≠ p → heap st' !! q = heap st !! q) ∧
    byFunction st' = byFunction st ∧ byAddress st' = byAddress st ∧
    byFunctionUID st' = byFunctionUID st ∧
    connFunctionCache st' = connFunctionCache st ∧ clock st' = clock st.
Proof.
  intros Hs Ha Hf. rewrite TouchByAddress_serving by done.
  rewrite (_touchByAddress_hit st a m p Ha Hf).
  eexists. split; [done|]. rewrite deref_store_eq. repeat apply conj; try done.
  intros q Hq. unfold store. cbn. by rewrite lookup_insert_ne.
Qed.

Lemma TouchByAddress_refreshes_only_Atime_witness :
  byAddress Scenario.with_f1 !! "10.0.0.1:8080" = Some (Scenario.meta "f1" "u1" "1") ∧
  ∃ st', TouchByAddress "10.0.0.1:8080" (tick 7 Scenario.with_f1) = Returns None st' ∧
         deref st' 0%nat = with_Atime 7 (deref (tick 7 Scenario.with_f1) 0%nat).
Proof.
  split; [vm_compute; reflexivity|].
  destruct (TouchByAddress_refreshes_only_Atime (tick 7 Scenario.with_f1)
              "10.0.0.1:8080" (Scenario.meta "f1" "u1" "1") 0%nat)
    as (st' & Hrun & Hd & _).
  - reflexivity.
  - vm_compute; reflexivity.
  - vm_compute; reflexivity.
  - exists st'. split; [exact Hrun | exact Hd].
Defined.

(** X6: while [service] runs, [TouchByAddress] on an address that is not
    in [byAddress], or whose function has no key in [byFunction], returns
    a NotFound error and leaves the whole state as it was. *)
Theorem TouchByAddress_unknown_address st a :
  serving st = true →
  (byAddress st !! a = None ∨
   ∃ m, byAddress st !! a = Some m ∧ byFunction st !! CacheKey m = None) →
  ∃ err, TouchByAddress a st = Returns (Some err) st ∧ IsNotFoundError err = true.
Proof.
  intros Hs Hmiss. rewrite TouchByAddress_serving by done.
  by apply _touchByAddress_miss.
Qed.

Lemma TouchByAddress_unknown_address_witness :
  byAddress Scenario.with_f1 !! "10.9.9.9:8080" = None ∧
  ∃ err, TouchByAddress "10.9.9.9:8080" Scenario.with_f1
         = Returns (Some err) Scenario.with_f1 ∧ IsNotFoundError err = true.
Proof.
  split; [vm_compute; reflexivity|].
  apply (TouchByAddress_unknown_address Scenario.with_f1 "10.9.9.9:8080");
    [reflexivity|].
  left. vm_compute. reflexivity.
Defined.

(** X7: a lookup that finds nothing fails with NotFound and changes
    nothing: [GetByFunction] of a function whose key is not bound, and
    [GetByFunctionUID] of a UID that is not bound or whose function has no
    key in [byFunction]. *)
Theorem lookups_of_absent_keys st :
  (∀ m, byFunction st !! CacheKey m = None →
        ∃ err, GetByFunction (Some m) st = Returns (None, Some err) st ∧
               IsNotFoundError err = true) ∧
  (∀ uid, (byFunctionUID st !! uid = None ∨
           ∃ m, byFunctionUID st !! uid = Some m ∧ byFunction st !! CacheKey m = None) →
          ∃ err, GetByFunctionUID uid st = Returns (None, Some err) st ∧
                 IsNotFoundError err = true).
Proof.
  split.
  - intros m Hf. unfold GetByFunction, bind, CacheKeyPtr, ret, get, cache.Get.
    rewrite Hf. eauto.
  - intros uid [Hu|(m & Hu & Hf)]; unfold GetByFunctionUID, bind, get, cache.Get;
      rewrite Hu; [|rewrite Hf]; eauto.
Qed.

Lemma lookups_of_absent_keys_witness :
  byFunction Scenario.with_f1_f2 !! CacheKey (Scenario.meta "f3" "u3" "1") = None ∧
  byFunctionUID Scenario.with_f1_f2 !! "u2" = None ∧
  (∃ err, GetByFunction (Some (Scenario.meta "f3" "u3" "1")) Scenario.with_f1_f2
          = Returns (None, Some err) Scenario.with_f1_f2 ∧ IsNotFoundError err = true) ∧
  (∃ err, GetByFunctionUID "u2" Scenario.with_f1_f2
          = Returns (None, Some err) Scenario.with_f1_f2 ∧ IsNotFoundError err = true).
Proof.
  assert (byFunction Scenario.with_f1_f2 !! CacheKey (Scenario.meta "f3" "u3" "1") = None)
    as Hf by (vm_compute; reflexivity).
  assert (byFunctionUID Scenario.with_f1_f2 !! "u2" = None) as Hu
    by (vm_compute; reflexivity).
  destruct (lookups_of_absent_keys Scenario.with_f1_f2) as [Hget Huid].
  split; [exact Hf|]. split; [exact Hu|].
  split; [exact (Hget _ Hf) | exact (Huid "u2" (or_introl Hu))].
Defined.

(** ** Add composed with the other operations *)

(** X8: a record added under a fresh function key is found again by
    [GetByFunction], whatever the other indices hold: the lookup returns
    the record as it was passed, with [Ctime] the time of the [Add] and
    [Atime] the time of the lookup. *)
Theorem Add_then_GetByFunction st fsvc m d :
  Function fsvc = Some m → byFunction st !! CacheKey m = None →
  ∃ st1, Add fsvc st = Returns (None, None) st1 ∧
    returned (GetByFunction (Some m) (tick d st1))
      = Some (with_Atime (clock st + d) (with_Ctime (clock st) fsvc)).
Proof.
  intros Hm Hkey.
  destruct (Add_fresh st fsvc m Hm Hkey) as (st1 & Hrun & Hbf & Hh & _ & _ & _ & _ & Hc).
  exists st1. split; [done|].
  rewrite (GetByFunction_found _ m (new_loc st)).
  2: { cbn. by rewrite Hbf, lookup_insert_eq. }
  rewrite found_effect. cbn zeta. unfold returned. rewrite deref_store_eq.
  unfold deref. cbn. by rewrite Hh, Hc, lookup_total_insert_eq.
Qed.

Lemma Add_then_GetByFunction_witness :
  byFunction Scenario.empty !! CacheKey (Scenario.meta "f1" "u1" "1") = None ∧
  ∃ st1, Add Scenario.f1 Scenario.empty = Returns (None, None) st1 ∧
    returned (GetByFunction (Some (Scenario.meta "f1" "u1" "1")) (tick 9 st1))
      = Some (with_Atime (clock Scenario.empty + 9) (with_Ctime (clock Scenario.empty) Scenario.f1)).
Proof.
  split; [reflexivity|].
  exact (Add_then_GetByFunction Scenario.empty Scenario.f1
           (Scenario.meta "f1" "u1" "1") 9 eq_refl eq_refl).
Defined.

(** X9: a record added under a fresh function key, on an address and a UID
    that the derived indices do not hold yet, is found again by
    [GetByFunctionUID] of its UID. *)
Theorem Add_then_GetByFunctionUID st fsvc m d :
  Function fsvc = Some m → byFunction st !! CacheKey m = None →
  byAddress st !! Address fsvc = None → byFunctionUID st !! UID m = None →
  ∃ st1, Add fsvc st = Returns (None, None) st1 ∧
    returned (GetByFunctionUID (UID m) (tick d st1))
      = Some (with_Atime (clock st + d) (with_Ctime (clock st) fsvc)).
Proof.
  intros Hm Hkey Ha Hu.
  destruct (Add_fresh st fsvc m Hm Hkey) as (st1 & Hrun & Hbf & Hh & _ & Hbu & _ & _ & Hc).
  rewrite Ha, Hu in Hbu.
  exists st1. split; [done|].
  rewrite (GetByFunctionUID_found _ (UID m) m (new_loc st)).
  2: { cbn. by rewrite Hbu, lookup_insert_eq. }
  2: { cbn. by rewrite Hbf, lookup_insert_eq. }
  rewrite found_effect. cbn zeta. unfold returned. rewrite deref_store_eq.
  unfold deref. cbn. by rewrite Hh, Hc, lookup_total_insert_eq.
Qed.

Lemma Add_then_GetByFunctionUID_witness :
  byFunction Scenario.empty !! CacheKey (Scenario.meta "f1" "u1" "1") = None ∧
  ∃ st1, Add Scenario.f1 Scenario.empty = Returns (None, None) st1 ∧
    returned (GetByFunctionUID (UID (Scenario.meta "f1" "u1" "1")) (tick 9 st1))
      = Some (with_Atime (clock Scenario.empty + 9) (with_Ctime (clock Scenario.empty) Scenario.f1)).
Proof.
  split; [reflexivity|].
  exact (Add_then_GetByFunctionUID Scenario.empty Scenario.f1
           (Scenario.meta "f1" "u1" "1") 9 eq_refl eq_refl eq_refl eq_refl).
Defined.

(** X10: [Add] followed by [DeleteEntry] of the record stored is a round
    trip on the indices: when the function key, the address and the UID
    were all unbound, the three indices are again exactly what they
    were. *)
Theorem Add_then_DeleteEntry_restores faults st fsvc m :
  Function fsvc = Some m → byFunction st !! CacheKey m = None →
  byAddress st !! Address fsvc = None → byFunctionUID st !! UID m = None →
  ∃ st1 p st2, Add fsvc st = Returns (None, None) st1 ∧
    byFunction st1 !! CacheKey m = Some p ∧
    DeleteEntry faults p st1 = Returns tt st2 ∧
    byFunction st2 = byFunction st ∧ byAddress st2 = byAddress st ∧
    byFunctionUID st2 = byFunctionUID st.
Proof.
  intros Hm Hkey Ha Hu.
  destruct (Add_fresh st fsvc m Hm Hkey) as (st1 & Hrun & Hbf & Hh & Hba & Hbu & _).
  rewrite Ha in Hba. rewrite Ha, Hu in Hbu.
  assert (deref st1 (new_loc st) = with_Atime (clock st) (with_Ctime (clock st) fsvc)) as Hd.
  { unfold deref. by rewrite Hh, lookup_total_insert_eq. }
  destruct (DeleteEntry_effect faults st1 (new_loc st) m)
    as (st2 & Hdel & Hf2 & Ha2 & Hu2 & _).
  { by rewrite Hd. }
  exists st1, (new_loc st), st2. repeat apply conj; try done.
  - by rewrite Hbf, lookup_insert_eq.
  - by rewrite Hf2, Hbf, delete_insert_id.
  - rewrite Ha2, Hd, Hba. cbn. by rewrite delete_insert_id.
  - by rewrite Hu2, Hbu, delete_insert_id.
Qed.

Lemma Add_then_DeleteEntry_restores_witness :
  byFunction Scenario.empty !! CacheKey (Scenario.meta "f1" "u1" "1") = None ∧
  ∃ st1 p st2, Add Scenario.f1 Scenario.empty = Returns (None, None) st1 ∧
    byFunction st1 !! CacheKey (Scenario.meta "f1" "u1" "1") = Some p ∧
    DeleteEntry Scenario.report_missing p st1 = Returns tt st2 ∧
    byFunction st2 = byFunction Scenario.empty ∧ byAddress st2 = byAddress Scenario.empty ∧
    byFunctionUID st2 = byFunctionUID Scenario.empty.
Proof.
  split; [reflexivity|].
  exact (Add_then_DeleteEntry_restores Scenario.report_missing Scenario.empty Scenario.f1
           (Scenario.meta "f1" "u1" "1") eq_refl eq_refl eq_refl eq_refl).
Defined.

(** X11: adding the same function twice stores it once: after an [Add]
    under a fresh function key and a fresh address, a second [Add] of any
    record with the same function key returns a copy of the first record,
    with its [Atime] moved to the time of the second call, and leaves
    [byFunction] as the first call left it. *)
Theorem Add_twice_returns_first st fsvc m fsvc2 m2 d :
  serving st = true →
  Function fsvc = Some m → byFunction st !! CacheKey m = None →
  byAddress st !! Address fsvc = None →
  Function fsvc2 = Some m2 → CacheKey m2 = CacheKey m →
  ∃ st1 q st2, Add fsvc st = Returns (None, None) st1 ∧
    Add fsvc2 (tick d st1) = Returns (Some q, None) st2 ∧
    deref st2 q = with_Atime (clock st + d) (with_Ctime (clock st) fsvc) ∧
    byFunction st2 = byFunction st1.
Proof.
  intros Hs Hm Hkey Ha Hm2 Hk2.
  destruct (Add_fresh st fsvc m Hm Hkey)
    as (st1 & Hrun & Hbf & Hh & Hba & _ & _ & Hs1 & Hc).
  rewrite Ha in Hba. set (p := new_loc st) in *.
  set (s := tick d st1).
  assert (heap s !! p = Some (with_Atime (clock st) (with_Ctime (clock st) fsvc))) as Hp.
  { cbn. by rewrite Hh, lookup_insert_eq. }
  assert (deref s p = with_Atime (clock st) (with_Ctime (clock st) fsvc)) as Hd.
  { unfold deref. by rewrite (lookup_total_correct _ _ _ Hp). }
  assert (byFunction s !! CacheKey m2 = Some p) as Hf.
  { cbn. by rewrite Hk2, Hbf, lookup_insert_eq. }
  assert (∃ q st2, Add fsvc2 s = Returns (Some q, None) st2 ∧
            deref st2 q = with_Atime (clock st + d) (with_Ctime (clock st) fsvc) ∧
            byFunction st2 = byFunction st1) as (q & st2 & Hrun2 & Hq & Hbf2).
  { rewrite (Add_existing s fsvc2 m2 p Hm2 Hf) by eauto. cbn zeta.
    rewrite TouchByAddress_serving by (cbn; congruence).
    set (s0 := store (new_loc s) fsvc2 s).
    assert (new_loc s ≠ p) as Hne by (apply new_loc_ne; eauto).
    rewrite (_touchByAddress_hit s0 _ m p).
    2: { rewrite Hd. cbn. by rewrite Hba, lookup_insert_eq. }
    2: { cbn. by rewrite Hbf, lookup_insert_eq. }
    eexists _, _. split; [done|].
    rewrite !deref_store_eq. split; [|done].
    assert (deref s0 p = deref s p) as -> by (by apply deref_store_ne).
    rewrite Hd. cbn. by rewrite Hc. }
  by exists st1, q, st2.
Qed.

Lemma Add_twice_returns_first_witness :
  byFunction Scenario.empty !! CacheKey (Scenario.meta "f1" "u1" "1") = None ∧
  ∃ st1 q st2, Add Scenario.f1 Scenario.empty = Returns (None, None) st1 ∧
    Add (Scenario.svc "f1" "u1" "1" "10.0.0.2") (tick 5 st1) = Returns (Some q, None) st2 ∧
    deref st2 q = with_Atime (clock Scenario.empty + 5)
                    (with_Ctime (clock Scenario.empty) Scenario.f1) ∧
    byFunction st2 = byFunction st1.
Proof.
  split; [reflexivity|].
  exact (Add_twice_returns_first Scenario.empty Scenario.f1 (Scenario.meta "f1" "u1" "1")
           (Scenario.svc "f1" "u1" "1" "10.0.0.2") (Scenario.meta "f1" "u1" "1") 5
           eq_refl eq_refl eq_refl eq_refl eq_refl eq_refl).
Defined.

(** *** Computations that keep the indices *)

Lemma same_indices_refl st : same_indices st st.
Proof. done. Qed.

Lemma same_indices_trans st1 st2 st3 :
  same_indices st1 st2 → same_indices st2 st3 → same_indices st1 st3.
Proof. intros (? & ? & ? & ?) (? & ? & ? & ?). repeat split; congruence. Qed.

Lemma keeps_read {A} (F : State → A) : keeps_indices (fun st => Returns (F st) st).
Proof. intros st st' [= <-]. apply same_indices_refl. Qed.

Lemma keeps_panic {A} : keeps_indices (@panic A).
Proof. intros st st' [=]. Qed.

Lemma keeps_bind {A B} (m : M A) (k : A → M B) :
  keeps_indices m → (∀ a, keeps_indices (k a)) → keeps_indices (bind m k).
Proof.
  intros Hm Hk st st'. unfold bind.
  destruct (m st) as [a st1|st1|] eqn:Hrun; cbn.
  - intros Hafter. eapply same_indices_trans; [|by eapply Hk].
    apply Hm. by rewrite Hrun.
  - intros [= <-]. apply Hm. by rewrite Hrun.
  - done.
Qed.

Lemma keeps_heap_update {A} (a : A) (h : State → gmap loc FuncSvc) :
  keeps_indices (fun st => Returns a (set_heap (h st) st)).
Proof. intros st st' [= <-]. done. Qed.

Lemma keeps_set_Atime p t : keeps_indices (set_Atime p t).
Proof. intros st st' [= <-]. done. Qed.

Lemma keeps_copy p : keeps_indices (copy p).
Proof. intros st st' [= <-]. done. Qed.

Lemma keeps_log lvl msg fs e : keeps_indices (modify (log lvl msg fs e)).
Proof. intros st st' [= <-]. done. Qed.

Lemma keeps_found p : keeps_indices (found p).
Proof.
  unfold found. apply keeps_bind; [apply (keeps_read clock)|].
  intros now. apply keeps_bind; [apply keeps_set_Atime|].
  intros _. apply keeps_bind; [apply keeps_copy|].
  intros q. apply (keeps_read (fun _ => _)).
Qed.

Lemma keeps_touch a : keeps_indices (_touchByAddress a).
Proof.
  unfold _touchByAddress. apply keeps_bind; [apply (keeps_read _)|].
  intros [m|err]; [|apply (keeps_read (fun _ => _))].
  apply keeps_bind; [apply (keeps_read _)|].
  intros [p|err]; [|apply (keeps_read (fun _ => _))].
  apply keeps_bind; [apply (keeps_read clock)|].
  intros now. apply keeps_bind; [apply keeps_set_Atime|].
  intros _. apply (keeps_read (fun _ => _)).
Qed.

Lemma keeps_request req : keeps_indices (request req).
Proof.
  intros st st'. unfold request.
  destruct (serving st); [|by intros [= <-]].
  unfold service_turn. destruct (requestType req).
  - destruct (_touchByAddress_returns st (address req)) as (e & s & Hrun).
    rewrite Hrun. cbn. intros [= <-].
    apply (keeps_touch (address req) st). by rewrite Hrun.
  - destruct (listOldScan _ _ _ _); cbn; intros [= <-]; by repeat split.
  - cbn. intros [= <-]. by repeat split.
  - cbn. intros [= <-]. by repeat split.
Qed.

Lemma keeps_TouchByAddress a : keeps_indices (TouchByAddress a).
Proof.
  unfold TouchByAddress. apply keeps_bind; [apply keeps_request|].
  intros resp. apply (keeps_read (fun _ => _)).
Qed.

(** X12: [Add] never takes anything away: whether it stores the record,
    finds the key bound, fails or is left waiting, every binding of
    [byFunction], [byAddress] and [byFunctionUID] is still there with the
    value it had, the pool is untouched, and every record there was is
    still allocated with the [Ctime] it had. *)
Theorem Add_never_unbinds st fsvc st' :
  after (Add fsvc st) = Some st' →
  (∀ k p, byFunction st !! k = Some p → byFunction st' !! k = Some p) ∧
  (∀ a m, byAddress st !! a = Some m → byAddress st' !! a = Some m) ∧
  (∀ u m, byFunctionUID st !! u = Some m → byFunctionUID st' !! u = Some m) ∧
  connFunctionCache st' = connFunctionCache st.
Proof.
  intros Hafter.
  destruct (Function fsvc) as [m|] eqn:Hm.
  2: { unfold Add, bind, CacheKeyPtr in Hafter. rewrite Hm in Hafter. done. }
  destruct (byFunction st !! CacheKey m) as [p|] eqn:Hkey.
  - assert (same_indices st st') as (-> & -> & -> & ->); [|done].
    revert Hafter.
    unfold Add, bind at 1 2 3, CacheKeyPtr, addr_of, byFunction_Set, cache.Set_.
    rewrite Hm. cbn [ret alloc].
    set (st0 := store (new_loc st) fsvc st).
    assert (byFunction st0 = byFunction st) as -> by done. rewrite Hkey.
    cbn [IsNameExistError]. rewrite bool_decide_eq_true_2 by done.
    assert (set_byFunction (byFunction st) st0 = st0) as -> by (by destruct st).
    intros Hafter.
    assert (same_indices st st0) as H0 by done.
    eapply same_indices_trans; [exact H0|]. revert Hafter.
    apply (keeps_bind (get (fun st => Address (deref st p)))); [apply (keeps_read _)|].
    intros a. apply keeps_bind; [apply keeps_TouchByAddress|].
    intros [e|]; [apply (keeps_read (fun _ => _))|].
    apply keeps_bind; [apply keeps_copy|]. intros q. apply (keeps_read (fun _ => _)).
  - destruct (Add_fresh st fsvc m Hm Hkey)
      as (st'' & Hrun & Hbf & _ & Hba & Hbu & Hpool & _).
    rewrite Hrun in Hafter. injection Hafter as <-.
    rewrite Hbf, Hba, Hbu. repeat apply conj; try done.
    + intros k p Hk. rewrite lookup_insert_ne; [done|]. congruence.
    + intros a m0 Ha. destruct (byAddress st !! Address fsvc) eqn:Haddr; [done|].
      rewrite lookup_insert_ne; [done|]. congruence.
    + intros u m0 Hu. destruct (byAddress st !! Address fsvc); [done|].
      destruct (byFunctionUID st !! UID m) eqn:Huid; [done|].
      rewrite lookup_insert_ne; [done|]. congruence.
Qed.

Lemma Add_never_unbinds_witness :
  after (Add Scenario.f2 Scenario.with_f1) = Some Scenario.with_f1_f2 ∧
  byFunction Scenario.with_f1_f2 !! "default_f1_1" = Some 0%nat.
Proof.
  assert (after (Add Scenario.f2 Scenario.with_f1) = Some Scenario.with_f1_f2) as Hafter
    by (vm_compute; reflexivity).
  split; [exact Hafter|].
  destruct (Add_never_unbinds _ _ _ Hafter) as (Hbf & _).
  apply Hbf. vm_compute. reflexivity.
Defined.

Lemma keeps_GetByFunction m : keeps_indices (GetByFunction m).
Proof.
  unfold GetByFunction. apply keeps_bind.
  { destruct m; [apply (keeps_read (fun _ => _))|apply keeps_panic]. }
  intros key. apply keeps_bind; [apply (keeps_read _)|].
  intros [p|err]; [apply keeps_found|apply (keeps_read (fun _ => _))].
Qed.

Lemma keeps_GetByFunctionUID uid : keeps_indices (GetByFunctionUID uid).
Proof.
  unfold GetByFunctionUID. apply keeps_bind; [apply (keeps_read _)|].
  intros [m|err]; [|apply (keeps_read (fun _ => _))].
  apply keeps_bind; [apply (keeps_read _)|].
  intros [p|err]; [apply keeps_found|apply (keeps_read (fun _ => _))].
Qed.

Lemma keeps_dumpData env data fs : keeps_indices (dumpData env data fs).
Proof.
  unfold dumpData. apply keeps_bind; [apply keeps_log|]. intros _.
  destruct (stat_error env); [apply (keeps_read (fun _ => _))|].
  case_bool_decide; [apply (keeps_read (fun _ => _))|].
  destruct (mkdir_error env); apply (keeps_read (fun _ => _)).
Qed.

Lemma keeps_DumpFnSvcCache env fs : keeps_indices (DumpFnSvcCache env fs).
Proof.
  unfold DumpFnSvcCache. apply keeps_bind; [apply keeps_log|]. intros _.
  apply keeps_bind; [apply (keeps_read _)|]. intros groups.
  case_bool_decide; [apply (keeps_read (fun _ => _))|].
  apply keeps_bind; [apply keeps_log|]. intros _.
  apply keeps_bind.
  { intros st st'. destruct (dumpInfo st groups); [|done]. by intros [= <-]. }
  intros info. apply keeps_bind; [apply keeps_log|]. intros _.
  apply keeps_bind; [apply keeps_dumpData|].
  intros [[err|] fs']; (apply keeps_bind; [apply keeps_log|]);
    intros _; apply (keeps_read (fun _ => _)).
Qed.

(** X13: the read paths leave the three indices and the pool exactly as
    they are, whether they return or are left waiting: [GetByFunction],
    [GetByFunctionUID], [TouchByAddress], [ListOld], [ListOldForPool],
    [Log] and [DumpFnSvcCache] bind, rebind and unbind nothing. *)
Theorem reads_keep_indices :
  (∀ m, keeps_indices (GetByFunction m)) ∧
  (∀ uid, keeps_indices (GetByFunctionUID uid)) ∧
  (∀ a, keeps_indices (TouchByAddress a)) ∧
  (∀ idle, keeps_indices (ListOld idle)) ∧
  (∀ idle, keeps_indices (ListOldForPool idle)) ∧
  keeps_indices Log ∧
  (∀ env fs, keeps_indices (DumpFnSvcCache env fs)).
Proof.
  repeat apply conj.
  - apply keeps_GetByFunction.
  - apply keeps_GetByFunctionUID.
  - apply keeps_TouchByAddress.
  - intros idle. unfold ListOld. apply keeps_bind; [apply keeps_request|].
    intros resp. apply (keeps_read (fun _ => _)).
  - intros idle. unfold ListOldForPool. apply keeps_bind; [apply keeps_request|].
    intros resp. apply (keeps_read (fun _ => _)).
  - unfold Log. apply keeps_bind; [apply keeps_log|]. intros _.
    apply keeps_bind; [apply keeps_request|]. intros _. apply keeps_log.
  - apply keeps_DumpFnSvcCache.
Qed.

(** ** Removal composed *)

(** X14: [DeleteEntry] does not notice that a record is already gone: a
    second call on the same record leaves the indices as the first call
    left them, but observes the same lifetime on the summary once more. *)
Theorem DeleteEntry_twice_observes_twice faults st fsvc m :
  Function (deref st fsvc) = Some m →
  ∃ st1 st2, DeleteEntry faults fsvc st = Returns tt st1 ∧
    DeleteEntry faults fsvc st1 = Returns tt st2 ∧
    byFunction st2 = byFunction st1 ∧ byAddress st2 = byAddress st1 ∧
    byFunctionUID st2 = byFunctionUID st1 ∧
    ∃ o, function_name o = Name m ∧ function_namespace o = Namespace m ∧
         observed o = Time.Seconds (Time.Sub (Atime (deref st fsvc)) (Ctime (deref st fsvc))) ∧
         FuncRunningSummary st2 = (FuncRunningSummary st ++ [o; o])%list.
Proof.
  intros Hm.
  destruct (DeleteEntry_effect faults st fsvc m Hm)
    as (st1 & Hrun1 & Hf1 & Ha1 & Hu1 & Ho1 & _ & Hh1 & _).
  assert (deref st1 fsvc = deref st fsvc) as Hd by (unfold deref; by rewrite Hh1).
  destruct (DeleteEntry_effect faults st1 fsvc m)
    as (st2 & Hrun2 & Hf2 & Ha2 & Hu2 & Ho2 & _); [by rewrite Hd|].
  exists st1, st2. repeat apply conj; try done.
  - by rewrite Hf2, Hf1, delete_delete_eq.
  - by rewrite Ha2, Hd, Ha1, delete_delete_eq.
  - by rewrite Hu2, Hu1, delete_delete_eq.
  - eexists. repeat apply conj; [..|rewrite Ho2, Ho1, Hd, <- app_assoc; reflexivity];
      done.
Qed.

Lemma DeleteEntry_twice_observes_twice_witness :
  Function (deref Scenario.with_f1 0%nat) = Some (Scenario.meta "f1" "u1" "1") ∧
  ∃ st1 st2, DeleteEntry Scenario.no_faults 0%nat Scenario.with_f1 = Returns tt st1 ∧
    DeleteEntry Scenario.no_faults 0%nat st1 = Returns tt st2 ∧
    byFunction st2 = byFunction st1.
Proof.
  split; [reflexivity|].
  destruct (DeleteEntry_twice_observes_twice Scenario.no_faults Scenario.with_f1 0%nat
              (Scenario.meta "f1" "u1" "1") eq_refl)
    as (st1 & st2 & H1 & H2 & Hf & _).
  exists st1, st2. split; [exact H1|]. split; [exact H2 | exact Hf].
Defined.

Lemma Since_monotone now later t : now ≤ later → Time.Since now t ≤ Time.Since later t.
Proof. unfold Time.Since, Time.Sub. lia. Qed.

(** X15: the sweep composes: every record [ListOld] returns for an age is
    removed by [DeleteOld] with the same age, at once or any time later
    ([ListOld] keeps what is strictly older, [DeleteOld] spares what is
    strictly younger). *)
Theorem ListOld_then_DeleteOld faults st idle objs e st' p m d :
  ListOld idle st = Returns (objs, e) st' → p ∈ objs →
  Function (deref st p) = Some m → 0 ≤ d →
  ∃ st'', DeleteOld faults p idle (tick d st') = Returns (true, None) st'' ∧
    byFunction st'' !! CacheKey m = None ∧
    byAddress st'' !! Address (deref st p) = None ∧
    byFunctionUID st'' !! UID m = None.
Proof.
  intros Hrun Hp Hm Hd.
  destruct (ListOld_results_sound st idle objs e st' Hrun) as (-> & Hobjs).
  destruct (Hobjs p Hp) as [_ Hage].
  assert (deref (tick d st) p = deref st p) as Hdr by done.
  destruct (DeleteEntry_effect faults (tick d st) p m)
    as (st'' & Hdel & Hf & Ha & Hu & _); [by rewrite Hdr|].
  exists st''. unfold DeleteOld, bind, Now, get. cbn beta iota.
  assert ((Time.Since (clock (tick d st)) (Atime (deref (tick d st) p)) <? idle) = false)
    as ->.
  { apply Z.ltb_ge. rewrite Hdr.
    pose proof (Since_monotone (clock st) (clock (tick d st)) (Atime (deref st p))) as Hmono.
    cbn in Hmono. cbn. lia. }
  rewrite Hdel. cbn. rewrite Hf, Ha, Hu, Hdr, !lookup_delete_eq. done.
Qed.

Lemma ListOld_then_DeleteOld_witness :
  ListOld 0 (tick Scenario.second Scenario.with_f1)
    = Returns ([0%nat], None) (tick Scenario.second Scenario.with_f1) ∧
  ∃ st'', DeleteOld Scenario.no_faults 0%nat 0 (tick 3 (tick Scenario.second Scenario.with_f1))
          = Returns (true, None) st'' ∧
          byFunction st'' !! CacheKey (Scenario.meta "f1" "u1" "1") = None.
Proof.
  assert (ListOld 0 (tick Scenario.second Scenario.with_f1)
          = Returns ([0%nat], None) (tick Scenario.second Scenario.with_f1)) as Hrun
    by (vm_compute; reflexivity).
  split; [exact Hrun|].
  destruct (ListOld_then_DeleteOld Scenario.no_faults _ _ _ _ _ 0%nat
              (Scenario.meta "f1" "u1" "1") 3 Hrun)
    as (st'' & Hdel & Hf & _).
  - by left.
  - reflexivity.
  - lia.
  - exists st''. split; [exact Hdel | exact Hf].
Defined.

(** ** Attributes once more *)

(** X16: [GetAttributesForFuncSvc] emits its keys in one fixed order
    (function-name, function-namespace, environment-name,
    environment-namespace, address), leaving out those that are absent: so
    it never emits a key twice and never more than five attributes. *)
Theorem GetAttributesForFuncSvc_keys_distinct (fsvc : option FuncSvc) :
  sublist (Key <$> GetAttributesForFuncSvc fsvc)
          ["function-name"; "function-namespace"; "environment-name";
           "environment-namespace"; "address"] ∧
  NoDup (Key <$> GetAttributesForFuncSvc fsvc) ∧
  (length (GetAttributesForFuncSvc fsvc) ≤ 5)%nat.
Proof.
  assert (sublist (Key <$> GetAttributesForFuncSvc fsvc)
            ["function-name"; "function-namespace"; "environment-name";
             "environment-namespace"; "address"]) as Hsub.
  { destruct fsvc as [f|]; [|apply sublist_nil_l].
    unfold GetAttributesForFuncSvc.
    destruct (Function f) as [fn|]; destruct (Env f) as [env|];
      case_bool_decide; cbn;
      repeat (first [apply sublist_nil | apply sublist_skip | apply sublist_cons]). }
  split; [exact Hsub|]. split.
  - eapply sublist_NoDup; [|exact Hsub].
    by apply (bool_decide_unpack _).
  - apply sublist_length in Hsub. by rewrite length_fmap in Hsub.
Qed.

(** ** The snapshot writer once more *)

Lemma dumpData_outcome env data fs st :
  ∃ r fs', dumpData env data fs st
           = Returns (r, fs') (log "debug" "started dumping data" [] None st) ∧
    ((r = None ∧ ∃ uid, NewV4 env = inl uid ∧
                        files fs' = <[dump_file uid := written data]> (files fs)) ∨
     (∃ msg, r = Some (MakeError ErrorInternal msg)) ∧ files fs' = files fs).
Proof.
  unfold dumpData, bind, modify, ret, writeData.
  destruct (stat_error env); [eauto 10|].
  case_bool_decide.
  - destruct (NewV4 env) as [uid|e]; [|eauto 10].
    destruct (create_error env); eauto 10.
  - destruct (mkdir_error env); [eauto 10|].
    destruct (NewV4 env) as [uid|e]; [|eauto 10].
    destruct (create_error env); eauto 10.
Qed.



Lemma split_lines_line str rest :
  has_newline str = false →
  split_lines (str ++ newline ++ rest) = str :: split_lines rest.
Proof.
  induction str as [|c str IH]; intros Hnl.
  - done.
  - cbn [has_newline] in Hnl. apply orb_false_iff in Hnl as [Hc Hstr].
    change (String c str ++ newline ++ rest) with (String c (str ++ newline ++ rest)).
    cbn [split_lines]. rewrite (IH Hstr).
    by destruct (Ascii.eqb c (Ascii.ascii_of_nat 10)).
Qed.

(** X18: the dump file reads back as the lines written: when no line
    contains a newline, splitting the contents of the file at the newlines
    gives the list of lines in order, one per group. *)
Theorem written_reads_back (data : list string) :
  Forall (fun str => has_newline str = false) data →
  split_lines (written data) = data.
Proof.
  induction 1 as [|str data Hstr _ IH]; [done|].
  cbn [written fold_right]. fold (written data).
  by rewrite split_lines_line, IH.
Qed.

Lemma written_reads_back_witness :
  Forall (fun str => has_newline str = false) ["svc_waiting:0"; "svc_waiting:1"] ∧
  split_lines (written ["svc_waiting:0"; "svc_waiting:1"])
    = ["svc_waiting:0"; "svc_waiting:1"].
Proof.
  assert (Forall (fun str => has_newline str = false) ["svc_waiting:0"; "svc_waiting:1"])
    as Hall by (repeat constructor).
  split; [exact Hall | exact (written_reads_back _ Hall)].
Defined.

Lemma hexdigit_inj a b :
  0 ≤ a < 16 → 0 ≤ b < 16 → hexdigit a = hexdigit b → a = b.
Proof.
  intros Ha Hb Heq. apply (f_equal Ascii.nat_of_ascii) in Heq.
  unfold hexdigit in Heq.
  destruct (a <? 10) eqn:Ha10; destruct (b <? 10) eqn:Hb10;
    rewrite !Ascii.nat_ascii_embedding in Heq by lia; lia.
Qed.

Lemma nibble_of_top32 u k :
  0 ≤ k < 8 → nibble u k = Z.land (Z.shiftr (top32 u) (4 * (7 - k))) 15.
Proof.
  intros Hk. unfold nibble, top32. apply Z.bits_inj'. intros i Hi.
  change 15 with (Z.ones 4).
  rewrite !Z.land_spec, !Z.shiftr_spec, Z.land_spec, Z.shiftr_spec by lia.
  destruct (decide (i < 4)) as [Hlt|Hge].
  - rewrite !Z.ones_spec_low by lia. rewrite !andb_true_r. f_equal. lia.
  - rewrite (Z.ones_spec_high 4) by lia. by rewrite !andb_false_r.
Qed.

Lemma top32_of_nibbles u v :
  (∀ k, 0 ≤ k < 8 → nibble u k = nibble v k) → top32 u = top32 v.
Proof.
  intros Hn. unfold top32. apply Z.bits_inj'. intros i Hi.
  rewrite !Z.land_spec, !Z.shiftr_spec by lia.
  destruct (decide (i < 32)) as [Hlt|Hge].
  2: { rewrite (Z.ones_spec_high 32) by lia. by rewrite !andb_false_r. }
  f_equal.
  assert (0 ≤ i / 4 < 8) as Hq
    by (split; [apply Z.div_pos; lia | apply Z.div_lt_upper_bound; lia]).
  assert (nibble u (7 - i / 4) = nibble v (7 - i / 4)) as Hk by (apply Hn; lia).
  apply (f_equal (fun x => Z.testbit x (i mod 4))) in Hk.
  unfold nibble in Hk. change 15 with (Z.ones 4) in Hk.
  assert (0 ≤ i mod 4 < 4) as Hj by (apply Z.mod_pos_bound; lia).
  rewrite !Z.land_spec, !Z.shiftr_spec, !Z.ones_spec_low, !andb_true_r in Hk by lia.
  assert (i mod 4 + 4 * (31 - (7 - i / 4)) = i + 96) as Hidx.
  { pose proof (Z.div_mod i 4). lia. }
  by rewrite Hidx in Hk.
Qed.

(** X19: only the first 32 bits of the UUID reach the name of the dump
    file: two UUIDs lead to the same file name exactly when they agree on
    those bits, whatever the other 96 bits are. *)
Theorem dump_file_depends_on_top32 u v :
  dump_file u = dump_file v ↔ top32 u = top32 v.
Proof.
  rewrite !dump_file_name. split.
  - intros Heq. cbn in Heq.
    injection Heq as H0 H1 H2 H3 H4 H5 H6 H7.
    apply top32_of_nibbles. intros k Hk.
    assert (k = 0 ∨ k = 1 ∨ k = 2 ∨ k = 3 ∨ k = 4 ∨ k = 5 ∨ k = 6 ∨ k = 7)
      as Hcases by lia.
    repeat (destruct Hcases as [->|Hcases]); try subst k;
      apply hexdigit_inj; try apply nibble_range; assumption.
  - intros Heq. cbn. rewrite !nibble_of_top32 by lia. by rewrite Heq.
Qed.

(** ** The pool side *)

(** X20: [AddFunc] puts the record in the pool and nowhere else: with a
    non-nil function it returns after storing, under the function key and
    the address, a new record equal to the one passed but for [Ctime] and
    [Atime], both set to the clock; [byFunction], [byAddress] and
    [byFunctionUID] are untouched, so the lookups of the indices do not
    see it. *)
Theorem AddFunc_stores_in_pool_only st fsvc m rpp :
  Function fsvc = Some m →
  ∃ st' g e, AddFunc fsvc rpp st = Returns tt st' ∧
    connFunctionCache st' !! CacheKey m = Some g ∧
    svcs g !! Address fsvc = Some e ∧
    heap st !! val e = None ∧
    deref st' (val e) = with_Atime (clock st) (with_Ctime (clock st) fsvc) ∧
    cpuLimit e = CPULimit fsvc ∧
    byFunction st' = byFunction st ∧ byAddress st' = byAddress st ∧
    byFunctionUID st' = byFunctionUID st.
Proof.
  intros Hm.
  unfold AddFunc, bind, CacheKeyPtr, addr_of, alloc, SetSvcValue, Now, set_Ctime,
    set_Atime, modify.
  rewrite Hm. cbn [ret]. cbn zeta.
  set (r := new_loc st).
  destruct (svcs (group_of (store r fsvc st) (CacheKey m)) !! Address fsvc) as [e0|];
    eexists _, _, _; (split; [reflexivity|]);
    unfold set_group, store, deref; cbn;
    rewrite !lookup_insert_eq; (split; [reflexivity|]); cbn;
    rewrite !lookup_insert_eq; (split; [reflexivity|]); cbn;
    rewrite !lookup_total_insert_eq;
    (split; [apply new_loc_fresh|]); done.
Qed.

Lemma AddFunc_stores_in_pool_only_witness :
  Function Scenario.f1 = Some (Scenario.meta "f1" "u1" "1") ∧
  ∃ st' g e, AddFunc Scenario.f1 1 Scenario.empty = Returns tt st' ∧
    connFunctionCache st' !! CacheKey (Scenario.meta "f1" "u1" "1") = Some g ∧
    svcs g !! Address Scenario.f1 = Some e ∧
    byFunction st' = byFunction Scenario.empty.
Proof.
  split; [reflexivity|].
  destruct (AddFunc_stores_in_pool_only Scenario.empty Scenario.f1
              (Scenario.meta "f1" "u1" "1") 1 eq_refl)
    as (st' & g & e & Hrun & Hg & He & _ & _ & _ & Hbf & _).
  exists st', g, e. split; [exact Hrun|]. split; [exact Hg|]. split; [exact He|exact Hbf].
Defined.

Lemma DeleteValue_effect key a st :
  ∃ err st', DeleteValue key a st = Returns err st' ∧
    (∀ g, connFunctionCache st' !! key = Some g → svcs g !! a = None) ∧
    (∀ k, k ≠ key → connFunctionCache st' !! k = connFunctionCache st !! k) ∧
    heap st' = heap st ∧ byFunction st' = byFunction st ∧
    byAddress st' = byAddress st ∧ byFunctionUID st' = byFunctionUID st ∧
    clock st' = clock st ∧ FuncRunningSummary st' = FuncRunningSummary st.
Proof.
  unfold DeleteValue.
  destruct (connFunctionCache st !! key) as [g|] eqn:Hg.
  - destruct (svcs g !! a) as [e|] eqn:He.
    + cbn zeta. destruct (_ && _); eexists _, _; (split; [reflexivity|]);
        repeat apply conj; try done.
      * intros g'. cbn. by rewrite lookup_delete_eq.
      * intros k Hk. cbn. by rewrite lookup_delete_ne.
      * intros g'. unfold set_group. cbn. rewrite lookup_insert_eq.
        intros [= <-]. cbn. by rewrite lookup_delete_eq.
      * intros k Hk. unfold set_group. cbn. by rewrite lookup_insert_ne.
    + eexists _, _. split; [reflexivity|]. repeat apply conj; try done.
      intros g'. rewrite Hg. by intros [= <-].
  - eexists _, _. split; [reflexivity|]. repeat apply conj; try done.
    intros g'. by rewrite Hg.
Qed.

(** X21: [DeleteOldPoolCache] on a record whose [Atime] is less than
    [minAge] ago returns (false, nil) and leaves the state as it is;
    otherwise it returns (true, nil), also when the pool had no such entry,
    whose NotFound is only logged: afterwards the pool has no entry of the
    record's function key and address, and the indices [byFunction],
    [byAddress] and [byFunctionUID] are untouched. *)
Theorem DeleteOldPoolCache_by_age st fsvc minAge m :
  Function (deref st fsvc) = Some m →
  (Time.Since (clock st) (Atime (deref st fsvc)) < minAge →
   DeleteOldPoolCache fsvc minAge st = Returns (false, None) st) ∧
  (minAge ≤ Time.Since (clock st) (Atime (deref st fsvc)) →
   ∃ st', DeleteOldPoolCache fsvc minAge st = Returns (true, None) st' ∧
     (∀ g, connFunctionCache st' !! CacheKey m = Some g →
           svcs g !! Address (deref st fsvc) = None) ∧
     (∀ k, k ≠ CacheKey m → connFunctionCache st' !! k = connFunctionCache st !! k) ∧
     byFunction st' = byFunction st ∧ byAddress st' = byAddress st ∧
     byFunctionUID st' = byFunctionUID st ∧ heap st' = heap st).
Proof.
  intros Hm. split; intros Hage.
  - unfold DeleteOldPoolCache, bind, Now, get. cbn beta iota.
    apply Z.ltb_lt in Hage. by rewrite Hage.
  - unfold DeleteOldPoolCache, bind at 1 2, Now, get. cbn beta iota.
    apply Z.ltb_ge in Hage. rewrite Hage.
    unfold DeleteFunctionSvc, bind, get, CacheKeyPtr. cbn beta iota. rewrite Hm.
    cbn [ret field].
    destruct (DeleteValue_effect (CacheKey m) (Address (deref st fsvc)) st)
      as (err & st1 & -> & Hgone & Hother & Hh & Hbf & Hba & Hbu & _).
    destruct err as [e|]; cbn; eexists; (split; [reflexivity|]); cbn; done.
Qed.

Lemma DeleteOldPoolCache_by_age_witness :
  Function (deref Scenario.pooled 0%nat) = Some (Scenario.meta "f1" "u1" "1") ∧
  ∃ st', DeleteOldPoolCache 0%nat 0 Scenario.pooled = Returns (true, None) st' ∧
         byFunction st' = byFunction Scenario.pooled.
Proof.
  split; [reflexivity|].
  destruct (DeleteOldPoolCache_by_age Scenario.pooled 0%nat 0
              (Scenario.meta "f1" "u1" "1") eq_refl) as [_ Hold].
  destruct Hold as (st' & Hrun & _ & _ & Hbf & _).
  - vm_compute. discriminate.
  - exists st'. split; [exact Hrun | exact Hbf].
Defined.

(** * Properties of package creation *)

Module package_create_facts.
Import package_create.

Lemma emits_to_pure {R A} P (Q : A → Prop) (a : A) :
  Q a → emits_to (R := R) P Q (pure a).
Proof. intros Ha s. exists []. split; [constructor|]. cbn. by rewrite app_nil_r. Qed.

Lemma emits_to_return {R A} P (Q : A → Prop) (v : R) : emits_to P Q (return_ v).
Proof. intros s. exists []. split; [constructor|]. cbn. by rewrite app_nil_r. Qed.

Lemma emits_to_panic {R A} P (Q : A → Prop) :
  emits_to (R := R) P Q (fun s => Panicked s).
Proof. intros s. exists []. split; [constructor|]. cbn. by rewrite app_nil_r. Qed.

Lemma emits_to_say {R} (P : Event → Prop) (Q : unit → Prop) e :
  P e → Q tt → emits_to (R := R) P Q (say e).
Proof. intros He Hq s. exists [e]. split; [by repeat constructor|done]. Qed.

Lemma emits_to_then {R A B} P (Q : A → Prop) (Q' : B → Prop) (m : F R A) (k : A → F R B) :
  emits_to P Q m → (∀ a, Q a → emits_to P Q' (k a)) → emits_to P Q' (then_ m k).
Proof.
  intros Hm Hk s. unfold then_. destruct (Hm s) as (evs & Hevs & Hout).
  destruct (m s) as [a s1|v s1|s1]; [|by exists evs..].
  destruct Hout as [Hout Ha].
  destruct (Hk a Ha s1) as (evs' & Hevs' & Hout').
  exists (evs ++ evs')%list. split; [by apply Forall_app|].
  destruct (k a s1); [destruct Hout' as [Hout' Hb]; split; [|done]|..];
    rewrite Hout', Hout; by rewrite app_assoc.
Qed.

Lemma emits_to_made_up_name {R} P w pkgName files :
  emits_to (R := R) P (fun name => pkgName ≠ "" → name = pkgName)
    (made_up_name w pkgName files).
Proof.
  unfold made_up_name. destruct pkgName as [|c rest]; cbn.
  - intros s. exists []. split; [constructor|]. cbn. by rewrite app_nil_r.
  - by apply emits_to_pure.
Qed.

Lemma emits_to_emits {R A} P (Q : A → Prop) (m : F R A) : emits_to P Q m → emits P m.
Proof.
  intros Hm s. destruct (Hm s) as (evs & Hevs & Hout). exists evs. split; [done|].
  destruct (m s); [by destruct Hout|done..].
Qed.

Lemma emits_impl {R A} (P Q : Event → Prop) (m : F R A) :
  (∀ e, P e → Q e) → emits P m → emits Q m.
Proof.
  intros HPQ Hm s. destruct (Hm s) as (evs & Hevs & Hout).
  exists evs. split; [|done]. by eapply Forall_impl.
Qed.

Lemma emits_call {R} P (m : F R R) s :
  emits P m → Forall P (new_events s (call m s)).
Proof.
  intros Hm. destruct (Hm s) as (evs & Hevs & Hout). unfold call, new_events.
  destruct (m s); rewrite Hout, drop_app_length; done.
Qed.

Lemma nonempty_true {A} (l : list A) : nonempty l = true → l ≠ [].
Proof. by destruct l. Qed.

Lemma nonempty_false {A} (l : list A) : nonempty l = false → l = [].
Proof. by destruct l. Qed.

(** Every call [CreatePackage] makes is as [describes] says. *)
Lemma CreatePackage_describes w input pkgName pkgNamespace envName src deploy
    buildcmd specDir specFile noZip userProvidedNS :
  emits (describes input pkgName pkgNamespace envName src deploy buildcmd specFile
           noZip userProvidedNS)
    (CreatePackage w input pkgName pkgNamespace envName src deploy buildcmd specDir
       specFile noZip userProvidedNS).
Proof.
  set (P := describes input pkgName pkgNamespace envName src deploy buildcmd specFile
              noZip userProvidedNS).
  set (envNS := if (Bool input SpecSave || Bool input SpecDry)%bool
                then userProvidedNS else pkgNamespace).
  apply (emits_to_emits P (fun _ => True)).
  unfold CreatePackage. cbn zeta.
  (* the deployment archive *)
  eapply (emits_to_then P
    (fun '(spec, status, name) =>
       SpecEnvironment spec = {| EnvNamespace := envNS; EnvName := envName |} ∧
       status = (if (nonempty deploy && Nat.ltb 0 (String.length specFile))%bool
                 then BuildStatusNone else BuildStatusSucceeded) ∧
       BuildCommand spec = "" ∧ (pkgName ≠ "" → name = pkgName) ∧
       Source spec = ZeroArchive ∧ (deploy = [] → Deployment spec = ZeroArchive))).
  { destruct (nonempty deploy) eqn:Hdeploy.
    - eapply (emits_to_then P (fun _ => True)).
      { apply emits_to_say; [|done]. left. by apply nonempty_true in Hdeploy. }
      intros _ _. destruct (CreateArchive w deploy _ _ _ _ _); [|apply emits_to_return].
      eapply emits_to_then; [apply emits_to_made_up_name|].
      intros name Hname. apply emits_to_pure. apply nonempty_true in Hdeploy.
      subst envNS. destruct (Bool input SpecSave || Bool input SpecDry)%bool; by cbn.
    - apply emits_to_pure. apply nonempty_false in Hdeploy.
      subst envNS. destruct (Bool input SpecSave || Bool input SpecDry)%bool; by cbn. }
  intros [[spec1 status1] name1] (Henv1 & Hst1 & Hbc1 & Hname1 & Hsrc1 & Hdep1).
  (* the source archive *)
  eapply (emits_to_then P
    (fun '(spec, status, name) =>
       SpecEnvironment spec = {| EnvNamespace := envNS; EnvName := envName |} ∧
       status = expected_status src deploy specFile ∧
       BuildCommand spec = "" ∧ (pkgName ≠ "" → name = pkgName) ∧
       (src = [] → Source spec = ZeroArchive) ∧
       (deploy = [] → Deployment spec = ZeroArchive))).
  { unfold expected_status. destruct (nonempty src) eqn:Hsrc.
    - eapply (emits_to_then P (fun _ => True)).
      { apply emits_to_say; [|done]. right. by apply nonempty_true in Hsrc. }
      intros _ _. destruct (CreateArchive w src _ _ _ _ _); [|apply emits_to_return].
      eapply emits_to_then; [apply emits_to_made_up_name|].
      intros name Hname. apply emits_to_pure. apply nonempty_true in Hsrc.
      repeat split; try done. intros Hne. rewrite Hname; [by apply Hname1|].
      intros ->. by rewrite Hname1 in Hne.
    - apply emits_to_pure. by apply nonempty_false in Hsrc. }
  intros [[spec2 status2] name2] (Henv2 & Hst2 & Hbc2 & Hname2 & Hsrc2 & Hdep2).
  (* the name *)
  eapply (emits_to_then P (fun name => pkgName ≠ "" → name = pkgName)).
  { destruct (Nat.eqb (String.length name2) 0) eqn:Hlen.
    - destruct (NewV4 w); [|apply emits_to_return].
      apply emits_to_pure. intros Hne. rewrite (Hname2 Hne) in Hlen.
      by destruct pkgName.
    - by apply emits_to_pure. }
  intros name3 Hname3.
  set (spec3 := if Nat.ltb 0 (String.length buildcmd)
                then with_BuildCommand buildcmd spec2 else spec2).
  assert (∀ ns, shaped pkgName envName buildcmd specFile src deploy ns envNS
                  {| PkgMeta := named name3 ns; Spec := spec3; Status := status2;
                     LastUpdateTimestamp := UTCNow w |}) as Hshape.
  { intros ns. unfold shaped, spec3.
    destruct (Nat.ltb 0 (String.length buildcmd)) eqn:Hb; cbn; repeat split; try done.
    rewrite Hbc2. by destruct buildcmd. }
  destruct (Bool input SpecDry) eqn:Hdry.
  { eapply (emits_to_then P (fun _ => True)); [|intros; apply emits_to_return].
    apply emits_to_say; [|done]. split; [done|].
    specialize (Hshape userProvidedNS). subst envNS.
    by rewrite orb_true_r in Hshape. }
  eapply (emits_to_then P (fun _ => Bool input SpecSave = false)).
  { destruct (Bool input SpecSave) eqn:Hsave.
    - destruct (ReadSpecs w _ _) as [fr|e]; [|apply emits_to_return].
      destruct (SpecExists fr _).
      + eapply (emits_to_then P (fun _ => True)); [|intros; apply emits_to_return].
        by apply emits_to_say.
      + eapply (emits_to_then P (fun _ => True)).
        { apply emits_to_say; [|done]. repeat split; try done.
          all: specialize (Hshape userProvidedNS); subst envNS; cbn in Hshape;
            apply Hshape. }
        intros _ _. destruct (SpecSave_ w _ _); apply emits_to_return.
    - cbn [negb].
      eapply (emits_to_then P (fun _ => True)).
      { apply emits_to_say; [|done]. repeat split; try done.
        all: specialize (Hshape pkgNamespace); subst envNS; cbn in Hshape;
          apply Hshape. }
      intros _ _. destruct (Packages_Create w _ _); [|apply emits_to_return].
      eapply (emits_to_then P (fun _ => True)); [by apply emits_to_say|].
      intros _ _. by apply emits_to_pure. }
  intros pkg Hsave.
  destruct (Bool input StreamLog) eqn:Hstream; [|apply emits_to_return].
  destruct (Pods_List w _) as [[|pod rest]|e];
    [apply emits_to_panic| |apply emits_to_return].
  destruct (Stream w pod); [apply emits_to_return|].
  eapply (emits_to_then P (fun _ => True)); [by apply emits_to_say|].
  intros _ _. destruct (Copy w pod); apply emits_to_return.
Qed.

Lemma emits_result {R R'} P (m : F R R) (f : R → R') :
  emits P m →
  emits (A := R') P (fun s => match call m s with
                              | Returned v s' => Return (f v) s'
                              | Crashed s' => Panicked s'
                              end).
Proof.
  intros Hm s. destruct (Hm s) as (evs & Hevs & Hout). exists evs. split; [done|].
  unfold call. by destruct (m s).
Qed.

(** Every call [run] makes is as [run_describes] says. *)
Lemma run_describes_all w input : emits (run_describes w input) (run w input).
Proof.
  set (P := run_describes w input).
  apply (emits_to_emits P (fun _ => True)). unfold run. cbn zeta.
  eapply (emits_to_then P
    (fun _ => Bool input SpecSave = true → String.length (String_ input PkgName) ≠ 0%nat)).
  { destruct (Nat.eqb (String.length (String_ input PkgName)) 0) eqn:Hlen.
    - destruct (Bool input SpecSave) eqn:Hsave; cbn [andb].
      + apply emits_to_return.
      + by apply emits_to_say.
    - apply emits_to_pure. intros _. by apply Nat.eqb_neq. }
  intros _ Hname.
  destruct (GetResourceNamespace w input NamespacePackage)
    as [[userProvidedNS pkgNamespace]|e] eqn:Hns; [|apply emits_to_return].
  assert ((if Nat.eqb (String.length (String_ input PkgCode)) 0
           then (StringSlice input PkgDeployArchive, false)
           else ((StringSlice input PkgDeployArchive ++ [String_ input PkgCode])%list, true))
          = (deploy_files input,
             negb (Nat.eqb (String.length (String_ input PkgCode)) 0))) as ->.
  { unfold deploy_files. by destruct (Nat.eqb _ 0). }
  destruct (Nat.eqb (length (StringSlice input PkgSrcArchive)) 0 &&
            Nat.eqb (length (deploy_files input)) 0)%bool eqn:Hfiles;
    [apply emits_to_return|].
  assert (StringSlice input PkgSrcArchive ≠ [] ∨ deploy_files input ≠ []) as Hsome.
  { apply andb_false_iff in Hfiles as [H|H]; [left|right]; intros Heq;
      by rewrite Heq in H. }
  eapply (emits_to_then P
    (fun '(specDir, specFile) =>
       specFile = (if Bool input SpecSave
                   then "package-" ++ String_ input PkgName ++ ".yaml" else "") ∧
       (Bool input SpecSave = true →
        (1 ≤ String.length (String_ input PkgName) ≤ 63)%nat))).
  { destruct (Bool input SpecSave) eqn:Hsave; [|by apply emits_to_pure].
    destruct (Nat.ltb 63 (String.length (String_ input PkgName))) eqn:Hlong;
      [apply emits_to_return|].
    destruct (ReadSpecs w _ _) as [fr|e]; [|apply emits_to_return].
    destruct (ExistsInSpecs fr _) as [exists_|e]; [|apply emits_to_return].
    eapply (emits_to_then P (fun _ => True)).
    { destruct exists_; cbn; [by apply emits_to_pure|by apply emits_to_say]. }
    intros _ _. apply emits_to_pure. split; [done|]. intros _.
    apply Nat.ltb_ge in Hlong. specialize (Hname eq_refl). lia. }
  intros [specDir specFile] [-> Hlen].
  intros s.
  destruct (emits_result
              (describes input (String_ input PkgName) pkgNamespace
                 (String_ input PkgEnvironment) (StringSlice input PkgSrcArchive)
                 (deploy_files input) (String_ input PkgBuildCmd)
                 (if Bool input SpecSave
                  then "package-" ++ String_ input PkgName ++ ".yaml" else "")
                 (negb (Nat.eqb (String.length (String_ input PkgCode)) 0))
                 userProvidedNS)
              (CreatePackage w input (String_ input PkgName) pkgNamespace
                 (String_ input PkgEnvironment) (StringSlice input PkgSrcArchive)
                 (deploy_files input) (String_ input PkgBuildCmd) specDir
                 (if Bool input SpecSave
                  then "package-" ++ String_ input PkgName ++ ".yaml" else "")
                 (negb (Nat.eqb (String.length (String_ input PkgCode)) 0))
                 userProvidedNS)
              snd (CreatePackage_describes _ _ _ _ _ _ _ _ _ _ _ _) s)
    as (evs & Hevs & Hout).
  exists evs. split.
  - eapply Forall_impl; [exact Hevs|]. intros e He. unfold P, run_describes.
    destruct e; try done; exists userProvidedNS, pkgNamespace; done.
  - destruct (call _ s) as [[? ?] ?|?]; done.
Qed.

(** The calls of a whole [Create]. *)
Lemma Create_describes w input s :
  Forall (run_describes w input) (new_events s (Create w input s)).
Proof.
  unfold Create. apply emits_call.
  intros s0. destruct (run_describes_all w input s0) as (evs & Hevs & Hout).
  exists evs. split; [done|]. unfold do_, call.
  destruct (run w input s0) as [[e|] s1|[e|] s1|s1]; done.
Qed.

Lemma new_events_same {R} (v : R) s : new_events s (Returned v s) = [].
Proof. unfold new_events. apply drop_all. Qed.

Lemma new_events_one {R} (v : R) s e : new_events s (Returned v (emit e s)) = [e].
Proof. unfold new_events, emit. cbn. by rewrite drop_app_length. Qed.

(** X22: flags that [run] turns down (no name for a spec file, neither
    code nor source nor deployment archive, or a spec name of more than 63
    characters) make [Create] return an error, having done nothing to the
    outside but print warnings: nothing is uploaded, saved or created. *)
Theorem Create_rejects w input s :
  rejected input →
  ∃ e s', Create w input s = Returned (Some e) s' ∧
          Forall is_warning (new_events s (Create w input s)).
Proof.
  intros Hrej. unfold Create, call, do_, call, run. cbn zeta. unfold then_ at 1.
  assert (∀ v : option err, Forall is_warning (new_events s (Returned v s))) as H0.
  { intros v. rewrite new_events_same. constructor. }
  assert (∀ (v : option err) f a,
             Forall is_warning (new_events s (Returned v (emit (Warn f a) s)))) as H1.
  { intros v f a. rewrite new_events_one. by repeat constructor. }
  assert (∀ (v : err) s',
            (s' = s ∨ ∃ f a, s' = emit (Warn f a) s) →
            ∃ e0 s0, Returned (Some v) s' = Returned (Some e0) s0 ∧
                     Forall is_warning (new_events s (Returned (Some v) s'))) as Hdone.
  { intros v s' [->|(f & a & ->)]; eexists _, _; (split; [reflexivity|]);
      [apply H0|apply H1]. }
  destruct Hrej as [[Hn Hs]|[[Hsrc Hdep]|[Hs Hlong]]].
  - rewrite Hn, Hs. cbn. apply Hdone. by left.
  - unfold deploy_files in Hdep.
    destruct (Nat.eqb (String.length (String_ input PkgName)) 0);
      [destruct (Bool input SpecSave); cbn [andb return_ say];
       [apply Hdone; by left|]|cbn [pure]];
      (destruct (GetResourceNamespace w input NamespacePackage) as [[u p]|e];
       [|cbn; apply Hdone; eauto]);
      destruct (Nat.eqb (String.length (String_ input PkgCode)) 0);
      rewrite Hsrc, Hdep; cbn; apply Hdone; eauto.
  - assert (Nat.eqb (String.length (String_ input PkgName)) 0 = false) as ->
      by (apply Nat.eqb_neq; lia).
    apply Nat.ltb_lt in Hlong. cbn [pure].
    destruct (GetResourceNamespace w input NamespacePackage) as [[u p]|e];
      [|cbn; apply Hdone; eauto].
    destruct (Nat.eqb (String.length (String_ input PkgCode)) 0);
      destruct (_ && _)%bool; cbn [return_]; try (apply Hdone; by left);
      unfold then_; rewrite Hs, Hlong; cbn [return_]; apply Hdone; by left.
Qed.

Lemma Create_event w input s e :
  e ∈ new_events s (Create w input s) → run_describes w input e.
Proof. intros He. by eapply Forall_forall; [apply Create_describes|]. Qed.

(** X23: a spec file is saved only by a spec save that is not a dry run,
    for a package named by the name flag, whose length is between 1 and 63
    characters, and into the file package-<name>.yaml. *)
Theorem Create_saves_named_spec w input s pkg file :
  Saved pkg file ∈ new_events s (Create w input s) →
  Bool input SpecSave = true ∧ Bool input SpecDry = false ∧
  Name (PkgMeta pkg) = String_ input PkgName ∧
  (1 ≤ String.length (String_ input PkgName) ≤ 63)%nat ∧
  file = "package-" ++ String_ input PkgName ++ ".yaml".
Proof.
  intros He. apply Create_event in He as (u & p & _ & _ & Hlen & Hd).
  destruct Hd as (Hdry & Hsave & -> & Hshape). rewrite Hsave.
  specialize (Hlen Hsave).
  destruct Hshape as (_ & _ & _ & _ & Hname & _).
  repeat split; try done; try lia.
  apply Hname. intros Heq. rewrite Heq in Hlen. cbn in Hlen. lia.
Qed.

(** X24: the build status of the package that is printed, saved or
    created: pending when there are source archives; otherwise none when
    the package is saved as a spec, and succeeded when it is created in the
    cluster or printed by a dry run without spec save. *)
Theorem Create_build_status w input s e pkg :
  e ∈ new_events s (Create w input s) →
  (e = DryRun pkg ∨ (∃ file, e = Saved pkg file) ∨ (∃ ns, e = Created ns pkg)) →
  Status pkg =
    if nonempty (StringSlice input PkgSrcArchive) then BuildStatusPending
    else if Bool input SpecSave then BuildStatusNone else BuildStatusSucceeded.
Proof.
  intros He Hkind.
  assert (∃ ns ens,
            (StringSlice input PkgSrcArchive ≠ [] ∨ deploy_files input ≠ []) ∧
            shaped (String_ input PkgName) (String_ input PkgEnvironment)
              (String_ input PkgBuildCmd)
              (if Bool input SpecSave
               then "package-" ++ String_ input PkgName ++ ".yaml" else "")
              (StringSlice input PkgSrcArchive) (deploy_files input) ns ens pkg)
    as (ns & ens & Hsome & Hshape).
  { apply Create_event in He.
    destruct Hkind as [->|[[file ->]|[ns ->]]];
      destruct He as (u & p & _ & Hsome & _ & Hd); cbn in Hd.
    - destruct Hd as (_ & Hshape). eauto.
    - destruct Hd as (_ & _ & _ & Hshape). eauto.
    - destruct Hd as (_ & _ & _ & Hshape). eauto. }
  destruct Hshape as (_ & _ & -> & _). unfold expected_status.
  destruct (nonempty (StringSlice input PkgSrcArchive)) eqn:Hsrc; [done|].
  apply nonempty_false in Hsrc. destruct Hsome as [?|Hdep]; [done|].
  assert (nonempty (deploy_files input) = true) as ->
    by (by destruct (deploy_files input)).
  by destruct (Bool input SpecSave).
Qed.


(** X26: what is handed to [CreateArchive]: a non-empty list of files that
    is either the deployment archives, followed by the code file when one
    is given, and then unzipped exactly when a code file is given; or the
    source archives, which are never unzipped. *)
Theorem Create_archives w input s files noZip :
  Archived files noZip ∈ new_events s (Create w input s) →
  files ≠ [] ∧
  ((files = deploy_files input ∧
    noZip = negb (Nat.eqb (String.length (String_ input PkgCode)) 0)) ∨
   (files = StringSlice input PkgSrcArchive ∧ noZip = false)).
Proof.
  intros He. apply Create_event in He as (u & p & _ & _ & _ & Hd). cbn in Hd.
  destruct Hd as [(-> & -> & Hne)|(-> & -> & Hne)]; split; auto.
Qed.

Lemma Create_run w input s :
  Create w input s = call (run w input) s.
Proof.
  unfold Create, call at 1, do_, call. by destruct (run w input s) as [[?|] ?|[?|] ?|?].
Qed.

(** [run] either turns the flags down, or hands them to [CreatePackage]
    after nothing but warnings, with no random draw made. *)
Lemma Create_reaches w input s :
  (∃ e s', Create w input s = Returned (Some e) s' ∧
           Forall is_warning (new_events s (Create w input s))) ∨
  (∃ u p ws specDir,
     GetResourceNamespace w input NamespacePackage = inl (u, p) ∧
     Forall is_warning ws ∧
     Create w input s =
       match call (CreatePackage w input (String_ input PkgName) p
                     (String_ input PkgEnvironment) (StringSlice input PkgSrcArchive)
                     (deploy_files input) (String_ input PkgBuildCmd) specDir
                     (if Bool input SpecSave
                      then "package-" ++ String_ input PkgName ++ ".yaml" else "")
                     (negb (Nat.eqb (String.length (String_ input PkgCode)) 0)) u)
                  {| out := (out s ++ ws)%list; draws := draws s |} with
       | Returned (_, e) s' => Returned e s'
       | Crashed s' => Crashed s'
       end).
Proof.
  rewrite Create_run. remember (call (run w input) s) as r eqn:Hr.
  destruct s as [o d]. unfold call at 1, run in Hr. cbn zeta in Hr.
  assert ((if Nat.eqb (String.length (String_ input PkgCode)) 0
           then (StringSlice input PkgDeployArchive, false)
           else ((StringSlice input PkgDeployArchive ++ [String_ input PkgCode])%list, true))
          = (deploy_files input,
             negb (Nat.eqb (String.length (String_ input PkgCode)) 0))) as Hfiles.
  { unfold deploy_files. by destruct (Nat.eqb (String.length (String_ input PkgCode)) 0). }
  rewrite Hfiles in Hr. clear Hfiles.
  unfold then_, when, say, pure, return_, emit in Hr. cbn [out draws] in *.
  destruct (Nat.eqb (String.length (String_ input PkgName)) 0);
    destruct (Bool input SpecSave); cbn [andb] in Hr;
    (destruct (GetResourceNamespace w input NamespacePackage) as [[u p]|e0];
     [try destruct (_ && _)%bool in Hr|]);
    try destruct (Nat.ltb 63 _) in Hr;
    try destruct (ReadSpecs w _ _) as [fr|e1] in Hr;
    try destruct (ExistsInSpecs fr _) as [[|]|e2] in Hr; cbn [negb out draws] in Hr;
    try (left; eexists _, _; split; [exact Hr|]; rewrite Hr;
         unfold new_events; cbn [out draws];
         rewrite ?drop_app_length, ?drop_all; by repeat constructor).
  all: right.
  all: match type of Hr with
       | context [call _ {| out := (_ ++ [?a])%list; draws := _ |}] =>
         exists u, p, [a]
       | _ => exists u, p, []; rewrite app_nil_r
       end.
  all: match type of Hr with
       | context [CreatePackage _ _ _ _ _ _ _ _ ?dir _ _ _] => exists dir
       end; split; [done|]; split; [by repeat constructor|].
  all: rewrite Hr; by destruct (call _ _) as [[? ?] ?|?].
Qed.

(** The events of a [Create] that gets to [CreatePackage]. *)
Lemma new_events_reached s ws evs s' :
  out s' = ((out s ++ ws) ++ evs)%list →
  drop (length (out s)) (out s') = (ws ++ evs)%list.
Proof. intros Hout. by rewrite Hout, <- app_assoc, drop_app_length. Qed.

(** With log streaming asked for and no pod listed, [CreatePackage] panics
    exactly when the cluster has created the package. *)
Lemma CreatePackage_stream_no_pods w input pkgName pkgNamespace envName src deploy
    buildcmd specDir specFile noZip userProvidedNS s :
  Bool input SpecDry = false → Bool input SpecSave = false →
  Bool input StreamLog = true → Pods_List w "fission" = inl [] →
  match call (CreatePackage w input pkgName pkgNamespace envName src deploy buildcmd
                specDir specFile noZip userProvidedNS) s with
  | Returned (_, None) _ => False
  | Returned (_, Some _) s' =>
    ∃ evs, out s' = (out s ++ evs)%list ∧
           ∀ ns pkg m, Created ns pkg ∈ evs → Packages_Create w ns pkg = inl m → False
  | Crashed s' =>
    ∃ pkg m evs, Packages_Create w pkgNamespace pkg = inl m ∧
                 out s' = (out s ++ evs)%list ∧ Created pkgNamespace pkg ∈ evs
  end.
Proof.
  intros Hdry Hsave Hstream Hpods.
  unfold call, CreatePackage. cbn zeta. rewrite Hdry, Hsave, Hstream, Hpods.
  cbn [negb orb]. unfold then_, say, made_up_name, then_, uniuri_NewLen, pure, return_.
  repeat (case_match; simplify_eq; try done).
  all: cbn [out emit draws] in *; rewrite <- ?app_assoc.
  all: try (eexists; split; [first [reflexivity|symmetry; apply app_nil_r]|];
            intros ns0 pkg0 m0 Hin Hc; cbn [app] in Hin;
            repeat (apply elem_of_cons in Hin as [Hin|Hin];
                    [by (simplify_eq; congruence)|]);
            by apply elem_of_nil in Hin).
  all: eexists _, _, _; (split; [eassumption|]); (split; [reflexivity|]).
  all: cbn [app]; repeat first [apply list_elem_of_here|apply list_elem_of_further].
Qed.

(** X27: with log streaming asked for (no dry run, no spec save) and no
    builder pod listed, [Create] never succeeds, and it panics on the first
    item of the empty pod list exactly when the cluster has already
    created the package. *)
Theorem Create_stream_without_pods w input s :
  Bool input SpecDry = false → Bool input SpecSave = false →
  Bool input StreamLog = true → Pods_List w "fission" = inl [] →
  (∀ s', Create w input s ≠ Returned None s') ∧
  ((∃ s', Create w input s = Crashed s') ↔
   ∃ ns pkg m, Created ns pkg ∈ new_events s (Create w input s) ∧
               Packages_Create w ns pkg = inl m).
Proof.
  intros Hdry Hsave Hstream Hpods.
  destruct (Create_reaches w input s)
    as [(e & s' & Heq & Hw)|(u & p & ws & dir & Hns & Hws & Heq)].
  - rewrite Heq in *. split; [by intros ? [=]|]. split; [by intros [? [=]]|].
    intros (ns & pkg & m & Hin & _). exfalso.
    eapply Forall_forall in Hw; [|exact Hin]. done.
  - pose proof (CreatePackage_stream_no_pods w input (String_ input PkgName) p
                  (String_ input PkgEnvironment) (StringSlice input PkgSrcArchive)
                  (deploy_files input) (String_ input PkgBuildCmd) dir
                  (if Bool input SpecSave
                   then "package-" ++ String_ input PkgName ++ ".yaml" else "")
                  (negb (Nat.eqb (String.length (String_ input PkgCode)) 0)) u
                  {| out := (out s ++ ws)%list; draws := draws s |}
                  Hdry Hsave Hstream Hpods) as H.
    rewrite Heq. destruct (call _ _) as [[m [e|]] s'|s']; [|done|]; cbn [out] in H.
    + destruct H as (evs & Hout & Hnone).
      split; [by intros ? [=]|]. split; [by intros [? [=]]|].
      intros (ns & pkg & m0 & Hin & Hc). exfalso. unfold new_events in Hin.
      rewrite (new_events_reached _ _ _ _ Hout) in Hin.
      apply elem_of_app in Hin as [Hin|Hin]; [|by eapply Hnone].
      eapply Forall_forall in Hws; [|exact Hin]. done.
    + destruct H as (pkg & m & evs & Hc & Hout & Hin).
      split; [by intros ? [=]|]. split; [intros _|by eauto].
      exists p, pkg, m. split; [|done]. unfold new_events.
      rewrite (new_events_reached _ _ _ _ Hout). apply elem_of_app. by right.
Qed.

(** When [CreatePackage] returns no error, what its mode is for went
    through. *)
Lemma CreatePackage_success w input pkgName pkgNamespace envName src deploy
    buildcmd specDir specFile noZip userProvidedNS s m s' :
  call (CreatePackage w input pkgName pkgNamespace envName src deploy buildcmd
          specDir specFile noZip userProvidedNS) s = Returned (m, None) s' →
  ∃ evs, out s' = (out s ++ evs)%list ∧
    if Bool input SpecDry then ∃ pkg, DryRun pkg ∈ evs ∧ SpecDry_ w pkg = None
    else if Bool input SpecSave then
      (∃ pkg file, Saved pkg file ∈ evs ∧ SpecSave_ w pkg file = None) ∨
      (∃ fr pkg obj,
         ReadSpecs w (GetSpecDir w input) (GetSpecIgnore w input) = inl fr ∧
         SpecExists fr pkg = Some obj ∧
         Printf "Re-using previously created package %v\n" [AStr (Name (PkgMeta obj))]
           ∈ evs ∧
         ∀ p f, Saved p f ∉ evs)
    else ∃ ns pkg md, Packages_Create w ns pkg = inl md ∧ Created ns pkg ∈ evs.
Proof.
  intros H. unfold call, CreatePackage in H. cbn zeta in H.
  unfold then_, say, made_up_name, then_, uniuri_NewLen, pure, return_ in H.
  destruct (Bool input SpecDry) eqn:Hdry; destruct (Bool input SpecSave) eqn:Hsave;
    cbn [negb orb] in H; repeat (case_match; simplify_eq; try done).
  all: cbn [out emit draws] in *; rewrite <- ?app_assoc.
  all: eexists; (split; [first [reflexivity|symmetry; apply app_nil_r]|]); cbn [app].
  all: try (eexists; split;
            [repeat first [apply list_elem_of_here|apply list_elem_of_further]|done]).
  all: try (left; eexists _, _; split;
            [repeat first [apply list_elem_of_here|apply list_elem_of_further]|done]).
  all: try (eexists _, _, _; split; [eassumption|];
            by repeat first [apply list_elem_of_here|apply list_elem_of_further]).
  all: right; eexists _, _, _; (split; [reflexivity|]); (split; [eassumption|]).
  all: split; [by repeat first [apply list_elem_of_here|apply list_elem_of_further]|].
  all: intros p0 f0 Hin;
       repeat (apply elem_of_cons in Hin as [Hin|Hin]; [done|]);
       by apply elem_of_nil in Hin.
Qed.

(** X28: [Create] returns no error only after what its mode is for went
    through: the dry run printed the package; or the spec file was saved,
    unless the specs already hold the same package, in which case this is
    reported and nothing is saved; or the cluster created the package. *)
Theorem Create_succeeds_only_after w input s s' :
  Create w input s = Returned None s' →
  let evs := new_events s (Create w input s) in
  if Bool input SpecDry then ∃ pkg, DryRun pkg ∈ evs ∧ SpecDry_ w pkg = None
  else if Bool input SpecSave then
    (∃ pkg file, Saved pkg file ∈ evs ∧ SpecSave_ w pkg file = None) ∨
    (∃ fr pkg obj,
       ReadSpecs w (GetSpecDir w input) (GetSpecIgnore w input) = inl fr ∧
       SpecExists fr pkg = Some obj ∧
       Printf "Re-using previously created package %v\n" [AStr (Name (PkgMeta obj))]
         ∈ evs ∧
       ∀ p f, Saved p f ∉ evs)
  else ∃ ns pkg md, Packages_Create w ns pkg = inl md ∧ Created ns pkg ∈ evs.
Proof.
  intros Hnil evs. subst evs.
  destruct (Create_reaches w input s)
    as [(e & s0 & Heq & Hw)|(u & p & ws & dir & Hns & Hws & Heq)];
    [by rewrite Heq in Hnil|].
  rewrite Heq in Hnil |- *.
  destruct (call _ _) as [[m [e|]] s1|s1] eqn:Hcall; try done.
  apply CreatePackage_success in Hcall as (evs & Hout & Hmode). cbn [out] in Hout.
  unfold new_events. rewrite (new_events_reached _ _ _ _ Hout).
  destruct (Bool input SpecDry); [|destruct (Bool input SpecSave)].
  - destruct Hmode as (pkg & Hin & Hok). exists pkg. split; [|done].
    apply elem_of_app. by right.
  - destruct Hmode as [(pkg & file & Hin & Hok)|(fr & pkg & obj & Hfr & Hobj & Hin & Hno)].
    + left. exists pkg, file. split; [|done]. apply elem_of_app. by right.
    + right. exists fr, pkg, obj. split; [done|]. split; [done|].
      split; [apply elem_of_app; by right|].
      intros p0 f0 Hp. apply elem_of_app in Hp as [Hp|Hp]; [|by eapply Hno].
      eapply Forall_forall in Hws; [|exact Hp]. done.
  - destruct Hmode as (ns & pkg & md & Hc & Hin). exists ns, pkg, md. split; [done|].
    apply elem_of_app. by right.
Qed.

(** The name [CreatePackage] makes up when none is given. *)
Lemma CreatePackage_named w input pkgNamespace envName src deploy
    buildcmd specDir specFile noZip userProvidedNS s :
  (deploy ≠ [] ∨ src ≠ []) →
  KubifyName w (Base w (hd "" (deploy ++ src)) ++ "-" ++ NewLen w (draws s)) ≠ "" →
  ∃ evs,
    Forall (fun e =>
              match e with
              | DryRun pkg | Saved pkg _ | Created _ pkg =>
                Name (PkgMeta pkg) =
                KubifyName w (Base w (hd "" (deploy ++ src)) ++ "-" ++ NewLen w (draws s))
              | _ => True
              end) evs ∧
    match call (CreatePackage w input "" pkgNamespace envName src deploy buildcmd
                  specDir specFile noZip userProvidedNS) s with
    | Returned _ s' | Crashed s' => out s' = (out s ++ evs)%list
    end.
Proof.
  intros Hsome. unfold call, CreatePackage. cbn zeta.
  unfold then_, say, made_up_name, then_, uniuri_NewLen, pure, return_.
  destruct deploy as [|f fs]; [destruct src as [|g gs]; [by destruct Hsome|]|];
    cbn [hd app]; change (nonempty (@nil string)) with false; cbn iota;
    [change (nonempty (g :: gs)) with true|change (nonempty (f :: fs)) with true];
    cbn [String.length Nat.eqb hd draws]; cbn iota.
  all: destruct (KubifyName w _) as [|c name] eqn:Hname; [done|intros _].
  all: repeat (case_match; simplify_eq; try done;
               try (cbn [draws] in *; rewrite Hname in *; discriminate)).
  all: cbn [out emit draws] in *; rewrite <- ?app_assoc.
  all: eexists; (split; [|first [reflexivity|symmetry; apply app_nil_r]]).
  all: by repeat constructor.
Qed.

(** X29: without a name flag, the package that a dry run prints or the
    cluster is asked to create is named after the first file handed in,
    deployment archives and code before source archives: the base name of
    that file, a dash and the first random draw, made into a Kubernetes
    name (provided that name is not empty). *)
Theorem Create_names_after_first_file w input s e pkg :
  String_ input PkgName = "" →
  KubifyName w (Base w (hd "" (deploy_files input ++ StringSlice input PkgSrcArchive))
                ++ "-" ++ NewLen w (draws s)) ≠ "" →
  e ∈ new_events s (Create w input s) →
  (e = DryRun pkg ∨ ∃ ns, e = Created ns pkg) →
  Name (PkgMeta pkg) =
  KubifyName w (Base w (hd "" (deploy_files input ++ StringSlice input PkgSrcArchive))
                ++ "-" ++ NewLen w (draws s)).
Proof.
  intros Hn Hk Hin Hkind.
  assert (deploy_files input ≠ [] ∨ StringSlice input PkgSrcArchive ≠ []) as Hsome.
  { pose proof (Create_event _ _ _ _ Hin) as Hd.
    destruct Hkind as [->|[ns ->]]; destruct Hd as (? & ? & _ & [?|?] & _); auto. }
  assert (¬ is_warning e) as Hnw.
  { intros Hw. by destruct Hkind as [->|[ns ->]]. }
  destruct (Create_reaches w input s)
    as [(e0 & s0 & Heq & Hw)|(u & p & ws & dir & Hns & Hws & Heq)].
  - eapply Forall_forall in Hw; [|exact Hin]. done.
  - rewrite Heq, Hn in Hin.
    destruct (CreatePackage_named w input p (String_ input PkgEnvironment)
                (StringSlice input PkgSrcArchive) (deploy_files input)
                (String_ input PkgBuildCmd) dir
                (if Bool input SpecSave then "package-" ++ "" ++ ".yaml" else "")
                (negb (Nat.eqb (String.length (String_ input PkgCode)) 0)) u
                {| out := (out s ++ ws)%list; draws := draws s |} Hsome Hk)
      as (evs & Hevs & Hout).
    assert (e ∈ (ws ++ evs)%list) as Hin'.
    { destruct (call _ _) as [[m e0] s'|s']; cbn [out] in Hout; unfold new_events in Hin;
        by rewrite (new_events_reached _ _ _ _ Hout) in Hin. }
    apply elem_of_app in Hin' as [Hin'|Hin'].
    + eapply Forall_forall in Hws; [|exact Hin']. done.
    + eapply Forall_forall in Hevs; [|exact Hin'].
      by destruct Hkind as [->|[ns ->]].
Qed.

Lemma Create_rejects_witness :
  rejected package_example.bare ∧
  ∃ e s', Create package_example.cluster package_example.bare package_example.start
          = Returned (Some e) s' ∧
          Forall is_warning
            (new_events package_example.start
               (Create package_example.cluster package_example.bare
                  package_example.start)).
Proof.
  assert (rejected package_example.bare) as H.
  { right. left. split; reflexivity. }
  split; [exact H|].
  exact (Create_rejects package_example.cluster package_example.bare
           package_example.start H).
Defined.

Lemma Create_saves_named_spec_witness :
  ∃ pkg,
    Saved pkg "package-hello.yaml"
      ∈ new_events package_example.start
          (Create package_example.cluster package_example.hello_spec
             package_example.start) ∧
    Name (PkgMeta pkg) = "hello".
Proof.
  assert (∃ pkg,
            Saved pkg "package-hello.yaml"
              ∈ new_events package_example.start
                  (Create package_example.cluster package_example.hello_spec
                     package_example.start)) as [pkg H].
  { vm_compute. eexists. apply list_elem_of_further, list_elem_of_here. }
  exists pkg. split; [exact H|].
  destruct (Create_saves_named_spec _ _ _ _ _ H) as (_ & _ & Hname & _).
  exact Hname.
Defined.

Lemma Create_build_status_witness :
  ∃ ns pkg,
    Created ns pkg
      ∈ new_events package_example.start
          (Create package_example.cluster package_example.unnamed
             package_example.start) ∧
    Status pkg = BuildStatusPending.
Proof.
  assert (∃ ns pkg,
            Created ns pkg
              ∈ new_events package_example.start
                  (Create package_example.cluster package_example.unnamed
                     package_example.start)) as (ns & pkg & H).
  { vm_compute. eexists _, _. do 3 apply list_elem_of_further. apply list_elem_of_here. }
  exists ns, pkg. split; [exact H|].
  exact (Create_build_status _ _ _ _ pkg H (or_intror (or_intror (ex_intro _ ns eq_refl)))).
Defined.


Lemma Create_archives_witness :
  Archived ["hello.js"] true
    ∈ new_events package_example.start
        (Create package_example.cluster package_example.hello package_example.start) ∧
  ["hello.js"] = deploy_files package_example.hello.
Proof.
  assert (Archived ["hello.js"] true
            ∈ new_events package_example.start
                (Create package_example.cluster package_example.hello
                   package_example.start)) as H.
  { vm_compute. apply list_elem_of_here. }
  split; [exact H|].
  destruct (Create_archives _ _ _ _ _ H) as [_ [[Hd _]|[Hs _]]];
    [exact Hd|discriminate Hs].
Defined.

Lemma Create_stream_without_pods_witness :
  (∀ s', Create package_example.cluster package_example.hello_stream
           package_example.start ≠ Returned None s') ∧
  ((∃ s', Create package_example.cluster package_example.hello_stream
            package_example.start = Crashed s') ↔
   ∃ ns pkg m,
     Created ns pkg
       ∈ new_events package_example.start
           (Create package_example.cluster package_example.hello_stream
              package_example.start) ∧
     Packages_Create package_example.cluster ns pkg = inl m).
Proof.
  exact (Create_stream_without_pods package_example.cluster package_example.hello_stream
           package_example.start eq_refl eq_refl eq_refl eq_refl).
Defined.

Lemma Create_succeeds_only_after_witness :
  ∃ s',
    Create package_example.cluster package_example.hello package_example.start
    = Returned None s' ∧
    ∃ ns pkg md,
      Packages_Create package_example.cluster ns pkg = inl md ∧
      Created ns pkg
        ∈ new_events package_example.start
            (Create package_example.cluster package_example.hello
               package_example.start).
Proof.
  assert (∃ s', Create package_example.cluster package_example.hello
                  package_example.start = Returned None s') as [s' H].
  { vm_compute. eexists. reflexivity. }
  exists s'. split; [exact H|].
  exact (Create_succeeds_only_after _ _ _ _ H).
Defined.

Lemma Create_names_after_first_file_witness :
  ∃ ns pkg,
    Created ns pkg
      ∈ new_events package_example.start
          (Create package_example.cluster package_example.unnamed
             package_example.start) ∧
    Name (PkgMeta pkg) = "hello.js-ab12".
Proof.
  assert (∃ ns pkg,
            Created ns pkg
              ∈ new_events package_example.start
                  (Create package_example.cluster package_example.unnamed
                     package_example.start)) as (ns & pkg & H).
  { vm_compute. eexists _, _. do 3 apply list_elem_of_further. apply list_elem_of_here. }
  exists ns, pkg. split; [exact H|].
  refine (Create_names_after_first_file package_example.cluster package_example.unnamed
            package_example.start _ pkg eq_refl _ H (or_intror (ex_intro _ ns eq_refl))).
  vm_compute. discriminate.
Defined.

End package_create_facts.
